(** * Division shooting game (shootiggame2.py): model and verified properties

    A shallow embedding of the game's logic: the question generator, the
    distractor/meteor batch construction, the per-frame update with its
    collision and off-screen sweep, hit resolution, click handling and the
    event loop; and of what the meteor image and the drawing of a particle
    compute.

    Conventions of the embedding
    - Python [int] is [Z] (unbounded).
    - Python [float] is idealised as an exact rational [Q]; no property below
      depends on rounding.
    - The process-wide state that the program reaches through the [random]
      and [pygame.time] modules (the generator's stream of draws and the
      one USEREVENT+1 timer) is an explicit [World] threaded by a state and
      exception monad [M].
    - The [while] loop of [make_new_question] has no bound in the source; it
      is run with a bound [fuel] and raises [OutOfFuel] when the bound is
      exceeded.
    - [math.tau], [math.cos], [math.sin] are not rational; they are taken as
      an interface [MathLib]. *)

From Stdlib Require Import ZArith QArith Qround Qminmax String Ascii Lia Lqa
  DecimalString DecimalZ Sorted.
From stdpp Require Import base numbers list.

Local Open Scope Z_scope.

(** ** Exceptions, the ambient world and the monad *)

Inductive exn : Set :=
| IndexError
| ValueError
| TypeError
| ZeroDivisionError
| PygameError
| OutOfFuel.

Inductive result (A : Type) : Type :=
| Ok (a : A)
| Raise (e : exn).
Arguments Ok {A} a.
Arguments Raise {A} e.

(** [tape]/[pos]: the stream of raw draws of the [random] module and the
    cursor into it.  [timer]: the period in milliseconds of the pygame timer
    attached to USEREVENT+1, 0 when the timer is disabled. *)
Record World : Type := mkWorld {
  tape : nat -> Z;
  pos : nat;
  timer : Z
}.

Definition M (A : Type) : Type := World -> result (A * World).

Definition ret {A} (a : A) : M A := fun w => Ok (a, w).

Definition bind {A B} (m : M A) (k : A -> M B) : M B :=
  fun w => match m w with
           | Ok (a, w') => k a w'
           | Raise e => Raise e
           end.

Definition raise {A} (e : exn) : M A := fun _ => Raise e.

Declare Scope py_scope.
Delimit Scope py_scope with py.
Notation "x <- m ;; k" := (bind m (fun x => k))
  (at level 100, m at next level, right associativity) : py_scope.
Notation "m ;;; k" := (bind m (fun _ => k))
  (at level 100, right associativity) : py_scope.
Local Open Scope py_scope.

(** [for x in l: body], threading an accumulator. *)
Fixpoint for_each {A S} (l : list A) (body : A -> S -> M S) (s : S) : M S :=
  match l with
  | [] => ret s
  | a :: l' => s' <- body a s ;; for_each l' body s'
  end.

(** [for _ in range(n): body]. *)
Fixpoint repeat_m {S} (n : nat) (body : S -> M S) (s : S) : M S :=
  match n with
  | O => ret s
  | S n' => s' <- body s ;; repeat_m n' body s'
  end.

(** ** The [random] module *)

Module random.

(** One raw draw reduced below [n] (CPython's [_randbelow]). *)
Definition randbelow (n : Z) : M Z :=
  fun w => Ok (tape w (pos w) mod n,
               {| tape := tape w; pos := S (pos w); timer := timer w |}).

Definition randint (a b : Z) : M Z :=
  if b <? a then raise ValueError
  else k <- randbelow (b - a + 1) ;; ret (a + k).

Definition choice {A} (seq : list A) : M A :=
  match seq with
  | [] => raise IndexError
  | _ =>
      i <- randbelow (Z.of_nat (length seq)) ;;
      match seq !! Z.to_nat i with
      | Some a => ret a
      | None => raise IndexError
      end
  end.

(** [random.random()]: a multiple of 2^-53 in [0, 1). *)
Definition random : M Q :=
  k <- randbelow (2 ^ 53) ;; ret (Qmake k (2 ^ 53)).

Definition uniform (a b : Q) : M Q :=
  u <- random ;; ret (a + (b - a) * u)%Q.

(** [x[i], x[j] = x[j], x[i]] *)
Definition swap {A} (x : list A) (i j : nat) : list A :=
  match x !! i, x !! j with
  | Some xi, Some xj => <[j := xi]> (<[i := xj]> x)
  | _, _ => x
  end.

(** [for i in reversed(range(1, k + 1)): j = randbelow(i + 1); swap] *)
Fixpoint shuffle_from {A} (k : nat) (x : list A) : M (list A) :=
  match k with
  | O => ret x
  | S k' =>
      j <- randbelow (Z.of_nat (S k)) ;;
      shuffle_from k' (swap x k (Z.to_nat j))
  end.

Definition shuffle {A} (x : list A) : M (list A) :=
  shuffle_from (length x - 1) x.

End random.

(** ** Builtins: [str], [int], [clamp] *)

(** [str(n)] on an integer.  CPython refuses the conversion of integers of
    more than 4300 digits; the labels of the game are at most 16, and that
    limit is not modelled. *)
Definition str (n : Z) : string := NilZero.string_of_int (Z.to_int n).

(** The integer that a decimal literal denotes. *)
Definition parse_int (s : string) : option Z :=
  option_map Z.of_int (NilZero.int_of_string s).

(** [int(s)] on a string: [ValueError] unless [s] is a decimal literal. *)
Definition int_of_str (s : string) : M Z :=
  match parse_int s with
  | Some n => ret n
  | None => raise ValueError
  end.

(** [int(q)] on a float: truncation towards zero. *)
Definition int_of_float (q : Q) : Z :=
  if Qle_bool 0 q then Qfloor q else Qceiling q.

Definition clamp (v a b : Z) : Z := Z.max a (Z.min b v).

(** [l[i]]: a negative index counts from the end; [IndexError] outside
    [-len(l) .. len(l) - 1]. *)
Definition py_index {A} (l : list A) (i : Z) : M A :=
  let n := Z.of_nat (length l) in
  let j := if i <? 0 then i + n else i in
  if (0 <=? j) && (j <? n) then
    match l !! Z.to_nat j with
    | Some a => ret a
    | None => raise IndexError
    end
  else raise IndexError.

(** [clamp] on floats. *)
Definition clamp_float (v a b : Q) : Q := Qmax a (Qmin b v).

Definition Qlt_bool (a b : Q) : bool := negb (Qle_bool b a).

#[global] Instance Q_eq_dec : EqDecision Q.
Proof. solve_decision. Defined.

#[global] Instance string_eq_dec : EqDecision string := String.string_dec.

(** ** Constants of the program *)

Definition WIDTH : Z := 900.
Definition HEIGHT : Z := 650.
Definition TARGET_CORRECT : Z := 20.
Definition FALL_SPEED_MIN : Z := 60.
Definition FALL_SPEED_MAX : Z := 140.
(** [METEOR_IMG = make_meteor_surface(38)]: a square surface of side 76. *)
Definition METEOR_SIZE : Z := 38 * 2.
Definition K_ESCAPE : Z := 27.

(** ** The meteor image

    Of the surface that [make_meteor_surface] draws, its side and the
    craters [(r, x, y)] in drawing order. *)
Record Surface : Type := mkSurface {
  side : Z;
  craters : list (Z * Z * Z)
}.

Definition add_crater (radius : Z) (s : Surface) : M Surface :=
  r <- random.randint 6 (radius / 2) ;;
  x <- random.randint (radius / 4) (radius + radius / 2) ;;
  y <- random.randint (radius / 4) (radius + radius / 2) ;;
  ret {| side := side s; craters := craters s ++ [(r, x, y)] |}.

Definition make_meteor_surface (radius : Z) : M Surface :=
  let size := radius * 2 in
  let s := {| side := size; craters := [] |} in
  repeat_m 4 (add_crater radius) s.

(** ** The part of [pygame.Rect] that the game uses

    Coordinates are integers; a float coordinate is truncated on entry. *)

Module Rect.

Record t : Type := mk {
  left : Z;
  top : Z;
  width : Z;
  height : Z
}.

(** [surface.get_rect(center=(cx, cy))] and [rect.center = (cx, cy)] for a
    rectangle of the given size. *)
Definition centered (w h : Z) (cx : Z) (cy : Q) : t :=
  {| left := cx - w / 2;
     top := int_of_float cy - h / 2;
     width := w;
     height := h |}.

Definition set_center (r : t) (cx : Z) (cy : Q) : t :=
  centered (width r) (height r) cx cy.

#[global] Instance rect_eq_dec : EqDecision t.
Proof. solve_decision. Defined.

Definition collidepoint (r : t) (p : Z * Z) : bool :=
  let '(px, py) := p in
  (left r <=? px) && (px <? left r + width r) &&
  (top r <=? py) && (py <? top r + height r).

Definition colliderect (a b : t) : bool :=
  if (width a =? 0) || (height a =? 0) || (width b =? 0) || (height b =? 0)
  then false
  else
    (Z.min (left a) (left a + width a) <? Z.max (left b) (left b + width b)) &&
    (Z.min (top a) (top a + height a) <? Z.max (top b) (top b + height b)) &&
    (Z.min (left b) (left b + width b) <? Z.max (left a) (left a + width a)) &&
    (Z.min (top b) (top b + height b) <? Z.max (top a) (top a + height a)).

End Rect.

(** ** The part of [math] that the game uses *)

Class MathLib : Type := {
  tau : Q;
  cos : Q -> Q;
  sin : Q -> Q
}.

(** ** Explosion particles *)

Module ExplosionParticle.

Record t : Type := mk {
  x : Q;
  y : Q;
  vx : Q;
  vy : Q;
  life : Q;
  age : Q;
  size : Q
}.

Section with_math.
Context `{MathLib}.

Definition init (p : Z * Q) : M t :=
  let '(px, py) := p in
  r <- random.random ;;
  let ang := (r * tau)%Q in
  speed <- random.uniform 80 260 ;;
  let vx := (cos ang * speed)%Q in
  let vy := (sin ang * speed)%Q in
  life <- random.uniform (1 # 2) 1 ;;
  size <- random.uniform 2 6 ;;
  ret {| x := inject_Z px; y := py; vx := vx; vy := vy;
         life := life; age := 0; size := size |}.

End with_math.

(** What [draw] blits: the opacity and the radius of the disc, [None] when
    it returns before drawing.  The outer [None] stands for the
    [ZeroDivisionError] of [self.age / self.life]. *)
Definition draw (p : t) : option (option (Z * Z)) :=
  if Qeq_bool (life p) 0 then None
  else
    let t := clamp_float (1 - age p / life p)%Q 0 1 in
    if Qle_bool t 0 then Some None
    else
      let alpha := int_of_float (255 * t)%Q in
      let r := int_of_float (size p * (1 + t))%Q in
      Some (Some (alpha, r)).

(** [draw] as a step of the program, with what can make it fail: the
    division, [pygame.Surface((r*2, r*2))] for a negative [r]
    ([pygame.error]) and the colour [color + (alpha,)] for an [alpha]
    outside 0..255 ([ValueError]). *)
Definition draw_checked (p : t) : M unit :=
  match draw p with
  | None => raise ZeroDivisionError
  | Some None => ret tt
  | Some (Some (alpha, r)) =>
      if r <? 0 then raise PygameError
      else if (0 <=? alpha) && (alpha <=? 255) then ret tt
      else raise ValueError
  end.

Definition update (dt : Q) (p : t) : t :=
  {| x := (x p + vx p * dt)%Q;
     y := (y p + vy p * dt)%Q;
     vx := vx p;
     vy := vy p;
     life := life p;
     age := (age p + dt)%Q;
     size := size p |}.

End ExplosionParticle.

(** ** Meteors (the answer choices) *)

Module Meteor.

Record t : Type := mk {
  x : Z;
  y : Q;
  text : string;
  speed : Q;
  rect : Rect.t;
  hit : bool
}.

Definition init (x : Z) (y : Q) (text : Z) (speed : Q) : t :=
  {| x := x;
     y := y;
     text := str text;
     speed := speed;
     rect := Rect.centered METEOR_SIZE METEOR_SIZE x y;
     hit := false |}.

Definition update (dt : Q) (m : t) : t :=
  let y' := (y m + speed m * dt)%Q in
  {| x := x m;
     y := y';
     text := text m;
     speed := speed m;
     rect := Rect.set_center (rect m) (x m) y';
     hit := hit m |}.

#[global] Instance meteor_eq_dec : EqDecision t.
Proof. solve_decision. Defined.

End Meteor.

(** ** Question generator *)

Definition Question : Type := (Z * Z * Z)%type.

Module QuestionGenerator.

Record t : Type := mk {
  difficulty : Z;
  divisors : list Z;
  max_dividend : Z
}.

(** [list(range(a, b))] *)
Definition range (a b : Z) : list Z :=
  map (fun i => a + Z.of_nat i) (seq 0 (Z.to_nat (b - a))).

Definition set_difficulty (difficulty : Z) : t :=
  if difficulty =? 0 then
    {| difficulty := difficulty; divisors := range 1 6; max_dividend := 20 |}
  else if difficulty =? 1 then
    {| difficulty := difficulty; divisors := range 6 10; max_dividend := 60 |}
  else
    {| difficulty := difficulty; divisors := range 1 10; max_dividend := 81 |}.

Definition init (difficulty : Z) : t := set_difficulty difficulty.

(** The bounded retry loop; [None] when all [n] draws were rejected. *)
Fixpoint retry (n : nat) (divisor max_dividend : Z) : M (option Question) :=
  match n with
  | O => ret None
  | S n' =>
      quotient <- random.randint 1 12 ;;
      let dividend := divisor * quotient in
      if (1 <=? dividend) && (dividend <=? max_dividend)
      then ret (Some (dividend, divisor, quotient))
      else retry n' divisor max_dividend
  end.

Definition fallback (divisor : Z) : Question :=
  let quotient := 1 in
  let dividend := divisor * quotient in
  (dividend, divisor, quotient).

Definition next_question (g : t) : M Question :=
  divisor <- random.choice (divisors g) ;;
  found <- retry 200 divisor (max_dividend g) ;;
  match found with
  | Some q => ret q
  | None => ret (fallback divisor)
  end.

End QuestionGenerator.

(** ** [pygame.time.set_timer(pygame.USEREVENT+1, ms)] *)

Definition set_timer (ms : Z) : M unit :=
  fun w => Ok (tt, {| tape := tape w; pos := pos w; timer := ms |}).

(** [lst.remove(m)]: drops the first element equal to [m]; [ValueError] when
    there is none. *)
Fixpoint list_remove (m : Meteor.t) (l : list Meteor.t) : M (list Meteor.t) :=
  match l with
  | [] => raise ValueError
  | a :: l' =>
      if decide (a = m) then ret l'
      else r <- list_remove m l' ;; ret (a :: r)
  end.

(** [enumerate(l)] *)
Definition enumerate {A} (l : list A) : list (Z * A) :=
  combine (map Z.of_nat (seq 0 (length l))) l.

(** ** The game *)

Module Tag.
Inductive action : Set := start | next | retry | menu.
Definition t : Type := (action * option Z)%type.
End Tag.

Module Game.

Inductive State : Set := menu | playing | level_clear.

#[global] Instance state_eq_dec : EqDecision State.
Proof. solve_decision. Defined.

Definition Button : Type := ((Z * Z * Z * Z) * Tag.t)%type.

Record t : Type := mk {
  state : State;
  difficulty : Z;
  qgen : QuestionGenerator.t;
  correct_count : Z;
  total_attempts : Z;
  current_question : option Question;
  meteors : list Meteor.t;
  ship_x : Z;
  ship_y : Z;
  beam : option (Z * Q);
  beam_speed : Z;
  spawn_timer : Z;
  question_in_progress : bool;
  particles : list ExplosionParticle.t;
  explosions : list ExplosionParticle.t;
  _buttons : option (list Button)
}.

(** Attribute assignments [self.f = v]. *)
Definition set_state v g := mk v (difficulty g) (qgen g) (correct_count g) (total_attempts g) (current_question g) (meteors g) (ship_x g) (ship_y g) (beam g) (beam_speed g) (spawn_timer g) (question_in_progress g) (particles g) (explosions g) (_buttons g).
Definition set_difficulty v g := mk (state g) v (qgen g) (correct_count g) (total_attempts g) (current_question g) (meteors g) (ship_x g) (ship_y g) (beam g) (beam_speed g) (spawn_timer g) (question_in_progress g) (particles g) (explosions g) (_buttons g).
Definition set_qgen v g := mk (state g) (difficulty g) v (correct_count g) (total_attempts g) (current_question g) (meteors g) (ship_x g) (ship_y g) (beam g) (beam_speed g) (spawn_timer g) (question_in_progress g) (particles g) (explosions g) (_buttons g).
Definition set_correct_count v g := mk (state g) (difficulty g) (qgen g) v (total_attempts g) (current_question g) (meteors g) (ship_x g) (ship_y g) (beam g) (beam_speed g) (spawn_timer g) (question_in_progress g) (particles g) (explosions g) (_buttons g).
Definition set_total_attempts v g := mk (state g) (difficulty g) (qgen g) (correct_count g) v (current_question g) (meteors g) (ship_x g) (ship_y g) (beam g) (beam_speed g) (spawn_timer g) (question_in_progress g) (particles g) (explosions g) (_buttons g).
Definition set_current_question v g := mk (state g) (difficulty g) (qgen g) (correct_count g) (total_attempts g) v (meteors g) (ship_x g) (ship_y g) (beam g) (beam_speed g) (spawn_timer g) (question_in_progress g) (particles g) (explosions g) (_buttons g).
Definition set_meteors v g := mk (state g) (difficulty g) (qgen g) (correct_count g) (total_attempts g) (current_question g) v (ship_x g) (ship_y g) (beam g) (beam_speed g) (spawn_timer g) (question_in_progress g) (particles g) (explosions g) (_buttons g).
Definition set_ship_x v g := mk (state g) (difficulty g) (qgen g) (correct_count g) (total_attempts g) (current_question g) (meteors g) v (ship_y g) (beam g) (beam_speed g) (spawn_timer g) (question_in_progress g) (particles g) (explosions g) (_buttons g).
Definition set_ship_y v g := mk (state g) (difficulty g) (qgen g) (correct_count g) (total_attempts g) (current_question g) (meteors g) (ship_x g) v (beam g) (beam_speed g) (spawn_timer g) (question_in_progress g) (particles g) (explosions g) (_buttons g).
Definition set_beam v g := mk (state g) (difficulty g) (qgen g) (correct_count g) (total_attempts g) (current_question g) (meteors g) (ship_x g) (ship_y g) v (beam_speed g) (spawn_timer g) (question_in_progress g) (particles g) (explosions g) (_buttons g).
Definition set_beam_speed v g := mk (state g) (difficulty g) (qgen g) (correct_count g) (total_attempts g) (current_question g) (meteors g) (ship_x g) (ship_y g) (beam g) v (spawn_timer g) (question_in_progress g) (particles g) (explosions g) (_buttons g).
Definition set_spawn_timer v g := mk (state g) (difficulty g) (qgen g) (correct_count g) (total_attempts g) (current_question g) (meteors g) (ship_x g) (ship_y g) (beam g) (beam_speed g) v (question_in_progress g) (particles g) (explosions g) (_buttons g).
Definition set_question_in_progress v g := mk (state g) (difficulty g) (qgen g) (correct_count g) (total_attempts g) (current_question g) (meteors g) (ship_x g) (ship_y g) (beam g) (beam_speed g) (spawn_timer g) v (particles g) (explosions g) (_buttons g).
Definition set_particles v g := mk (state g) (difficulty g) (qgen g) (correct_count g) (total_attempts g) (current_question g) (meteors g) (ship_x g) (ship_y g) (beam g) (beam_speed g) (spawn_timer g) (question_in_progress g) v (explosions g) (_buttons g).
Definition set_explosions v g := mk (state g) (difficulty g) (qgen g) (correct_count g) (total_attempts g) (current_question g) (meteors g) (ship_x g) (ship_y g) (beam g) (beam_speed g) (spawn_timer g) (question_in_progress g) (particles g) v (_buttons g).
Definition set_buttons v g := mk (state g) (difficulty g) (qgen g) (correct_count g) (total_attempts g) (current_question g) (meteors g) (ship_x g) (ship_y g) (beam g) (beam_speed g) (spawn_timer g) (question_in_progress g) (particles g) (explosions g) v.

(** The offsets of the distractors. *)
Definition offsets : list Z := [-3; -2; -1; 1; 2; 3; 4].

(** [while len(answers) < 4: ...], at most [fuel] iterations. *)
Fixpoint gen_answers (fuel : nat) (quotient : Z) (answers : list Z)
  : M (list Z) :=
  if (length answers <? 4)%nat then
    match fuel with
    | O => raise OutOfFuel
    | S fuel' =>
        off <- random.choice offsets ;;
        let candidate := quotient + off in
        candidate <- (if candidate <? 1
                      then random.randint 1 (Z.max 3 (quotient + 3))
                      else ret candidate) ;;
        if bool_decide (candidate ∈ answers)
        then gen_answers fuel' quotient answers
        else gen_answers fuel' quotient (answers ++ [candidate])
    end
  else ret answers.

Definition margin : Z := 70.
Definition lane_w : Q := (inject_Z (WIDTH - margin * 2) / 4)%Q.

(** Body of [for i, a in enumerate(answers)]. *)
Definition place_meteor (ia : Z * Z) (ms : list Meteor.t)
  : M (list Meteor.t) :=
  let '(i, a) := ia in
  u <- random.uniform (-20) 20 ;;
  let x := int_of_float
             (inject_Z margin + lane_w / 2 + inject_Z i * lane_w + u)%Q in
  y <- random.randint (-200) (-60) ;;
  speed <- random.uniform (inject_Z FALL_SPEED_MIN) (inject_Z FALL_SPEED_MAX) ;;
  ret (ms ++ [Meteor.init x (inject_Z y) a speed]).

Section game.
Context `{MathLib}.
(** Bound on the iterations of the [while] loop of [make_new_question]. *)
Variable fuel : nat.

Definition make_new_question (g : t) : M t :=
  q <- QuestionGenerator.next_question (qgen g) ;;
  let g := set_current_question (Some q) g in
  let '(dividend, divisor, quotient) := q in
  answers <- gen_answers fuel quotient [quotient] ;;
  answers <- random.shuffle answers ;;
  ms <- for_each (enumerate answers) place_meteor [] ;;
  ret (set_question_in_progress true (set_meteors ms g)).

Definition reset_play (g : t) : M t :=
  let g := set_correct_count 0 g in
  let g := set_total_attempts 0 g in
  let g := set_current_question None g in
  let g := set_meteors [] g in
  let g := set_ship_x (WIDTH / 2) g in
  let g := set_ship_y (HEIGHT - 80) g in
  let g := set_beam None g in
  let g := set_beam_speed 900 g in
  let g := set_spawn_timer 0 g in
  let g := set_question_in_progress false g in
  make_new_question g.

(** [Game()].  [blank] holds what [__init__] assigns before it calls
    [reset_play]; the attributes it has not assigned yet hold the values
    that [reset_play] or the end of [__init__] overwrites. *)
Definition blank : t :=
  {| state := menu; difficulty := 0;
     qgen := QuestionGenerator.init 0;
     correct_count := 0; total_attempts := 0;
     current_question := None; meteors := [];
     ship_x := 0; ship_y := 0; beam := None; beam_speed := 0;
     spawn_timer := 0; question_in_progress := false;
     particles := []; explosions := []; _buttons := None |}.

Definition init : M t :=
  g <- reset_play blank ;;
  ret (set_explosions [] (set_particles [] g)).

Definition fire_beam (g : t) : t :=
  let bx := ship_x g in
  let by_ := ship_y g - 34 in
  set_beam (Some (bx, inject_Z by_)) g.

Definition spawn_particle (meteor : Meteor.t) (g : t) : M t :=
  p <- ExplosionParticle.init (Meteor.x meteor, Meteor.y meteor) ;;
  ret (set_particles (particles g ++ [p]) g).

Definition on_meteor_hit (meteor : Meteor.t) (g : t) : M t :=
  match current_question g with
  | None => raise TypeError
  | Some (dividend, divisor, quotient) =>
      hit_value <- int_of_str (Meteor.text meteor) ;;
      let correct := hit_value =? quotient in
      let g := set_total_attempts (total_attempts g + 1) g in
      g <- (if correct
            then
              let g := set_correct_count (correct_count g + 1) g in
              repeat_m 30 (spawn_particle meteor) g
            else
              repeat_m 12 (spawn_particle meteor) g) ;;
      let g := set_meteors [] g in
      set_timer 450 ;;;
      ret g
  end.

(** [for m in list(self.meteors): if m.rect.colliderect(br): ...; break] *)
Fixpoint hit_scan (br : Rect.t) (snapshot : list Meteor.t) (g : t) : M t :=
  match snapshot with
  | [] => ret g
  | m :: rest =>
      if Rect.colliderect (Meteor.rect m) br
      then g <- on_meteor_hit m g ;; ret (set_beam None g)
      else hit_scan br rest g
  end.

Definition off_screen (m : Meteor.t) : bool :=
  Qlt_bool (inject_Z (HEIGHT + 60)) (Meteor.y m).

(** Body of the off-screen loop [for m in list(self.meteors)]. *)
Definition sweep_body (m : Meteor.t) (g : t) : M t :=
  if off_screen m then
    ms <- list_remove m (meteors g) ;;
    let g := set_meteors ms g in
    match ms with
    | [] =>
        let g := set_total_attempts (total_attempts g + 1) g in
        make_new_question g
    | _ => ret g
    end
  else ret g.

Definition alive (p : ExplosionParticle.t) : bool :=
  Qlt_bool (ExplosionParticle.age p) (ExplosionParticle.life p).

Definition update (dt : Q) (g : t) : M t :=
  let g := set_particles
             (List.filter alive
                (map (ExplosionParticle.update dt) (particles g))) g in
  match state g with
  | playing =>
      let g := match beam g with
               | Some (bx, by_) =>
                   set_beam
                     (Some (bx, (by_ - inject_Z (beam_speed g) * dt)%Q)) g
               | None => g
               end in
      let g := set_meteors (map (Meteor.update dt) (meteors g)) g in
      g <- match beam g with
           | Some (bx, by_) =>
               let br := Rect.mk (bx - 3) (int_of_float (by_ - 6)) 6 12 in
               g <- hit_scan br (meteors g) g ;;
               ret match beam g with
                   | Some (_, by_) =>
                       if Qlt_bool by_ (-40) then set_beam None g else g
                   | None => g
                   end
           | None => ret g
           end ;;
      g <- for_each (meteors g) sweep_body g ;;
      ret (if TARGET_CORRECT <=? correct_count g
           then set_state level_clear g else g)
  | _ => ret g
  end.

Definition menu_buttons : list Button :=
  map (fun i => ((WIDTH / 2 - 220 + i * 220, 320, 200, 48),
                 (Tag.start, Some i))) [0; 1; 2].

Definition level_clear_buttons : list Button :=
  [ ((WIDTH / 2 - 200, HEIGHT / 2 + 20, 160, 50), (Tag.next, None));
    ((WIDTH / 2 - 20, HEIGHT / 2 + 20, 160, 50), (Tag.retry, None));
    ((WIDTH / 2 + 160, HEIGHT / 2 + 20, 160, 50), (Tag.menu, None)) ].

Definition draw_buttons (g : t) : t :=
  let btns := match state g with
              | menu => menu_buttons
              | level_clear => level_clear_buttons
              | playing => []
              end in
  set_buttons (Some btns) g.

(** The only attribute that [draw] assigns is [_buttons]. *)
Definition draw (g : t) : t :=
  match state g with
  | menu => draw_buttons g
  | playing => g
  | level_clear => draw_buttons g
  end.

(** The names of the tiers that [draw_ui] indexes; only their number
    matters. *)
Definition diffs : list Z := [0; 1; 2].

(** What can fail in [draw_ui]: [diffs[self.difficulty]]. *)
Definition draw_ui (g : t) : M unit :=
  py_index diffs (difficulty g) ;;; ret tt.

(** [draw] as a step of the main loop, with what can make it fail by the
    values the game holds: in [playing] the particles are drawn one after
    the other and then [draw_ui] runs.  The other calls into pygame
    (fill, blit, render, the shapes with constant colours) get arguments
    of the types they take and are taken to succeed. *)
Definition draw_checked (g : t) : M t :=
  match state g with
  | playing =>
      for_each (particles g) (fun p _ => ExplosionParticle.draw_checked p) tt ;;;
      draw_ui g ;;;
      ret (draw g)
  | _ => ret (draw g)
  end.

Definition handle_mouse (pos : Z * Z) (g : t) : t :=
  let '(mx, my) := pos in
  match state g with
  | playing => set_ship_x (clamp mx 40 (WIDTH - 40)) g
  | _ => g
  end.

(** [for i in range(3): ...; return] of the menu branch. *)
Fixpoint menu_click (is_ : list Z) (pos : Z * Z) (g : t) : M t :=
  match is_ with
  | [] => ret g
  | i :: rest =>
      let r := Rect.mk (WIDTH / 2 - 220 + i * 220) 320 200 48 in
      if Rect.collidepoint r pos then
        let g := set_difficulty i g in
        let g := set_qgen (QuestionGenerator.set_difficulty i) g in
        g <- reset_play g ;;
        ret (set_state playing g)
      else menu_click rest pos g
  end.

(** [for rect, tag in self._buttons: ...; return] of the level-clear
    branch. *)
Fixpoint level_clear_click (btns : list Button) (pos : Z * Z) (g : t)
  : M t :=
  match btns with
  | [] => ret g
  | ((x, y, w, h), tag) :: rest =>
      let r := Rect.mk x y w h in
      if Rect.collidepoint r pos then
        match fst tag with
        | Tag.next =>
            let g := if difficulty g <? 2
                     then
                       let g := set_difficulty (difficulty g + 1) g in
                       set_qgen
                         (QuestionGenerator.set_difficulty (difficulty g)) g
                     else g in
            g <- reset_play g ;;
            ret (set_state playing g)
        | Tag.retry =>
            let g := set_qgen
                       (QuestionGenerator.set_difficulty (difficulty g)) g in
            g <- reset_play g ;;
            ret (set_state playing g)
        | Tag.menu => ret (set_state menu g)
        | Tag.start => ret g
        end
      else level_clear_click rest pos g
  end.

Definition handle_click (pos : Z * Z) (button : Z) (g : t) : M t :=
  match state g with
  | menu => menu_click [0; 1; 2] pos g
  | playing => ret (fire_beam g)
  | level_clear =>
      match _buttons g with
      | Some btns => level_clear_click btns pos g
      | None => ret g
      end
  end.

End game.

End Game.

(** ** The main loop *)

Inductive Event : Type :=
| QUIT
| MOUSEMOTION (pos : Z * Z)
| MOUSEBUTTONDOWN (pos : Z * Z) (button : Z)
| KEYDOWN (key : Z)
| USEREVENT_1
| OTHER.

Record Loop : Type := mkLoop {
  game : Game.t;
  running : bool
}.

Section main.
Context `{MathLib}.
Variable fuel : nat.

Definition handle_event (e : Event) (s : Loop) : M Loop :=
  match e with
  | QUIT => ret {| game := game s; running := false |}
  | MOUSEMOTION (mx, my) =>
      match Game.state (game s) with
      | Game.playing =>
          ret {| game := Game.set_ship_x (clamp mx 40 (WIDTH - 40)) (game s);
                 running := running s |}
      | _ => ret s
      end
  | MOUSEBUTTONDOWN pos button =>
      if button =? 1 then
        g <- Game.handle_click fuel pos button (game s) ;;
        ret {| game := g; running := running s |}
      else ret s
  | KEYDOWN key =>
      if key =? K_ESCAPE then
        match Game.state (game s) with
        | Game.playing =>
            ret {| game := Game.set_state Game.menu (game s);
                   running := running s |}
        | _ => ret {| game := game s; running := false |}
        end
      else ret s
  | USEREVENT_1 =>
      set_timer 0 ;;;
      g <- Game.make_new_question fuel (game s) ;;
      ret {| game := g; running := running s |}
  | OTHER => ret s
  end.

(** The rest of one iteration after the event loop: [game.update(dt)] and
    [game.draw(screen)]; [ms] is what [clock.tick(60)] returned. *)
Definition tick (ms : Z) (s : Loop) : M Loop :=
  let dt := (inject_Z ms / 1000)%Q in
  g <- Game.update fuel dt (game s) ;;
  let g := Game.draw g in
  ret {| game := g; running := running s |}.

(** One iteration of [while running]: [events] is what
    [pygame.event.get()] returned. *)
Definition frame (ms : Z) (events : list Event) (s : Loop) : M Loop :=
  s <- for_each events handle_event s ;;
  tick ms s.

(** The same two steps with the failures of [draw]. *)
Definition tick_checked (ms : Z) (s : Loop) : M Loop :=
  let dt := (inject_Z ms / 1000)%Q in
  g <- Game.update fuel dt (game s) ;;
  g <- Game.draw_checked g ;;
  ret {| game := g; running := running s |}.

Definition frame_checked (ms : Z) (events : list Event) (s : Loop) : M Loop :=
  s <- for_each events handle_event s ;;
  tick_checked ms s.

Definition start : M Loop :=
  g <- Game.init fuel ;;
  ret {| game := g; running := true |}.

(** The number that the main loop shows as "remaining" after drawing, when
    the game is [playing]. *)
Definition rem (s : Loop) : option Z :=
  match Game.state (game s) with
  | Game.playing => Some (TARGET_CORRECT - Game.correct_count (game s))
  | _ => None
  end.

End main.

(** * Vocabulary of the statements *)

(** A run never fails with anything but the exhaustion of the loop bound. *)
Definition safe {A} (m : M A) (w : World) (Q : A -> World -> Prop) : Prop :=
  match m w with
  | Ok (a, w') => Q a w'
  | Raise e => e = OutOfFuel
  end.

(** A run returns. *)
Definition returns {A} (m : M A) (w : World) (Q : A -> World -> Prop) : Prop :=
  exists a w', m w = Ok (a, w') /\ Q a w'.

(** The tier table as the specification words it: the closed interval of
    the divisors and the largest dividend. *)
Definition spec_divisor_lo (d : Z) : Z := if d =? 0 then 1 else if d =? 1 then 6 else 1.

Definition spec_divisor_hi (d : Z) : Z := if d =? 0 then 5 else if d =? 1 then 9 else 9.

Definition spec_max_dividend (d : Z) : Z := if d =? 0 then 20 else if d =? 1 then 60 else 81.

Definition valid_question (d : Z) (q : Question) : Prop :=
  let '(dividend, divisor, quotient) := q in
  dividend = divisor * quotient /\
  spec_divisor_lo d <= divisor <= spec_divisor_hi d /\
  dividend <= spec_max_dividend d.

Definition accepted (divisor max_dividend : Z) (q : Question) : Prop :=
  let '(dividend, divisor', quotient) := q in
  divisor' = divisor /\ dividend = divisor * quotient /\
  1 <= dividend <= max_dividend /\ 1 <= quotient <= 12.

(** The world after [k] more draws. *)
Definition advance (k : nat) (w : World) : World :=
  {| tape := tape w; pos := (pos w + k)%nat; timer := timer w |}.

(** The quotient that the [i]-th coming draw yields through [randint(1, 12)]. *)
Definition coming_quotient (w : World) (i : nat) : Z :=
  1 + tape w (pos w + i)%nat mod 12.

(** The acceptance test of the retry loop. *)
Definition accepts (divisor max_dividend quotient : Z) : bool :=
  (1 <=? divisor * quotient) && (divisor * quotient <=? max_dividend).

(** The fallback branch of [next_question] runs from world [w]. *)
Definition fallback_reached (g : QuestionGenerator.t) (w : World) : Prop :=
  exists divisor w1 w2,
    random.choice (QuestionGenerator.divisors g) w = Ok (divisor, w1) /\
    QuestionGenerator.retry 200 divisor (QuestionGenerator.max_dividend g) w1
      = Ok (None, w2).

(** A stream of draws on which every tier reaches the fallback. *)
Definition stubborn_world : World := {| tape := fun _ => 71; pos := 0; timer := 0 |}.

(** From [w] the generator draws its question, and the three draws after it
    pick the offsets +1, +2 and +3: the distractor loop then ends after
    three iterations. *)
Definition settles (gen : QuestionGenerator.t) (w : World) : Prop :=
  exists q w1,
    QuestionGenerator.next_question gen w = Ok (q, w1) /\
    tape w1 (pos w1) mod 7 = 3 /\
    tape w1 (S (pos w1)) mod 7 = 4 /\
    tape w1 (S (S (pos w1))) mod 7 = 5.

(** The answer value that a meteor carries. *)
Definition label (m : Meteor.t) : option Z := parse_int (Meteor.text m).

(** A meteor as [make_new_question] creates it for the answer [a]: above the
    screen, labelled [str a], not hit. *)
Definition placed (a : Z) (m : Meteor.t) : Prop :=
  Meteor.text m = str a /\
  Meteor.hit m = false /\
  exists y, -200 <= y <= -60 /\ Meteor.y m = inject_Z y.

(** [ms] is a batch of meteors for question [q]: it carries the labels
    [labels] in lane order, four of them, pairwise distinct, all at least 1,
    the quotient among them. *)
Definition batch_for (q : Question) (ms : list Meteor.t) (labels : list Z) : Prop :=
  Forall2 placed labels ms /\
  length labels = 4%nat /\
  NoDup labels /\
  (forall a, a ∈ labels -> 1 <= a) /\
  q.2 ∈ labels.

(** What [make_new_question] assigns. *)
Definition with_question (q : Question) (ms : list Meteor.t) (g : Game.t) : Game.t :=
  Game.set_question_in_progress true
    (Game.set_meteors ms (Game.set_current_question (Some q) g)).

(** The state after a hit, given the particles that were spawned. *)
Definition after_hit (correct : bool) (ps : list ExplosionParticle.t) (g : Game.t)
  : Game.t :=
  let g := Game.set_total_attempts (Game.total_attempts g + 1) g in
  let g := if correct
           then Game.set_correct_count (Game.correct_count g + 1) g
           else g in
  Game.set_meteors [] (Game.set_particles (Game.particles g ++ ps) g).

Definition on_screen (m : Meteor.t) : bool := negb (Game.off_screen m).

(** The first meteor of the snapshot that the beam rectangle overlaps. *)
Definition hit_target (br : Rect.t) (ms : list Meteor.t) : option Meteor.t :=
  List.find (fun m => Rect.colliderect (Meteor.rect m) br) ms.

Definition beam_rect (b : Z * Q) : Rect.t :=
  Rect.mk (b.1 - 3) (int_of_float (b.2 - 6)) 6 12.

(** The state once particles, beam and meteors have moved. *)
Definition moved (dt : Q) (g : Game.t) : Game.t :=
  let g := Game.set_particles
             (List.filter Game.alive
                (map (ExplosionParticle.update dt) (Game.particles g))) g in
  let g := match Game.beam g with
           | Some (bx, by_) =>
               Game.set_beam
                 (Some (bx, (by_ - inject_Z (Game.beam_speed g) * dt)%Q)) g
           | None => g
           end in
  Game.set_meteors (map (Meteor.update dt) (Game.meteors g)) g.

(** The meteor that the beam hits in this frame, if any. *)
Definition frame_hit (dt : Q) (g : Game.t) : option Meteor.t :=
  match Game.beam (moved dt g) with
  | Some b => hit_target (beam_rect b) (Game.meteors (moved dt g))
  | None => None
  end.

(** The beam is dropped once it has left the top of the screen. *)
Definition drop_spent_beam (g : Game.t) : Game.t :=
  match Game.beam g with
  | Some (_, by_) => if Qlt_bool by_ (-40) then Game.set_beam None g else g
  | None => g
  end.

(** The level-clear test that ends [update]. *)
Definition level_check (g : Game.t) : Game.t :=
  if TARGET_CORRECT <=? Game.correct_count g
  then Game.set_state Game.level_clear g else g.

(** Every meteor of the snapshot has left the bottom of the screen. *)
Definition all_fell (ms : list Meteor.t) : bool :=
  match List.filter on_screen ms, ms with
  | [], _ :: _ => true
  | _, _ => false
  end.

Definition labelled (m : Meteor.t) : Prop := is_Some (label m).

(** What every state between two operations of the main loop satisfies. *)
Definition coherent (g : Game.t) : Prop :=
  0 <= Game.difficulty g <= 2 /\
  Game.qgen g = QuestionGenerator.set_difficulty (Game.difficulty g) /\
  is_Some (Game.current_question g) /\
  Forall labelled (Game.meteors g) /\
  0 <= Game.correct_count g <= Game.total_attempts g /\
  (Game.state g = Game.playing -> Game.correct_count g < TARGET_CORRECT).

(** The buttons stored by the last [draw] are those of the level-clear
    screen whenever that screen is showing. *)
Definition buttons_drawn (g : Game.t) : Prop :=
  Game.state g = Game.level_clear ->
  Game._buttons g = Some Game.level_clear_buttons.

(** How the two counters may move in one operation that is not a reset. *)
Definition counters_step (g g' : Game.t) : Prop :=
  Game.correct_count g <= Game.correct_count g' <= Game.correct_count g + 1 /\
  Game.total_attempts g <= Game.total_attempts g' <= Game.total_attempts g + 1 /\
  Game.correct_count g' - Game.correct_count g
    <= Game.total_attempts g' - Game.total_attempts g.

(** The assignments of [reset_play] before it draws the new question. *)
Definition cleared (g : Game.t) : Game.t :=
  Game.set_question_in_progress false
    (Game.set_spawn_timer 0
       (Game.set_beam_speed 900
          (Game.set_beam None
             (Game.set_ship_y (HEIGHT - 80)
                (Game.set_ship_x (WIDTH / 2)
                   (Game.set_meteors []
                      (Game.set_current_question None
                         (Game.set_total_attempts 0
                            (Game.set_correct_count 0 g))))))))).

(** What an event handler may do to the invariant and the counters: keep
    both counters, or reset both to 0. *)
Definition event_outcome (g g' : Game.t) : Prop :=
  coherent g' /\
  Game._buttons g' = Game._buttons g /\
  (Game.state g' = Game.level_clear -> Game.state g = Game.level_clear) /\
  (Game.correct_count g' = Game.correct_count g /\
   Game.total_attempts g' = Game.total_attempts g \/
   Game.correct_count g' = 0 /\ Game.total_attempts g' = 0 /\
   Game.state g' = Game.playing).

Definition next_button_rect : Rect.t :=
  Rect.mk (WIDTH / 2 - 200) (HEIGHT / 2 + 20) 160 50.

Definition retry_button_rect : Rect.t :=
  Rect.mk (WIDTH / 2 - 20) (HEIGHT / 2 + 20) 160 50.

Definition menu_button_rect : Rect.t :=
  Rect.mk (WIDTH / 2 + 160) (HEIGHT / 2 + 20) 160 50.

(** The play state right after a reset at tier [d]. *)
Definition play_reset_to (d : Z) (g' : Game.t) : Prop :=
  Game.state g' = Game.playing /\
  Game.difficulty g' = d /\
  Game.qgen g' = QuestionGenerator.set_difficulty d /\
  Game.correct_count g' = 0 /\
  Game.total_attempts g' = 0 /\
  Game.beam g' = None /\
  exists q labels,
    Game.current_question g' = Some q /\
    valid_question d q /\
    batch_for q (Game.meteors g') labels.

(** The state after leaving for the menu. *)
Definition to_menu (s : Loop) : Loop :=
  {| game := Game.set_state Game.menu (game s); running := running s |}.

(** The rectangle that a click is tested against for a stored button:
    [x,y,w,h = rect; r = pygame.Rect(x,y,w,h)]. *)
Definition button_rect (b : Game.Button) : Rect.t :=
  let '((x, y, w, h), _) := b in Rect.mk x y w h.


(** ** Shape of the board *)

(** The two centres are at least 150 apart, left to right. *)
Definition apart (m1 m2 : Meteor.t) : Prop := Meteor.x m1 + 150 <= Meteor.x m2.

(** The lane of the [i]-th meteor of a batch. *)
Definition in_lane (i : Z) (m : Meteor.t) : Prop :=
  145 + 190 * i <= Meteor.x m <= 185 + 190 * i.

(** The rectangle is the box of the meteor image centred on the meteor. *)
Definition rect_synced (m : Meteor.t) : Prop :=
  Meteor.rect m
  = Rect.centered METEOR_SIZE METEOR_SIZE (Meteor.x m) (Meteor.y m).

(** An answer value next to the quotient. *)
Definition near (quotient a : Z) : Prop :=
  1 <= a /\ quotient - 3 <= a <= quotient + 4.

(** A meteor as the game keeps it while the question with this quotient is
    active. *)
Definition sound_meteor (quotient : Z) (m : Meteor.t) : Prop :=
  rect_synced m /\
  (inject_Z FALL_SPEED_MIN <= Meteor.speed m)%Q /\
  (Meteor.speed m <= inject_Z FALL_SPEED_MAX)%Q /\
  Meteor.hit m = false /\
  145 <= Meteor.x m <= 755 /\
  exists a, Meteor.text m = str a /\ near quotient a.

(** A meteor that [make_new_question] has just put in lane [i] for the
    answer [a]. *)
Definition lane_fresh (quotient : Z) (ia : Z * Z) (m : Meteor.t) : Prop :=
  in_lane ia.1 m /\
  Meteor.text m = str ia.2 /\
  (exists y, -200 <= y <= -60 /\ Meteor.y m = inject_Z y) /\
  rect_synced m /\
  (inject_Z FALL_SPEED_MIN <= Meteor.speed m)%Q /\
  (Meteor.speed m <= inject_Z FALL_SPEED_MAX)%Q /\
  Meteor.hit m = false.

(** A particle between its creation and its removal. *)
Definition lively (p : ExplosionParticle.t) : Prop :=
  (0 <= ExplosionParticle.age p)%Q /\
  (ExplosionParticle.age p < ExplosionParticle.life p)%Q /\
  (ExplosionParticle.life p <= 1)%Q /\
  (2 <= ExplosionParticle.size p)%Q /\
  (ExplosionParticle.size p <= 6)%Q.

(** A particle as [ExplosionParticle] creates it. *)
Definition newborn (p : ExplosionParticle.t) : Prop :=
  ExplosionParticle.age p = 0%Q /\
  (1 # 2 <= ExplosionParticle.life p)%Q /\
  (ExplosionParticle.life p <= 1)%Q /\
  (2 <= ExplosionParticle.size p)%Q /\
  (ExplosionParticle.size p <= 6)%Q.

(** The active question belongs to tier [d] and the meteors to it. *)
Definition question_sound (d : Z) (question : option Question)
    (ms : list Meteor.t) : Prop :=
  exists q,
    question = Some q /\
    q.1.1 = q.1.2 * q.2 /\
    q.1.2 ∈ QuestionGenerator.divisors (QuestionGenerator.set_difficulty d) /\
    1 <= q.1.1 <= QuestionGenerator.max_dividend
                    (QuestionGenerator.set_difficulty d) /\
    1 <= q.2 <= 12 /\
    Forall (sound_meteor q.2) ms.

(** What the ship, the beam, the meteors, the question, the particles and
    the timer satisfy in every state of the main loop. *)
Definition tidy_of (ship_x ship_y beam_speed : Z) (beam : option (Z * Q))
    (ms : list Meteor.t) (question : option Question) (d : Z)
    (ps : list ExplosionParticle.t) (tm : Z) : Prop :=
  40 <= ship_x <= WIDTH - 40 /\
  ship_y = HEIGHT - 80 /\
  beam_speed = 900 /\
  (forall bx by_, beam = Some (bx, by_) ->
     40 <= bx <= WIDTH - 40 /\ (-40 <= by_)%Q /\ (by_ <= 536)%Q) /\
  (ms = [] /\ tm = 450 \/ (1 <= length ms <= 4)%nat) /\
  StronglySorted apart ms /\
  question_sound d question ms /\
  Forall lively ps.

Definition tidy (g : Game.t) (w : World) : Prop :=
  tidy_of (Game.ship_x g) (Game.ship_y g) (Game.beam_speed g) (Game.beam g)
    (Game.meteors g) (Game.current_question g) (Game.difficulty g)
    (Game.particles g) (timer w).

(** ** Reachable states and runs of the main loop *)

Definition Frame : Type := (Z * list Event)%type.

Section reachability.
Context `{MathLib}.
Variable fuel : nat.

(** The states in which the main loop can be while it handles events: the
    state after [Game()], after any handled event, and after the
    [update]/[draw] pair that ends an iteration. *)
Inductive reachable : Loop -> World -> Prop :=
| reach_start w0 s w :
    start fuel w0 = Ok (s, w) -> reachable s w
| reach_event s w e s' w' :
    reachable s w -> handle_event fuel e s w = Ok (s', w') -> reachable s' w'
| reach_tick s w ms s' w' :
    reachable s w -> 0 <= ms -> tick fuel ms s w = Ok (s', w') -> reachable s' w'.

(** The main loop run over the given frames: what [clock.tick] and
    [pygame.event.get] returned in each iteration. *)
Definition run_frames (frames : list Frame) (s : Loop) : M Loop :=
  for_each frames (fun f s => frame fuel f.1 f.2 s) s.

Definition run (frames : list Frame) : M Loop :=
  s <- start fuel ;; run_frames frames s.

(** The main loop with the failures of [draw]. *)
Definition run_frames_checked (frames : list Frame) (s : Loop) : M Loop :=
  for_each frames (fun f s => frame_checked fuel f.1 f.2 s) s.

Definition run_checked (frames : list Frame) : M Loop :=
  s <- start fuel ;; run_frames_checked frames s.

End reachability.

(** ** Concrete runs *)

(** A rational stand-in for [math], used only to run the model; every
    theorem below holds for all instances. *)
Definition rational_math : MathLib :=
  {| tau := 710 # 113; cos := fun x => (1 - x * x / 2)%Q; sin := fun x => x |}.

Definition demo_tape (n : nat) : Z := Z.of_nat n * 5 + 3.

Definition world_at (p : nat) (t : Z) : World :=
  {| tape := demo_tape; pos := p; timer := t |}.

Definition demo_run (frames : list Frame) : result (Loop * World) :=
  @run rational_math 10 frames (world_at 0 0).

Definition blank_loop : Loop := {| game := Game.blank; running := false |}.

Definition loop_of (r : result (Loop * World)) : Loop :=
  match r with Ok (s, _) => s | Raise _ => blank_loop end.

(** Tier 0 is chosen in the menu. *)
Definition frames_playing : list Frame :=
  [(16, [MOUSEBUTTONDOWN (300, 340) 1])].

(** The meteors fall for four seconds, then the ship moves under the first
    lane and fires. *)
Definition frames_beam : list Frame :=
  frames_playing ++
  [(4000, []); (400, [MOUSEMOTION (145, 0); MOUSEBUTTONDOWN (0, 0) 1])].

(** A tenth of a second later the beam hits the meteor of the first lane,
    which carries the quotient. *)
Definition frames_hit : list Frame := frames_beam ++ [(100, [])].

(** Escape right after the hit. *)
Definition frames_escape : list Frame :=
  frames_hit ++ [(16, [KEYDOWN K_ESCAPE])].

Definition s_playing : Loop := Eval vm_compute in loop_of (demo_run frames_playing).

Definition s_beam : Loop := Eval vm_compute in loop_of (demo_run frames_beam).

Definition s_hit : Loop := Eval vm_compute in loop_of (demo_run frames_hit).

Definition s_escape : Loop := Eval vm_compute in loop_of (demo_run frames_escape).

(** The meteor of the first lane in [s_beam]. *)
Definition m_first : Meteor.t :=
  Eval vm_compute in List.hd (Meteor.init 0 0 0 0) (Game.meteors (game s_beam)).

(** The first particle of the explosion in [s_hit]. *)
Definition p_first : ExplosionParticle.t :=
  Eval vm_compute in
    List.hd (ExplosionParticle.mk 0 0 0 0 0 0 0) (Game.particles (game s_hit)).

(** Twenty winning rounds.  In each round the meteors fall for three
    seconds, the ship moves under the meteor that carries the quotient
    (its lane centre is the second component) and fires, and the frame
    lasts long enough (the first component, in ms) for the beam to reach
    it; the timer event of the hit then brings the next question. *)
Definition shots : list (Z * Z) :=
  [(550, 145); (500, 335); (500, 145); (500, 335); (450, 525);
   (450, 715); (450, 335); (500, 145); (450, 525); (450, 525);
   (450, 715); (450, 145); (450, 145); (450, 145); (550, 335);
   (450, 145); (550, 335); (550, 525); (500, 715); (550, 335)].

Definition round_frames (shot : Z * Z) : list Frame :=
  [(3000, []);
   (shot.1, [MOUSEMOTION (shot.2, 0); MOUSEBUTTONDOWN (0, 0) 1]);
   (16, [USEREVENT_1])].

(** The run up to the frame of the twentieth hit. *)
Definition frames_clear : list Frame :=
  frames_playing ++ removelast (flat_map round_frames shots).

Definition s_clear : Loop := Eval vm_compute in loop_of (demo_run frames_clear).

(** The run up to the last frame of [frames_clear]: nineteen correct hits,
    and the meteors of the twentieth question have fallen for three
    seconds. *)
Definition frames_aim : list Frame :=
  frames_playing ++ removelast (removelast (flat_map round_frames shots)).

Definition s_aim : Loop := Eval vm_compute in loop_of (demo_run frames_aim).

(** The events of the last frame of [frames_clear]: the ship moves under
    the meteor that carries the quotient and fires. *)
Definition s_aimed : Loop :=
  {| game := Game.set_ship_x (clamp 335 40 (WIDTH - 40)) (game s_aim);
     running := running s_aim |}.

Definition s_shot : Loop :=
  {| game := Game.fire_beam (game s_aimed); running := running s_aimed |}.

(** A stream of draws on which every tier [settles]. *)
Definition lucky_world : World :=
  {| tape := fun n => Z.of_nat n + 1; pos := 0; timer := 0 |}.

(** * Verification *)

(** ** Reasoning about monadic code *)

Lemma bind_Ok {A B} (m : M A) (k : A -> M B) w b w' :
  bind m k w = Ok (b, w') ->
  exists a w1, m w = Ok (a, w1) /\ k a w1 = Ok (b, w').
Proof.
  unfold bind. destruct (m w) as [[a w1]|e]; [|discriminate].
  intros Hk. exists a, w1. split; [reflexivity|exact Hk].
Qed.

Lemma bind_Raise {A B} (m : M A) (k : A -> M B) w e :
  bind m k w = Raise e ->
  m w = Raise e \/ exists a w1, m w = Ok (a, w1) /\ k a w1 = Raise e.
Proof.
  unfold bind. destruct (m w) as [[a w1]|e']; [|left; congruence].
  intros Hk. right. exists a, w1. split; [reflexivity|exact Hk].
Qed.

Lemma bind_step {A B} (m : M A) (k : A -> M B) w a w1 :
  m w = Ok (a, w1) -> bind m k w = k a w1.
Proof. unfold bind. intros ->. reflexivity. Qed.

Lemma ret_Ok {A} (a b : A) w w' : ret a w = Ok (b, w') -> b = a /\ w' = w.
Proof. unfold ret. intros [= <- <-]. split; reflexivity. Qed.

(** Splits a hypothesis [bind m k w = Ok _] into its two runs. *)
Ltac inv_bind H :=
  let a := fresh "a" in
  let w := fresh "w" in
  let H1 := fresh H "_m" in
  apply bind_Ok in H; destruct H as (a & w & H1 & H).

Ltac inv_ret H :=
  apply ret_Ok in H; destruct H as [? ?]; subst.

Lemma returns_safe {A} (m : M A) w Q : returns m w Q -> safe m w Q.
Proof. intros (a & w' & E & HQ). unfold safe. rewrite E. exact HQ. Qed.

Lemma safe_bind {A B} (m : M A) (k : A -> M B) w (P : A -> World -> Prop) Q :
  safe m w P ->
  (forall a w1, P a w1 -> safe (k a) w1 Q) ->
  safe (bind m k) w Q.
Proof.
  unfold safe, bind. destruct (m w) as [[a w1]|e]; [|auto].
  intros HP Hk. apply (Hk a w1 HP).
Qed.

Lemma returns_bind {A B} (m : M A) (k : A -> M B) w (P : A -> World -> Prop) Q :
  returns m w P ->
  (forall a w1, P a w1 -> returns (k a) w1 Q) ->
  returns (bind m k) w Q.
Proof.
  intros (a & w1 & E & HP) Hk. unfold returns.
  rewrite (bind_step _ _ _ _ _ E). apply (Hk a w1 HP).
Qed.

Lemma safe_returns {A} (m : M A) w Q :
  safe m w Q -> (exists a w', m w = Ok (a, w')) -> returns m w Q.
Proof.
  unfold safe. intros Hs (a & w' & E). rewrite E in Hs. by exists a, w'.
Qed.

Lemma safe_ret {A} (a : A) w (Q : A -> World -> Prop) : Q a w -> safe (ret a) w Q.
Proof. intros HQ. exact HQ. Qed.

Lemma returns_ret {A} (a : A) w (Q : A -> World -> Prop) :
  Q a w -> returns (ret a) w Q.
Proof. intros HQ. exists a, w. split; [reflexivity|exact HQ]. Qed.

Lemma safe_weaken {A} (m : M A) w (P Q : A -> World -> Prop) :
  safe m w P -> (forall a w', P a w' -> Q a w') -> safe m w Q.
Proof.
  unfold safe. destruct (m w) as [[a w']|e]; [|auto]. intros HP HPQ. auto.
Qed.

Lemma returns_weaken {A} (m : M A) w (P Q : A -> World -> Prop) :
  returns m w P -> (forall a w', P a w' -> Q a w') -> returns m w Q.
Proof. intros (a & w' & E & HP) HPQ. exists a, w'. auto. Qed.

(** ** The [random] module *)

Lemma randbelow_returns n w :
  0 < n ->
  returns (random.randbelow n) w
    (fun k w' => 0 <= k < n /\ timer w' = timer w /\ tape w' = tape w /\
                 pos w' = S (pos w)).
Proof.
  intros Hn. eexists _, _. split; [reflexivity|]. cbn.
  split; [apply Z.mod_pos_bound; exact Hn|]. auto.
Qed.

Lemma randint_returns a b w :
  a <= b ->
  returns (random.randint a b) w
    (fun k w' => a <= k <= b /\ timer w' = timer w).
Proof.
  intros Hab. unfold random.randint.
  destruct (Z.ltb_spec b a) as [Hlt|_]; [lia|].
  eapply returns_bind; [apply randbelow_returns; lia|].
  cbn beta. intros k w1 (Hk & Ht & _). apply returns_ret. split; [lia|exact Ht].
Qed.

Lemma choice_returns {A} (seq : list A) w :
  seq <> [] ->
  returns (random.choice seq) w (fun a w' => a ∈ seq /\ timer w' = timer w).
Proof.
  intros Hne. unfold random.choice.
  destruct seq as [|a0 seq0] eqn:Eseq; [congruence|]. rewrite <- Eseq.
  assert (Hlen : 0 < Z.of_nat (length seq)) by (subst seq; cbn; lia).
  eapply returns_bind; [apply randbelow_returns; exact Hlen|].
  cbn beta. intros i w1 (Hi & Ht & _).
  destruct (seq !! Z.to_nat i) as [a|] eqn:El.
  - apply returns_ret. split; [|exact Ht].
    apply list_elem_of_lookup. exists (Z.to_nat i). exact El.
  - apply lookup_ge_None in El. lia.
Qed.

Lemma random_returns w :
  returns random.random w (fun _ w' => timer w' = timer w).
Proof.
  unfold random.random.
  eapply returns_bind; [apply randbelow_returns; reflexivity|].
  cbn beta. intros k w1 (_ & Ht & _). apply returns_ret. exact Ht.
Qed.

Lemma uniform_returns a b w :
  returns (random.uniform a b) w (fun _ w' => timer w' = timer w).
Proof.
  unfold random.uniform.
  eapply returns_bind; [apply random_returns|].
  cbn beta. intros u w1 Ht. apply returns_ret. exact Ht.
Qed.

(** ** Question generator *)

Lemma elem_of_range a b x :
  x ∈ QuestionGenerator.range a b <-> a <= x < b.
Proof.
  unfold QuestionGenerator.range. rewrite list_elem_of_fmap. split.
  - intros (i & -> & Hi). apply elem_of_seq in Hi. lia.
  - intros Hx. exists (Z.to_nat (x - a)). split; [lia|].
    apply elem_of_seq. lia.
Qed.

Lemma set_difficulty_table d :
  0 <= d <= 2 ->
  QuestionGenerator.max_dividend (QuestionGenerator.set_difficulty d)
    = spec_max_dividend d /\
  forall x, x ∈ QuestionGenerator.divisors (QuestionGenerator.set_difficulty d)
            <-> spec_divisor_lo d <= x <= spec_divisor_hi d.
Proof.
  intros Hd.
  assert (d = 0 \/ d = 1 \/ d = 2) as [-> | [-> | ->]] by lia;
    (split; [reflexivity|]); intros x; cbn -[QuestionGenerator.range];
    rewrite elem_of_range; unfold spec_divisor_lo, spec_divisor_hi; cbn; lia.
Qed.

(** Whatever the tier, the divisors lie in 1..9 and are at most the bound. *)
Lemma set_difficulty_divisors d x :
  x ∈ QuestionGenerator.divisors (QuestionGenerator.set_difficulty d) ->
  1 <= x <= 9 /\
  x <= QuestionGenerator.max_dividend (QuestionGenerator.set_difficulty d).
Proof.
  unfold QuestionGenerator.set_difficulty.
  destruct (d =? 0); [|destruct (d =? 1)];
    cbn -[QuestionGenerator.range]; rewrite elem_of_range; lia.
Qed.

Lemma set_difficulty_nonempty d :
  QuestionGenerator.divisors (QuestionGenerator.set_difficulty d) <> [].
Proof.
  unfold QuestionGenerator.set_difficulty.
  destruct (d =? 0); [|destruct (d =? 1)]; discriminate.
Qed.

Lemma retry_returns n divisor mx w :
  returns (QuestionGenerator.retry n divisor mx) w
    (fun r w' => timer w' = timer w /\
                 match r with
                 | Some q => accepted divisor mx q
                 | None => True
                 end).
Proof.
  revert w. induction n as [|n IH]; intros w; cbn [QuestionGenerator.retry].
  - apply returns_ret. auto.
  - eapply returns_bind; [apply randint_returns; lia|].
    cbn beta. intros q w1 (Hq & Ht).
    destruct ((1 <=? divisor * q) && (divisor * q <=? mx)) eqn:Hacc.
    + apply andb_true_iff in Hacc as [H1 H2].
      apply Z.leb_le in H1. apply Z.leb_le in H2.
      apply returns_ret. split; [exact Ht|]. cbn. lia.
    + eapply returns_weaken; [apply IH|].
      cbn beta. intros r w2 (Ht2 & Hr). split; [congruence|exact Hr].
Qed.

Lemma next_question_returns d w :
  returns (QuestionGenerator.next_question (QuestionGenerator.set_difficulty d)) w
    (fun q w' =>
       timer w' = timer w /\
       let '(dividend, divisor, quotient) := q in
       dividend = divisor * quotient /\
       divisor ∈ QuestionGenerator.divisors (QuestionGenerator.set_difficulty d) /\
       1 <= dividend
         <= QuestionGenerator.max_dividend (QuestionGenerator.set_difficulty d) /\
       1 <= quotient <= 12).
Proof.
  unfold QuestionGenerator.next_question.
  eapply returns_bind; [apply choice_returns, set_difficulty_nonempty|].
  cbn beta. intros divisor w1 (Hin & Ht1).
  eapply returns_bind; [apply retry_returns|].
  cbn beta. intros r w2 (Ht2 & Hr).
  destruct r as [[[dv ds] q]|].
  - apply returns_ret. split; [congruence|].
    destruct Hr as (-> & -> & Hb & Hq). auto.
  - apply returns_ret. split; [congruence|]. cbn.
    apply set_difficulty_divisors in Hin as Hb. repeat split; try lia. exact Hin.
Qed.

(** C1. For each tier 0, 1, 2 and every stream of random draws,
    [next_question] returns a triple with dividend = divisor * quotient, the
    divisor in the tier's interval ([1,5], [6,9], [1,9]) and the dividend at
    most the tier's bound (20, 60, 81); and the triple of the quotient = 1
    fallback path satisfies the same for every divisor of the tier. *)
Theorem next_question_valid (d : Z) (w : World) :
  0 <= d <= 2 ->
  returns (QuestionGenerator.next_question (QuestionGenerator.init d)) w
    (fun q _ => valid_question d q) /\
  (forall divisor,
     divisor ∈ QuestionGenerator.divisors (QuestionGenerator.init d) ->
     valid_question d (QuestionGenerator.fallback divisor)).
Proof.
  intros Hd. unfold QuestionGenerator.init.
  destruct (set_difficulty_table d Hd) as [Hmax Hdiv]. split.
  - eapply returns_weaken; [apply next_question_returns|].
    cbn beta. intros [[dv ds] q] w' (_ & -> & Hin & Hb & _).
    cbn. apply Hdiv in Hin. rewrite Hmax in Hb. lia.
  - intros ds Hin. cbn. apply Hdiv in Hin.
    unfold spec_divisor_lo, spec_divisor_hi, spec_max_dividend in *.
    assert (d = 0 \/ d = 1 \/ d = 2) as [-> | [-> | ->]] by lia; cbn in *; lia.
Qed.

(** *** When the fallback branch runs *)

Lemma advance_0 w : advance 0 w = w.
Proof. destruct w as [t p tm]. unfold advance. cbn. f_equal. lia. Qed.

Lemma advance_S k w :
  advance (S k) w = advance k {| tape := tape w; pos := S (pos w); timer := timer w |}.
Proof. unfold advance. cbn. f_equal. lia. Qed.

Lemma randint_1_12 w :
  random.randint 1 12 w
  = Ok (coming_quotient w 0,
        {| tape := tape w; pos := S (pos w); timer := timer w |}).
Proof.
  unfold random.randint, random.randbelow, bind, ret, coming_quotient. cbn.
  rewrite Nat.add_0_r. reflexivity.
Qed.

Lemma coming_quotient_S w i :
  coming_quotient {| tape := tape w; pos := S (pos w); timer := timer w |} i
  = coming_quotient w (S i).
Proof. unfold coming_quotient. cbn. do 2 f_equal. f_equal. lia. Qed.

Lemma retry_unfold n divisor mx w :
  QuestionGenerator.retry (S n) divisor mx w
  = if accepts divisor mx (coming_quotient w 0)
    then Ok (Some (divisor * coming_quotient w 0, divisor, coming_quotient w 0),
             advance 1 w)
    else QuestionGenerator.retry n divisor mx
           {| tape := tape w; pos := S (pos w); timer := timer w |}.
Proof.
  cbn [QuestionGenerator.retry].
  rewrite (bind_step _ _ _ _ _ (randint_1_12 w)).
  unfold accepts. destruct (_ && _); [|reflexivity].
  unfold ret. rewrite advance_S, advance_0. reflexivity.
Qed.

Lemma retry_all_rejected n divisor mx w :
  (forall i, (i < n)%nat -> accepts divisor mx (coming_quotient w i) = false) ->
  QuestionGenerator.retry n divisor mx w = Ok (None, advance n w).
Proof.
  revert w. induction n as [|n IH]; intros w Hrej.
  - cbn. unfold ret. rewrite advance_0. reflexivity.
  - rewrite retry_unfold, (Hrej 0%nat) by lia.
    rewrite IH, <- advance_S; [reflexivity|].
    intros i Hi. rewrite coming_quotient_S. apply Hrej. lia.
Qed.

Lemma retry_None n divisor mx w w' :
  QuestionGenerator.retry n divisor mx w = Ok (None, w') ->
  forall i, (i < n)%nat -> accepts divisor mx (coming_quotient w i) = false.
Proof.
  revert w. induction n as [|n IH]; intros w Hr i Hi; [lia|].
  rewrite retry_unfold in Hr.
  destruct (accepts divisor mx (coming_quotient w 0)) eqn:E0; [discriminate|].
  destruct i as [|i]; [exact E0|].
  rewrite <- coming_quotient_S. apply (IH _ Hr). lia.
Qed.

Lemma retry_first_accepted n divisor mx w i :
  (i < n)%nat ->
  accepts divisor mx (coming_quotient w i) = true ->
  (forall j, (j < i)%nat -> accepts divisor mx (coming_quotient w j) = false) ->
  QuestionGenerator.retry n divisor mx w
  = Ok (Some (divisor * coming_quotient w i, divisor, coming_quotient w i),
        advance (S i) w).
Proof.
  revert w i. induction n as [|n IH]; intros w i Hi Hacc Hrej; [lia|].
  rewrite retry_unfold. destruct i as [|i].
  - rewrite Hacc. reflexivity.
  - rewrite (Hrej 0%nat) by lia.
    rewrite (IH _ i); [|lia| |].
    + rewrite !coming_quotient_S, <- advance_S. reflexivity.
    + rewrite coming_quotient_S. exact Hacc.
    + intros j Hj. rewrite coming_quotient_S. apply Hrej. lia.
Qed.

Lemma stubborn_fallback d :
  0 <= d <= 2 -> fallback_reached (QuestionGenerator.init d) stubborn_world.
Proof.
  intros Hd. unfold fallback_reached.
  assert (d = 0 \/ d = 1 \/ d = 2) as [-> | [-> | ->]] by lia;
    eexists _, _, _; (split; [reflexivity|]);
    apply retry_all_rejected; intros i _; reflexivity.
Qed.

(** C8 (as amended). In every tier the quotient = 1 fallback is reachable:
    after the divisor is chosen, the fallback branch runs exactly when each
    of the 200 sampled quotients is rejected by the bound test, and there are
    streams of draws for which that happens.  When some draw among the 200
    passes the test, the first such draw is returned.  The bound itself is
    always satisfiable: quotient 1 passes the test for every divisor of the
    tier. *)
Theorem fallback_iff_all_rejected (d : Z) (w w1 : World) (divisor : Z) :
  0 <= d <= 2 ->
  random.choice (QuestionGenerator.divisors (QuestionGenerator.init d)) w
    = Ok (divisor, w1) ->
  let mx := QuestionGenerator.max_dividend (QuestionGenerator.init d) in
  accepts divisor mx 1 = true /\
  ((exists w2, QuestionGenerator.retry 200 divisor mx w1 = Ok (None, w2)) <->
   (forall i, (i < 200)%nat -> accepts divisor mx (coming_quotient w1 i) = false)) /\
  (forall i, (i < 200)%nat ->
     accepts divisor mx (coming_quotient w1 i) = true ->
     (forall j, (j < i)%nat -> accepts divisor mx (coming_quotient w1 j) = false) ->
     QuestionGenerator.retry 200 divisor mx w1
     = Ok (Some (divisor * coming_quotient w1 i, divisor, coming_quotient w1 i),
           advance (S i) w1)) /\
  fallback_reached (QuestionGenerator.init d) stubborn_world.
Proof.
  intros Hd Hch mx. repeat split.
  - destruct (choice_returns
                (QuestionGenerator.divisors (QuestionGenerator.init d)) w
                (set_difficulty_nonempty d)) as (a & w' & E & Hin & _).
    unfold QuestionGenerator.init in *.
    rewrite Hch in E. injection E as <- <-.
    apply set_difficulty_divisors in Hin. unfold accepts, mx.
    apply andb_true_iff. split; apply Z.leb_le; lia.
  - intros [w2 Hr]. exact (retry_None _ _ _ _ _ Hr).
  - intros Hrej. eexists. apply retry_all_rejected. exact Hrej.
  - intros i Hi Hacc Hrej. apply retry_first_accepted; assumption.
  - apply stubborn_fallback. exact Hd.
Qed.

(** C8 as stated fails: in tier 1, when every draw is 11 the divisor is 9
    and each of the 200 quotients is 12, so 108 > 60 is rejected 200 times
    and [next_question] returns the fallback triple (9, 9, 1). *)
Lemma fallback_not_dead :
  let w := {| tape := fun _ => 11; pos := 0; timer := 0 |} in
  fallback_reached (QuestionGenerator.init 1) w /\
  QuestionGenerator.next_question (QuestionGenerator.init 1) w
  = Ok ((9, 9, 1), advance 201 w) /\
  ~ (forall d w', 0 <= d <= 2 -> ~ fallback_reached (QuestionGenerator.init d) w').
Proof.
  intros w.
  assert (Hf : fallback_reached (QuestionGenerator.init 1) w).
  { eexists _, _, _. split; [reflexivity|].
    apply retry_all_rejected. intros i _. reflexivity. }
  split; [exact Hf|]. split.
  - vm_compute. reflexivity.
  - intros Hdead. apply (Hdead 1 w); [lia|exact Hf].
Qed.

(** ** Labels: [int(str(n)) = n] *)

Lemma parse_int_str n : parse_int (str n) = Some n.
Proof.
  unfold parse_int, str. rewrite NilZero.isi.
  - cbn. f_equal. apply DecimalZ.of_to.
  - destruct n as [|p|p]; cbn; try discriminate.
    intros [= E]. exact (DecimalPos.Unsigned.to_uint_nonnil p E).
  - destruct n as [|p|p]; cbn; try discriminate.
    intros [= E]. exact (DecimalPos.Unsigned.to_uint_nonnil p E).
Qed.

Lemma int_of_str_str n w : int_of_str (str n) w = Ok (n, w).
Proof. unfold int_of_str. rewrite parse_int_str. reflexivity. Qed.

(** ** The distractor loop *)

Lemma gen_answers_safe fuel quotient answers w :
  (length answers <= 4)%nat ->
  NoDup answers ->
  (forall a, a ∈ answers -> 1 <= a) ->
  safe (Game.gen_answers fuel quotient answers) w
    (fun r w' => timer w' = timer w /\ length r = 4%nat /\ NoDup r /\
                 (forall a, a ∈ r -> 1 <= a) /\
                 exists extra, r = answers ++ extra).
Proof.
  revert answers w. induction fuel as [|fuel IH]; intros answers w Hlen Hnd Hpos;
    cbn [Game.gen_answers]; destruct (Nat.ltb_spec (length answers) 4) as [Hlt|Hge].
  - reflexivity.
  - apply safe_ret. repeat split; auto; [lia|]. exists []. by rewrite app_nil_r.
  - eapply safe_bind.
    { apply returns_safe, choice_returns. discriminate. }
    cbn beta. intros off w1 (_ & Ht1).
    eapply safe_bind with (P := fun c w2 => 1 <= c /\ timer w2 = timer w).
    { destruct (Z.ltb_spec (quotient + off) 1) as [Hc|Hc].
      - apply returns_safe. eapply returns_weaken; [apply randint_returns; lia|].
        cbn beta. intros k w2 (Hk & Ht2). split; [lia|congruence].
      - apply safe_ret. split; [lia|exact Ht1]. }
    cbn beta. intros c w2 (Hc & Ht2).
    destruct (bool_decide_reflect (c ∈ answers)) as [Hin|Hnin].
    + eapply safe_weaken; [apply IH; assumption|].
      cbn beta. intros r w3 (Ht3 & Hr). split; [congruence|exact Hr].
    + eapply safe_weaken; [apply IH|].
      * rewrite length_app. cbn. lia.
      * apply NoDup_app. repeat split; [exact Hnd| |apply NoDup_singleton].
        intros a Ha Ha'. apply list_elem_of_singleton in Ha'. subst a. contradiction.
      * intros a Ha. apply elem_of_app in Ha as [Ha|Ha]; [auto|].
        apply list_elem_of_singleton in Ha. subst a. exact Hc.
      * cbn beta. intros r w3 (Ht3 & Hl & Hnd' & Hpos' & extra & ->).
        repeat split; try assumption; [congruence|].
        exists ([c] ++ extra). by rewrite app_assoc.
  - apply safe_ret. repeat split; auto; [lia|]. exists []. by rewrite app_nil_r.
Qed.

(** More fuel never changes a result that was reached. *)
Lemma gen_answers_fuel_mono fuel fuel' quotient answers w r w' :
  (fuel <= fuel')%nat ->
  Game.gen_answers fuel quotient answers w = Ok (r, w') ->
  Game.gen_answers fuel' quotient answers w = Ok (r, w').
Proof.
  revert fuel' answers w. induction fuel as [|fuel IH]; intros fuel' answers w Hle;
    cbn [Game.gen_answers].
  - destruct fuel'; cbn [Game.gen_answers];
      destruct (length answers <? 4)%nat; try discriminate; auto.
  - destruct fuel' as [|fuel']; [lia|]. cbn [Game.gen_answers].
    destruct (length answers <? 4)%nat; [|auto].
    unfold bind. destruct (random.choice Game.offsets w) as [[off w1]|]; [|auto].
    destruct (if quotient + off <? 1 then _ else _) as [[c w2]|]; [|auto].
    destruct (bool_decide (c ∈ answers)); apply IH; lia.
Qed.

(** One iteration that appends a fresh, unclamped candidate. *)
Lemma gen_answers_append fuel quotient answers w i off :
  (length answers < 4)%nat ->
  tape w (pos w) mod 7 = Z.of_nat i ->
  Game.offsets !! i = Some off ->
  1 <= quotient + off ->
  quotient + off ∉ answers ->
  Game.gen_answers (S fuel) quotient answers w
  = Game.gen_answers fuel quotient (answers ++ [quotient + off]) (advance 1 w).
Proof.
  intros Hlen Hdraw Hoff Hge Hfresh. cbn [Game.gen_answers].
  destruct (Nat.ltb_spec (length answers) 4) as [_|]; [|lia].
  unfold bind at 1. unfold random.choice, Game.offsets at 1.
  cbn [length]. unfold bind at 1. unfold random.randbelow at 1.
  change (Z.of_nat (length Game.offsets)) with 7.
  rewrite Hdraw, Nat2Z.id, Hoff. unfold ret at 1.
  unfold bind at 1. destruct (Z.ltb_spec (quotient + off) 1) as [|_]; [lia|].
  unfold ret at 1. rewrite bool_decide_eq_false_2 by exact Hfresh.
  f_equal. unfold advance. cbn. f_equal. lia.
Qed.

(** For every quotient the loop can finish: when the next three draws pick
    the offsets +1, +2, +3, three iterations give the four answers. *)
Lemma gen_answers_finishes fuel quotient w :
  (3 <= fuel)%nat ->
  1 <= quotient ->
  tape w (pos w) mod 7 = 3 ->
  tape w (S (pos w)) mod 7 = 4 ->
  tape w (S (S (pos w))) mod 7 = 5 ->
  Game.gen_answers fuel quotient [quotient] w
  = Ok ([quotient; quotient + 1; quotient + 2; quotient + 3], advance 3 w).
Proof.
  intros Hf Hq H0 H1 H2.
  apply (gen_answers_fuel_mono 3); [exact Hf|].
  rewrite (gen_answers_append _ _ _ _ 3%nat 1); cbn [length]; try lia; try done.
  2:{ rewrite !elem_of_cons, elem_of_nil. lia. }
  rewrite (gen_answers_append _ _ _ _ 4%nat 2); cbn [length app]; try lia; try done.
  2:{ cbn. rewrite Nat.add_1_r. exact H1. }
  2:{ rewrite !elem_of_cons, elem_of_nil. lia. }
  rewrite (gen_answers_append _ _ _ _ 5%nat 3); cbn [length app]; try lia; try done.
  2:{ cbn. rewrite Nat.add_1_r. cbn. rewrite Nat.add_1_r. exact H2. }
  2:{ rewrite !elem_of_cons, elem_of_nil. lia. }
  cbn. unfold ret, advance. cbn. do 3 f_equal. lia.
Qed.

(** ** Shuffling permutes *)

Lemma swap_Permutation {A} (x : list A) i j : random.swap x i j ≡ₚ x.
Proof.
  unfold random.swap.
  destruct (x !! i) as [xi|] eqn:Ei; [|reflexivity].
  destruct (x !! j) as [xj|] eqn:Ej; [|reflexivity].
  pose proof (lookup_lt_Some _ _ _ Ei) as Hi.
  pose proof (lookup_lt_Some _ _ _ Ej) as Hj.
  apply Permutation_inj. split; [by rewrite !length_insert|].
  exists (fun n => if decide (n = j) then i else if decide (n = i) then j else n).
  split.
  - intros a b. repeat case_decide; congruence.
  - intros n. destruct (decide (n = j)) as [->|Hnj].
    + rewrite list_lookup_insert_eq by (rewrite length_insert; exact Hj).
      by rewrite Ei.
    + rewrite list_lookup_insert_ne by congruence.
      destruct (decide (n = i)) as [->|Hni].
      * rewrite list_lookup_insert_eq by exact Hi. by rewrite Ej.
      * by rewrite list_lookup_insert_ne by congruence.
Qed.

Lemma shuffle_from_returns {A} k (x : list A) w :
  returns (random.shuffle_from k x) w
    (fun r w' => r ≡ₚ x /\ timer w' = timer w).
Proof.
  revert x w. induction k as [|k IH]; intros x w; cbn [random.shuffle_from].
  - apply returns_ret. split; reflexivity.
  - eapply returns_bind; [apply randbelow_returns; lia|].
    cbn beta. intros j w1 (_ & Ht & _).
    eapply returns_weaken; [apply IH|].
    cbn beta. intros r w2 (Hp & Ht2). split; [|congruence].
    rewrite Hp. apply swap_Permutation.
Qed.

Lemma shuffle_returns {A} (x : list A) w :
  returns (random.shuffle x) w (fun r w' => r ≡ₚ x /\ timer w' = timer w).
Proof. apply shuffle_from_returns. Qed.

(** ** Placing the meteors *)

Lemma place_meteor_returns ia ms w :
  returns (Game.place_meteor ia ms) w
    (fun r w' => timer w' = timer w /\
                 exists m, r = ms ++ [m] /\ placed ia.2 m).
Proof.
  destruct ia as [i a]. unfold Game.place_meteor.
  eapply returns_bind; [apply uniform_returns|]. cbn beta. intros u w1 Ht1.
  eapply returns_bind; [apply randint_returns; lia|].
  cbn beta. intros y w2 (Hy & Ht2).
  eapply returns_bind; [apply uniform_returns|]. cbn beta. intros sp w3 Ht3.
  apply returns_ret. split; [congruence|]. eexists. split; [reflexivity|].
  split; [reflexivity|]. split; [reflexivity|]. exists y. split; [lia|reflexivity].
Qed.

Lemma place_meteors_returns l ms w :
  returns (for_each l Game.place_meteor ms) w
    (fun r w' => timer w' = timer w /\
                 exists new, r = ms ++ new /\ Forall2 placed (map snd l) new).
Proof.
  revert ms w. induction l as [|ia l IH]; intros ms w; cbn [for_each].
  - apply returns_ret. split; [reflexivity|]. exists []. split; [by rewrite app_nil_r|].
    constructor.
  - eapply returns_bind; [apply place_meteor_returns|].
    cbn beta. intros r1 w1 (Ht1 & m & -> & Hm).
    eapply returns_weaken; [apply IH|].
    cbn beta. intros r w2 (Ht2 & new & -> & Hnew). split; [congruence|].
    exists (m :: new). split; [by rewrite <- app_assoc|].
    cbn. by constructor.
Qed.

Lemma placed_texts labels ms :
  Forall2 placed labels ms -> map Meteor.text ms = map str labels.
Proof.
  induction 1 as [|a m labels ms (Ht & _) _ IH]; [reflexivity|].
  cbn. by rewrite Ht, IH.
Qed.

Lemma enumerate_snd {A} (l : list A) : map snd (enumerate l) = l.
Proof.
  unfold enumerate. generalize 0%nat.
  induction l as [|a l IH]; intros s; cbn; [reflexivity|].
  f_equal. apply IH.
Qed.

Lemma map_text_labels (ms : list Meteor.t) (answers : list Z) :
  map Meteor.text ms = map str answers -> map label ms = map Some answers.
Proof.
  revert answers. induction ms as [|m ms IH]; intros [|a answers] E;
    try discriminate; [reflexivity|].
  cbn in E. injection E as Em Ems. cbn. f_equal; [|by apply IH].
  unfold label. rewrite Em. apply parse_int_str.
Qed.

(** ** The new-question flow *)

Lemma make_new_question_safe fuel d g w :
  Game.qgen g = QuestionGenerator.set_difficulty d ->
  safe (Game.make_new_question fuel g) w
    (fun g' w' =>
       timer w' = timer w /\
       exists q ms labels,
         g' = with_question q ms g /\
         q.1.1 = q.1.2 * q.2 /\
         q.1.2 ∈ QuestionGenerator.divisors (QuestionGenerator.set_difficulty d) /\
         1 <= q.1.1 <= QuestionGenerator.max_dividend
                         (QuestionGenerator.set_difficulty d) /\
         1 <= q.2 <= 12 /\
         batch_for q ms labels).
Proof.
  intros Hq. unfold Game.make_new_question. rewrite Hq.
  eapply safe_bind; [apply returns_safe, next_question_returns|].
  cbn beta. intros [[dividend divisor] quotient] w1 (Ht1 & Hmul & Hdiv & Hbound & Hquot).
  eapply safe_bind.
  { apply (gen_answers_safe fuel quotient [quotient]).
    - cbn. lia.
    - apply NoDup_singleton.
    - intros a Ha. apply list_elem_of_singleton in Ha. lia. }
  cbn beta. intros answers w2 (Ht2 & Hlen & Hnd & Hpos & extra & Hpre).
  eapply safe_bind; [apply returns_safe, shuffle_returns|].
  cbn beta. intros shuffled w3 (Hperm & Ht3).
  eapply safe_bind; [apply returns_safe, place_meteors_returns|].
  cbn beta. intros ms w4 (Ht4 & new & -> & Hplaced).
  apply safe_ret. split; [congruence|].
  exists (dividend, divisor, quotient), new, shuffled.
  split; [reflexivity|]. cbn [fst snd].
  repeat split; try assumption; try lia.
  - by rewrite enumerate_snd in Hplaced.
  - rewrite Hperm. exact Hlen.
  - rewrite Hperm. exact Hnd.
  - intros a Ha. apply Hpos. by rewrite <- Hperm.
  - rewrite Hperm, Hpre. cbn. apply list_elem_of_here.
Qed.

Lemma NoDup_count_one (labels : list Z) (a : Z) :
  NoDup labels -> a ∈ labels ->
  length (List.filter (Z.eqb a) labels) = 1%nat.
Proof.
  induction 1 as [|b l Hnin Hnd IH]; intros Ha.
  - by apply elem_of_nil in Ha.
  - cbn. destruct (Z.eqb_spec a b) as [->|Hne].
    + cbn. f_equal.
      assert (Hnone : forall l', b ∉ l' -> List.filter (Z.eqb b) l' = []).
      { induction l' as [|c l' IHl]; intros Hc; [reflexivity|]. cbn.
        apply not_elem_of_cons in Hc as [Hbc Hc].
        destruct (Z.eqb_spec b c); [congruence|]. by apply IHl. }
      by rewrite Hnone.
    + apply IH. apply elem_of_cons in Ha as [Ha|Ha]; [congruence|exact Ha].
Qed.

(** The flow returns when the three draws after the question pick the
    offsets +1, +2, +3. *)
Lemma make_new_question_returns fuel d g w q w1 :
  Game.qgen g = QuestionGenerator.set_difficulty d ->
  QuestionGenerator.next_question (Game.qgen g) w = Ok (q, w1) ->
  (3 <= fuel)%nat ->
  tape w1 (pos w1) mod 7 = 3 ->
  tape w1 (S (pos w1)) mod 7 = 4 ->
  tape w1 (S (S (pos w1))) mod 7 = 5 ->
  exists g' w', Game.make_new_question fuel g w = Ok (g', w').
Proof.
  intros Hq Hnq Hfuel H0 H1 H2.
  assert (Hquot : 1 <= q.2).
  { destruct (next_question_returns d w) as (q0 & w0 & E & _ & Hq0).
    rewrite <- Hq, Hnq in E. injection E as <- <-.
    destruct q as [[dividend divisor] quotient]. cbn. lia. }
  unfold Game.make_new_question. rewrite (bind_step _ _ _ _ _ Hnq).
  destruct q as [[dividend divisor] quotient]. cbn [snd] in Hquot.
  rewrite (bind_step _ _ _ _ _
             (gen_answers_finishes fuel quotient w1 Hfuel Hquot H0 H1 H2)).
  destruct (shuffle_returns [quotient; quotient + 1; quotient + 2; quotient + 3]
              (advance 3 w1)) as (shuffled & w2 & E2 & _).
  rewrite (bind_step _ _ _ _ _ E2).
  destruct (place_meteors_returns (enumerate shuffled) [] w2)
    as (ms & w3 & E3 & _).
  rewrite (bind_step _ _ _ _ _ E3). by eexists _, _.
Qed.

(** C3. Whenever the new-question flow produces a question (for a generator
    set to some tier), the game holds exactly 4 meteors whose labels are
    pairwise distinct, each at least 1, and exactly one of them is the
    quotient of the current question.  The flow raises no exception: it can
    only fail to return by its unbounded [while] loop exceeding the bound,
    and it does return when the draws after the question pick three
    different positive offsets. *)
Theorem make_new_question_four_distinct (fuel : nat) (d : Z) (g : Game.t) (w : World) :
  Game.qgen g = QuestionGenerator.set_difficulty d ->
  safe (Game.make_new_question fuel g) w
    (fun g' _ =>
       exists dividend divisor quotient labels,
         Game.current_question g' = Some (dividend, divisor, quotient) /\
         length (Game.meteors g') = 4%nat /\
         map label (Game.meteors g') = map Some labels /\
         NoDup labels /\
         (forall a, a ∈ labels -> 1 <= a) /\
         length (List.filter (Z.eqb quotient) labels) = 1%nat) /\
  (forall q w1,
     QuestionGenerator.next_question (Game.qgen g) w = Ok (q, w1) ->
     (3 <= fuel)%nat ->
     tape w1 (pos w1) mod 7 = 3 ->
     tape w1 (S (pos w1)) mod 7 = 4 ->
     tape w1 (S (S (pos w1))) mod 7 = 5 ->
     exists g' w', Game.make_new_question fuel g w = Ok (g', w')).
Proof.
  intros Hq. split.
  - eapply safe_weaken; [apply (make_new_question_safe fuel d g w Hq)|].
    cbn beta.
    intros g' w' (_ & [[dividend divisor] quotient] & ms & labels & -> & _ & _ & _ & _ & Hb).
    destruct Hb as (Hplaced & Hlen & Hnd & Hpos & Hin). cbn [snd] in Hin.
    apply placed_texts in Hplaced as Htext.
    exists dividend, divisor, quotient, labels. cbn.
    repeat split; try assumption.
    + rewrite <- (length_map Meteor.text), Htext, length_map. exact Hlen.
    + by apply map_text_labels.
    + by apply NoDup_count_one.
  - intros q w1. by apply (make_new_question_returns fuel d).
Qed.

(** ** Hit resolution *)

Section hit.
Context `{MathLib}.

Lemma particle_init_returns p w :
  returns (ExplosionParticle.init p) w (fun _ w' => timer w' = timer w).
Proof.
  destruct p as [px py]. unfold ExplosionParticle.init.
  eapply returns_bind; [apply random_returns|]. cbn beta. intros r w1 Ht1.
  eapply returns_bind; [apply uniform_returns|]. cbn beta. intros sp w2 Ht2.
  eapply returns_bind; [apply uniform_returns|]. cbn beta. intros lf w3 Ht3.
  eapply returns_bind; [apply uniform_returns|]. cbn beta. intros sz w4 Ht4.
  apply returns_ret. congruence.
Qed.

Lemma spawn_particles_returns n meteor g w :
  returns (repeat_m n (Game.spawn_particle meteor) g) w
    (fun g' w' => timer w' = timer w /\
                  exists ps, length ps = n /\
                             g' = Game.set_particles (Game.particles g ++ ps) g).
Proof.
  revert g w. induction n as [|n IH]; intros g w; cbn [repeat_m].
  - apply returns_ret. split; [reflexivity|]. exists []. split; [reflexivity|].
    rewrite app_nil_r. by destruct g.
  - unfold Game.spawn_particle at 1.
    eapply returns_bind.
    { eapply returns_bind; [apply particle_init_returns|].
      cbn beta. intros p w1 Ht1. apply returns_ret.
      instantiate (1 := fun g1 w1 =>
        timer w1 = timer w /\
        exists p, g1 = Game.set_particles (Game.particles g ++ [p]) g).
      split; [exact Ht1|]. by exists p. }
    cbn beta. intros g1 w1 (Ht1 & p & ->).
    eapply returns_weaken; [apply IH|].
    cbn beta. intros g' w2 (Ht2 & ps & Hlen & ->). split; [congruence|].
    exists (p :: ps). split; [cbn; by rewrite Hlen|].
    cbn. by rewrite <- app_assoc.
Qed.

Lemma on_meteor_hit_returns meteor g w q a :
  Game.current_question g = Some q ->
  label meteor = Some a ->
  returns (Game.on_meteor_hit meteor g) w
    (fun g' w' =>
       timer w' = 450 /\
       exists ps,
         length ps = (if a =? q.2 then 30%nat else 12%nat) /\
         g' = after_hit (a =? q.2) ps g).
Proof.
  intros Hq Ha. destruct q as [[dividend divisor] quotient].
  unfold Game.on_meteor_hit. rewrite Hq.
  unfold int_of_str. unfold label in Ha. rewrite Ha.
  unfold bind at 1. unfold ret at 1. cbn [snd].
  destruct (a =? quotient).
  - eapply returns_bind; [apply spawn_particles_returns|].
    cbn beta. intros g1 w1 (_ & ps & Hlen & ->).
    eexists _, _. split; [reflexivity|]. split; [reflexivity|].
    exists ps. split; [exact Hlen|]. by destruct g.
  - eapply returns_bind; [apply spawn_particles_returns|].
    cbn beta. intros g1 w1 (_ & ps & Hlen & ->).
    eexists _, _. split; [reflexivity|]. split; [reflexivity|].
    exists ps. split; [exact Hlen|]. by destruct g.
Qed.

(** C2. Hit resolution compares the meteor's label with the quotient of the
    active question.  On a match [correct_count] and [total_attempts] both
    grow by exactly 1 and 30 particles are added; on a mismatch only
    [total_attempts] grows, by exactly 1, and 12 particles are added.  In
    both cases the meteor list is empty afterwards. *)
Theorem on_meteor_hit_scores (meteor : Meteor.t) (g : Game.t) (w : World)
    (dividend divisor quotient a : Z) :
  Game.current_question g = Some (dividend, divisor, quotient) ->
  label meteor = Some a ->
  returns (Game.on_meteor_hit meteor g) w
    (fun g' _ =>
       Game.total_attempts g' = Game.total_attempts g + 1 /\
       Game.meteors g' = [] /\
       (a = quotient ->
          Game.correct_count g' = Game.correct_count g + 1 /\
          length (Game.particles g') = (length (Game.particles g) + 30)%nat) /\
       (a <> quotient ->
          Game.correct_count g' = Game.correct_count g /\
          length (Game.particles g') = (length (Game.particles g) + 12)%nat)).
Proof.
  intros Hq Ha.
  eapply returns_weaken; [apply (on_meteor_hit_returns meteor g w _ a Hq Ha)|].
  cbn beta. intros g' w' (_ & ps & Hlen & ->). cbn [snd] in *.
  destruct (Z.eqb_spec a quotient) as [->|Hne]; cbn;
    rewrite length_app, Hlen; repeat split; try reflexivity; intros; congruence.
Qed.

End hit.

(** ** The off-screen sweep *)

Lemma safe_Ok {A} (m : M A) w Q a w' : safe m w Q -> m w = Ok (a, w') -> Q a w'.
Proof. unfold safe. intros Hs E. by rewrite E in Hs. Qed.

Lemma list_remove_middle kept m rest w :
  m ∉ kept -> list_remove m (kept ++ m :: rest) w = Ok (kept ++ rest, w).
Proof.
  induction kept as [|a kept IH]; intros Hnin; cbn.
  - by rewrite decide_True.
  - apply not_elem_of_cons in Hnin as [Hne Hnin].
    rewrite decide_False by congruence.
    unfold bind. by rewrite IH.
Qed.

Lemma placed_on_screen a m : placed a m -> on_screen m = true.
Proof.
  intros (_ & _ & y & Hy & Ey). unfold on_screen, Game.off_screen, Qlt_bool.
  rewrite Ey, negb_involutive. apply Qle_bool_iff.
  rewrite <- Zle_Qle. unfold HEIGHT. lia.
Qed.

Section sweep.
Variable fuel : nat.

(** The sweep in closed form.  [kept] are the on-screen meteors that the loop
    has passed, [rest] the part of the snapshot still to visit. *)
Lemma sweep_closed_form kept rest g w :
  Game.meteors g = kept ++ rest ->
  Forall (fun m => on_screen m = true) kept ->
  for_each rest (Game.sweep_body fuel) g w
  = match kept ++ List.filter on_screen rest, rest with
    | [], _ :: _ =>
        Game.make_new_question fuel
          (Game.set_total_attempts (Game.total_attempts g + 1)
             (Game.set_meteors [] g)) w
    | remaining, _ => Ok (Game.set_meteors remaining g, w)
    end.
Proof.
  revert kept g. induction rest as [|m rest IH]; intros kept g Hms Hkept.
  - cbn. rewrite app_nil_r in *. unfold ret. rewrite <- Hms.
    destruct g; cbn; by destruct meteors.
  - cbn [for_each List.filter]. unfold bind at 1. unfold Game.sweep_body at 1.
    change (on_screen m) with (negb (Game.off_screen m)).
    destruct (Game.off_screen m) eqn:Hoff; cbn [negb].
    + unfold bind at 1. rewrite Hms. rewrite list_remove_middle.
      2:{ intros Hin. rewrite Forall_forall in Hkept.
          specialize (Hkept _ Hin). unfold on_screen in Hkept.
          by rewrite Hoff in Hkept. }
      cbn beta iota.
      destruct (kept ++ rest) as [|m0 rem] eqn:Hleft.
      * apply app_eq_nil in Hleft as [-> ->]. cbn [app List.filter].
        cbn [Game.total_attempts Game.set_meteors].
        by destruct (Game.make_new_question _ _ _) as [[g' w']|].
      * unfold ret. rewrite (IH kept); [|by rewrite <- Hleft|exact Hkept].
        destruct (kept ++ List.filter on_screen rest) as [|k0 rem'] eqn:Hk.
        -- apply app_eq_nil in Hk as [-> Hf]. cbn in Hleft. subst rest.
           by destruct g.
        -- by destruct g.
    + unfold ret. rewrite (IH (kept ++ [m])).
      * rewrite <- app_assoc. cbn [app].
        destruct kept; cbn; by destruct rest.
      * by rewrite <- app_assoc.
      * apply Forall_app. split; [exact Hkept|].
        apply Forall_singleton. unfold on_screen. by rewrite Hoff.
Qed.

End sweep.

(** ** One frame of [update] in closed form *)

Section update.
Context `{MathLib}.
Variable fuel : nat.

Lemma hit_scan_closed_form br ms g w :
  Game.hit_scan br ms g w
  = match hit_target br ms with
    | Some m => (g' <- Game.on_meteor_hit m g ;; ret (Game.set_beam None g')) w
    | None => Ok (g, w)
    end.
Proof.
  induction ms as [|m ms IH]; cbn [Game.hit_scan hit_target List.find]; [reflexivity|].
  destruct (Rect.colliderect (Meteor.rect m) br); [reflexivity|]. exact IH.
Qed.

Lemma update_not_playing dt g w :
  Game.state g <> Game.playing ->
  Game.update fuel dt g w
  = Ok (Game.set_particles
          (List.filter Game.alive
             (map (ExplosionParticle.update dt) (Game.particles g))) g, w).
Proof. intros Hs. unfold Game.update. destruct g; cbn in *. by destruct state. Qed.

Lemma moved_fields dt g :
  Game.state (moved dt g) = Game.state g /\
  Game.correct_count (moved dt g) = Game.correct_count g /\
  Game.total_attempts (moved dt g) = Game.total_attempts g /\
  Game.current_question (moved dt g) = Game.current_question g /\
  Game.qgen (moved dt g) = Game.qgen g /\
  Game.difficulty (moved dt g) = Game.difficulty g /\
  Game._buttons (moved dt g) = Game._buttons g /\
  Game.meteors (moved dt g) = map (Meteor.update dt) (Game.meteors g).
Proof. unfold moved. destruct g; cbn. by destruct beam as [[bx by_]|]. Qed.

Lemma update_playing dt g :
  Game.state g = Game.playing ->
  Game.update fuel dt g
  = (g1 <- match Game.beam (moved dt g) with
           | Some b =>
               g0 <- Game.hit_scan (beam_rect b) (Game.meteors (moved dt g))
                       (moved dt g) ;;
               ret (drop_spent_beam g0)
           | None => ret (moved dt g)
           end ;;
     g2 <- for_each (Game.meteors g1) (Game.sweep_body fuel) g1 ;;
     ret (level_check g2)).
Proof.
  intros Hs. unfold Game.update.
  assert (Est : Game.state
            (Game.set_particles
               (List.filter Game.alive
                  (map (ExplosionParticle.update dt) (Game.particles g))) g)
          = Game.playing) by (by destruct g).
  rewrite Est. fold (moved dt g).
  destruct (Game.beam (moved dt g)) as [[bx by_]|]; reflexivity.
Qed.

Lemma update_hit_eq dt g w m g1 w1 :
  Game.state g = Game.playing ->
  frame_hit dt g = Some m ->
  Game.on_meteor_hit m (moved dt g) w = Ok (g1, w1) ->
  Game.meteors g1 = [] ->
  Game.update fuel dt g w = Ok (level_check (Game.set_beam None g1), w1).
Proof.
  intros Hs Hhit Hon Hms. rewrite (update_playing dt g Hs).
  unfold frame_hit in Hhit.
  destruct (Game.beam (moved dt g)) as [b|] eqn:Eb; [|discriminate].
  unfold bind at 1 2. rewrite hit_scan_closed_form, Hhit.
  unfold bind at 1. rewrite Hon. unfold ret at 1 2.
  unfold drop_spent_beam. cbn [Game.beam Game.set_beam].
  change (Game.meteors (Game.set_beam None g1)) with (Game.meteors g1).
  rewrite Hms. reflexivity.
Qed.

(** A frame in which the beam hits meteor [m]. *)
Lemma update_hit dt g w m q a :
  Game.state g = Game.playing ->
  frame_hit dt g = Some m ->
  Game.current_question g = Some q ->
  label m = Some a ->
  returns (Game.update fuel dt g) w
    (fun g' w' =>
       timer w' = 450 /\
       exists ps,
         length ps = (if a =? q.2 then 30%nat else 12%nat) /\
         g' = level_check
                (Game.set_beam None (after_hit (a =? q.2) ps (moved dt g)))).
Proof.
  intros Hs Hhit Hq Ha.
  destruct (moved_fields dt g) as (_ & _ & _ & Hq' & _).
  rewrite <- Hq' in Hq.
  destruct (on_meteor_hit_returns m (moved dt g) w q a Hq Ha)
    as (g1 & w1 & Hon & Ht & ps & Hlen & ->).
  exists (level_check (Game.set_beam None (after_hit (a =? q.2) ps (moved dt g)))), w1.
  split.
  - apply (update_hit_eq dt g w m _ w1 Hs Hhit Hon). reflexivity.
  - split; [exact Ht|]. exists ps. split; [exact Hlen|reflexivity].
Qed.

(** A frame without a hit. *)
Lemma update_no_hit dt g w :
  Game.state g = Game.playing ->
  frame_hit dt g = None ->
  let g1 := drop_spent_beam (moved dt g) in
  Game.update fuel dt g w
  = if all_fell (Game.meteors g1)
    then (g2 <- Game.make_new_question fuel
                  (Game.set_total_attempts (Game.total_attempts g1 + 1)
                     (Game.set_meteors [] g1)) ;;
          ret (level_check g2)) w
    else Ok (level_check
               (Game.set_meteors (List.filter on_screen (Game.meteors g1)) g1), w).
Proof.
  intros Hs Hhit g1. rewrite (update_playing dt g Hs).
  assert (E1 : match Game.beam (moved dt g) with
               | Some b =>
                   g0 <- Game.hit_scan (beam_rect b)
                           (Game.meteors (moved dt g)) (moved dt g) ;;
                   ret (drop_spent_beam g0)
               | None => ret (moved dt g)
               end w = Ok (g1, w)).
  { unfold g1, frame_hit in *. unfold drop_spent_beam at 2.
    destruct (Game.beam (moved dt g)) as [b|] eqn:Eb; [|reflexivity].
    unfold bind. rewrite hit_scan_closed_form, Hhit. unfold ret.
    unfold drop_spent_beam. rewrite Eb. reflexivity. }
  rewrite (bind_step _ _ _ _ _ E1). unfold bind at 1.
  rewrite (sweep_closed_form fuel [] (Game.meteors g1) g1 w eq_refl (Forall_nil_2 _)).
  cbn [app]. unfold all_fell.
  destruct (List.filter on_screen (Game.meteors g1)) as [|k0 rem] eqn:Ef.
  - destruct (Game.meteors g1) as [|m0 ms0] eqn:Em; reflexivity.
  - reflexivity.
Qed.

End update.

(** ** Invariants of the game state *)

Lemma placed_labelled labels ms : Forall2 placed labels ms -> Forall labelled ms.
Proof.
  induction 1 as [|a m labels ms (Ht & _) _ IH]; constructor; [|exact IH].
  exists a. unfold label. rewrite Ht. apply parse_int_str.
Qed.

Lemma update_labelled dt m : labelled m -> labelled (Meteor.update dt m).
Proof. intros Hm. exact Hm. Qed.

Lemma drop_spent_beam_fields g :
  Game.state (drop_spent_beam g) = Game.state g /\
  Game.correct_count (drop_spent_beam g) = Game.correct_count g /\
  Game.total_attempts (drop_spent_beam g) = Game.total_attempts g /\
  Game.current_question (drop_spent_beam g) = Game.current_question g /\
  Game.qgen (drop_spent_beam g) = Game.qgen g /\
  Game.difficulty (drop_spent_beam g) = Game.difficulty g /\
  Game._buttons (drop_spent_beam g) = Game._buttons g /\
  Game.meteors (drop_spent_beam g) = Game.meteors g.
Proof.
  unfold drop_spent_beam. destruct (Game.beam g) as [[bx by_]|]; [|done].
  by destruct (Qlt_bool by_ (-40)).
Qed.

Lemma level_check_fields g :
  Game.correct_count (level_check g) = Game.correct_count g /\
  Game.total_attempts (level_check g) = Game.total_attempts g /\
  Game.current_question (level_check g) = Game.current_question g /\
  Game.qgen (level_check g) = Game.qgen g /\
  Game.difficulty (level_check g) = Game.difficulty g /\
  Game._buttons (level_check g) = Game._buttons g /\
  Game.meteors (level_check g) = Game.meteors g /\
  Game.state (level_check g)
  = if TARGET_CORRECT <=? Game.correct_count g
    then Game.level_clear else Game.state g.
Proof. unfold level_check. by destruct (TARGET_CORRECT <=? Game.correct_count g). Qed.

(** The claims about the end of a frame. *)
Lemma level_check_coherent g :
  0 <= Game.difficulty g <= 2 ->
  Game.qgen g = QuestionGenerator.set_difficulty (Game.difficulty g) ->
  is_Some (Game.current_question g) ->
  Forall labelled (Game.meteors g) ->
  0 <= Game.correct_count g <= Game.total_attempts g ->
  coherent (level_check g).
Proof.
  intros Hd Hq Hcq Hms Hc.
  destruct (level_check_fields g) as (Ec & Et & Eq & Eg & Ed & _ & Em & Es).
  unfold coherent. rewrite Ec, Et, Eq, Eg, Ed, Em, Es.
  repeat split; try assumption; try lia.
  destruct (Z.leb_spec TARGET_CORRECT (Game.correct_count g)); [discriminate|].
  intros _. assumption.
Qed.

Section invariants.
Context `{MathLib}.
Variable fuel : nat.

Lemma frame_hit_labelled dt g m :
  Forall labelled (Game.meteors g) -> frame_hit dt g = Some m -> labelled m.
Proof.
  intros Hms Hhit. unfold frame_hit in Hhit.
  destruct (Game.beam (moved dt g)) as [b|]; [|discriminate].
  apply find_some in Hhit as [Hin _].
  destruct (moved_fields dt g) as (_ & _ & _ & _ & _ & _ & _ & Em).
  rewrite Em in Hin. apply in_map_iff in Hin as (m0 & <- & Hin0).
  apply update_labelled. rewrite Forall_forall in Hms. apply Hms.
  by apply list_elem_of_In.
Qed.

Lemma update_coherent dt g w :
  coherent g ->
  safe (Game.update fuel dt g) w
    (fun g' _ =>
       coherent g' /\ counters_step g g' /\
       Game._buttons g' = Game._buttons g /\
       (Game.state g' = Game.state g \/
        Game.state g = Game.playing /\ Game.state g' = Game.level_clear /\
        TARGET_CORRECT <= Game.correct_count g') /\
       (Game.state g = Game.playing ->
        TARGET_CORRECT <= Game.correct_count g' ->
        Game.state g' = Game.level_clear)).
Proof.
  intros (Hd & Hq & Hcq & Hms & Hc & Hp).
  destruct (decide (Game.state g = Game.playing)) as [Hs|Hs].
  2:{ unfold safe. rewrite (update_not_playing fuel dt g w Hs).
      unfold coherent, counters_step. destruct g; cbn in *.
      repeat split; try assumption; try lia; try (by left); done. }
  specialize (Hp Hs).
  destruct (moved_fields dt g) as (Ms & Mc & Mt & Mq & Mg & Md & Mb & Mm).
  destruct (frame_hit dt g) as [m|] eqn:Hhit.
  - destruct (frame_hit_labelled dt g m Hms Hhit) as [a Ha].
    destruct Hcq as [q Hcq].
    apply returns_safe.
    eapply returns_weaken; [apply (update_hit fuel dt g w m q a Hs Hhit Hcq Ha)|].
    cbn beta. intros g' w' (_ & ps & _ & ->).
    set (g2 := Game.set_beam None (after_hit (a =? q.2) ps (moved dt g))).
    assert (F2 : Game.difficulty g2 = Game.difficulty g /\
                 Game.qgen g2 = Game.qgen g /\
                 Game.current_question g2 = Game.current_question g /\
                 Game.meteors g2 = [] /\
                 Game._buttons g2 = Game._buttons g /\
                 Game.state g2 = Game.state g /\
                 Game.total_attempts g2 = Game.total_attempts g + 1 /\
                 Game.correct_count g2
                 = Game.correct_count g + (if a =? q.2 then 1 else 0)).
    { unfold g2, after_hit.
      destruct (a =? q.2); cbn -[moved];
        rewrite ?Md, ?Mg, ?Mq, ?Mb, ?Ms, ?Mt, ?Mc;
        repeat split; try reflexivity; lia. }
    destruct F2 as (F2d & F2g & F2q & F2m & F2b & F2s & F2t & F2c).
    destruct (level_check_fields g2) as (Ec & Et & Eq & Eg & Ed & Eb & Em & Es).
    assert (Hstep : 0 <= (if a =? q.2 then 1 else 0) <= 1)
      by (destruct (a =? q.2); lia).
    split; [|split; [|split; [|split]]].
    + apply level_check_coherent; rewrite ?F2d, ?F2g, ?F2q, ?F2m, ?F2t, ?F2c;
        try assumption; [by exists q|constructor|lia].
    + unfold counters_step. rewrite Ec, Et, F2c, F2t. lia.
    + by rewrite Eb, F2b.
    + rewrite Es, Ec, F2s.
      destruct (Z.leb_spec TARGET_CORRECT (Game.correct_count g2)); [|by left].
      right. auto.
    + intros _ Hge. rewrite Es. rewrite Ec in Hge.
      by destruct (Z.leb_spec TARGET_CORRECT (Game.correct_count g2)); [|lia].
  - unfold safe. rewrite (update_no_hit fuel dt g w Hs Hhit). cbn zeta.
    set (g1 := drop_spent_beam (moved dt g)).
    destruct (drop_spent_beam_fields (moved dt g))
      as (Ds & Dc & Dt & Dq & Dg & Dd & Db & Dm). fold g1 in Ds, Dc, Dt, Dq, Dg, Dd, Db, Dm.
    destruct (all_fell (Game.meteors g1)) eqn:Hfell.
    + set (g1' := Game.set_total_attempts (Game.total_attempts g1 + 1)
                    (Game.set_meteors [] g1)).
      assert (Hq1 : Game.qgen g1'
                    = QuestionGenerator.set_difficulty (Game.difficulty g))
        by (unfold g1'; cbn; by rewrite Dg, Mg).
      pose proof (make_new_question_safe fuel _ g1' w Hq1) as Hmk.
      unfold safe in Hmk. unfold bind.
      destruct (Game.make_new_question fuel g1' w) as [[g2 w2]|e]; [|exact Hmk].
      destruct Hmk as (_ & q' & ms & labels & -> & _ & _ & _ & _ & Hb).
      destruct Hb as (Hplaced & _). unfold ret.
      set (g2 := with_question q' ms g1').
      assert (F2 : Game.difficulty g2 = Game.difficulty g /\
                   Game.qgen g2 = Game.qgen g /\
                   Game.current_question g2 = Some q' /\
                   Game.meteors g2 = ms /\
                   Game._buttons g2 = Game._buttons g /\
                   Game.state g2 = Game.state g /\
                   Game.total_attempts g2 = Game.total_attempts g + 1 /\
                   Game.correct_count g2 = Game.correct_count g).
      { unfold g2, g1', with_question. cbn.
        rewrite ?Dd, ?Dg, ?Db, ?Ds, ?Dt, ?Dc, ?Md, ?Mg, ?Mb, ?Ms, ?Mt, ?Mc. done. }
      destruct F2 as (F2d & F2g & F2q & F2m & F2b & F2s & F2t & F2c).
      destruct (level_check_fields g2) as (Ec & Et & Eq & Eg & Ed & Eb & Em & Es).
      split; [|split; [|split; [|split]]].
      * apply level_check_coherent; rewrite ?F2d, ?F2g, ?F2q, ?F2m, ?F2t, ?F2c;
          try assumption; [by eexists|by eapply placed_labelled|lia].
      * unfold counters_step. rewrite Ec, Et, F2c, F2t. lia.
      * by rewrite Eb, F2b.
      * rewrite Es, F2c, F2s.
        destruct (Z.leb_spec TARGET_CORRECT (Game.correct_count g)); [lia|by left].
      * intros _ Hge. rewrite Ec, F2c in Hge. lia.
    + set (g2 := Game.set_meteors (List.filter on_screen (Game.meteors g1)) g1).
      assert (F2 : Game.difficulty g2 = Game.difficulty g /\
                   Game.qgen g2 = Game.qgen g /\
                   Game.current_question g2 = Game.current_question g /\
                   Game.meteors g2 = List.filter on_screen (Game.meteors g1) /\
                   Game._buttons g2 = Game._buttons g /\
                   Game.state g2 = Game.state g /\
                   Game.total_attempts g2 = Game.total_attempts g /\
                   Game.correct_count g2 = Game.correct_count g).
      { unfold g2. cbn.
        rewrite ?Dd, ?Dg, ?Db, ?Ds, ?Dt, ?Dc, ?Dq, ?Md, ?Mg, ?Mb, ?Ms, ?Mt, ?Mc, ?Mq.
        done. }
      destruct F2 as (F2d & F2g & F2q & F2m & F2b & F2s & F2t & F2c).
      destruct (level_check_fields g2) as (Ec & Et & Eq & Eg & Ed & Eb & Em & Es).
      split; [|split; [|split; [|split]]].
      * apply level_check_coherent; rewrite ?F2d, ?F2g, ?F2q, ?F2m, ?F2t, ?F2c;
          try assumption.
        rewrite Dm, Mm. rewrite Forall_forall. intros m Hm.
        apply list_elem_of_In, filter_In in Hm as [Hm _].
        apply in_map_iff in Hm as (m0 & <- & Hm0).
        apply update_labelled. rewrite Forall_forall in Hms. apply Hms.
        by apply list_elem_of_In.
      * unfold counters_step. rewrite Ec, Et, F2c, F2t. lia.
      * by rewrite Eb, F2b.
      * rewrite Es, F2c, F2s.
        destruct (Z.leb_spec TARGET_CORRECT (Game.correct_count g)); [lia|by left].
      * intros _ Hge. rewrite Ec, F2c in Hge. lia.
Qed.

End invariants.

(** ** Play reset and the event handlers *)

Lemma event_outcome_refl g : coherent g -> event_outcome g g.
Proof. intros Hco. split; [exact Hco|]. split; [reflexivity|]. split; [auto|]. by left. Qed.

Section handlers.
Variable fuel : nat.

Lemma reset_play_safe d g w :
  Game.qgen g = QuestionGenerator.set_difficulty d ->
  safe (Game.reset_play fuel g) w
    (fun g' w' =>
       timer w' = timer w /\
       exists q ms labels,
         g' = with_question q ms (cleared g) /\ batch_for q ms labels /\
         q.1.1 = q.1.2 * q.2 /\
         q.1.2 ∈ QuestionGenerator.divisors (QuestionGenerator.set_difficulty d) /\
         q.1.1 <= QuestionGenerator.max_dividend
                    (QuestionGenerator.set_difficulty d)).
Proof.
  intros Hq. change (Game.reset_play fuel g) with (Game.make_new_question fuel (cleared g)).
  eapply safe_weaken; [apply (make_new_question_safe fuel d)|].
  - by destruct g.
  - cbn beta. intros g' w' (Ht & q & ms & labels & -> & Hm & Hd & Hb & _ & Hbatch).
    split; [exact Ht|]. exists q, ms, labels.
    split; [reflexivity|]. split; [exact Hbatch|]. split; [exact Hm|].
    split; [exact Hd|]. lia.
Qed.

Lemma make_new_question_outcome g w :
  coherent g ->
  safe (Game.make_new_question fuel g) w
    (fun g' w' => timer w' = timer w /\ event_outcome g g' /\
                  Game.state g' = Game.state g).
Proof.
  intros (Hd & Hq & Hcq & Hms & Hc & Hp).
  eapply safe_weaken; [apply (make_new_question_safe fuel _ g w Hq)|].
  cbn beta. intros g' w' (Ht & q & ms & labels & -> & _ & _ & _ & _ & Hb).
  destruct Hb as (Hplaced & _). split; [exact Ht|].
  unfold event_outcome, coherent. destruct g; cbn in *.
  repeat split; try assumption; try lia; try (by left); try done.
  by eapply placed_labelled.
Qed.

(** Entering play from a reset. *)
Lemma start_play_outcome d g0 g w :
  0 <= d <= 2 ->
  Game.difficulty g = d ->
  Game.qgen g = QuestionGenerator.set_difficulty d ->
  Game._buttons g = Game._buttons g0 ->
  safe (g1 <- Game.reset_play fuel g ;; ret (Game.set_state Game.playing g1)) w
    (fun g' w' => timer w' = timer w /\ event_outcome g0 g' /\
                  Game.state g' = Game.playing /\
                  Game.correct_count g' = 0 /\ Game.total_attempts g' = 0 /\
                  Game.difficulty g' = d).
Proof.
  intros Hd Ed Hq Hb.
  eapply safe_bind; [apply (reset_play_safe d g w Hq)|].
  cbn beta. intros g1 w1 (Ht & q & ms & labels & -> & (Hplaced & _) & _).
  apply safe_ret. split; [exact Ht|].
  unfold event_outcome, coherent. destruct g; cbn in *. subst.
  repeat split; try assumption; try lia; try done.
  - by eapply placed_labelled.
  - right. done.
Qed.

Lemma menu_click_outcome is_ pos g w :
  coherent g ->
  (forall i, i ∈ is_ -> 0 <= i <= 2) ->
  safe (Game.menu_click fuel is_ pos g) w
    (fun g' w' => timer w' = timer w /\ event_outcome g g').
Proof.
  intros Hco His. induction is_ as [|i is_ IH]; cbn [Game.menu_click].
  - apply safe_ret. split; [reflexivity|]. by apply event_outcome_refl.
  - destruct (Rect.collidepoint _ pos).
    + eapply safe_weaken.
      * apply (start_play_outcome i g); try reflexivity.
        apply His. apply list_elem_of_here.
      * cbn beta. intros g' w' (Ht & Ho & _). by split.
    + apply IH. intros j Hj. apply His. by apply list_elem_of_further.
Qed.

Lemma level_clear_click_outcome btns pos g w :
  coherent g ->
  safe (Game.level_clear_click fuel btns pos g) w
    (fun g' w' => timer w' = timer w /\ event_outcome g g').
Proof.
  intros Hco. pose proof Hco as (Hd & Hq & Hcq & Hms & Hc & Hp).
  induction btns as [|[[[[x y] bw] bh] [action arg]] btns IH];
    cbn [Game.level_clear_click].
  - apply safe_ret. split; [reflexivity|]. by apply event_outcome_refl.
  - destruct (Rect.collidepoint _ pos); [|exact IH].
    cbn [fst]. destruct action.
    + apply safe_ret. split; [reflexivity|]. by apply event_outcome_refl.
    + destruct (Z.ltb_spec (Game.difficulty g) 2) as [Hlt|Hge].
      * eapply safe_weaken.
        -- apply (start_play_outcome (Game.difficulty g + 1) g); try reflexivity.
           lia.
        -- cbn beta. intros g' w' (Ht & Ho & _). by split.
      * eapply safe_weaken.
        -- by apply (start_play_outcome (Game.difficulty g) g).
        -- cbn beta. intros g' w' (Ht & Ho & _). by split.
    + eapply safe_weaken.
      * apply (start_play_outcome (Game.difficulty g) g); try reflexivity. exact Hd.
      * cbn beta. intros g' w' (Ht & Ho & _). by split.
    + apply safe_ret. split; [reflexivity|].
      unfold event_outcome, coherent. destruct g; cbn in *.
      repeat split; try assumption; try lia; try done; by left.
Qed.

Lemma handle_click_outcome pos button g w :
  coherent g ->
  safe (Game.handle_click fuel pos button g) w
    (fun g' w' => timer w' = timer w /\ event_outcome g g').
Proof.
  intros Hco. unfold Game.handle_click.
  destruct (Game.state g) eqn:Hs.
  - apply menu_click_outcome; [exact Hco|].
    intros i Hi. rewrite !elem_of_cons, elem_of_nil in Hi. lia.
  - apply safe_ret. split; [reflexivity|].
    destruct Hco as (Hd & Hq & Hcq & Hms & Hc & Hp).
    unfold event_outcome, coherent, Game.fire_beam. destruct g; cbn in *.
    repeat split; try assumption; try lia; try done; by left.
  - destruct (Game._buttons g) as [btns|].
    + by apply level_clear_click_outcome.
    + apply safe_ret. split; [reflexivity|]. by apply event_outcome_refl.
Qed.

Lemma handle_event_outcome e s w :
  coherent (game s) ->
  safe (handle_event fuel e s) w (fun s' _ => event_outcome (game s) (game s')).
Proof.
  intros Hco. pose proof Hco as (Hd & Hq & Hcq & Hms & Hc & Hp).
  assert (Hsame : event_outcome (game s) (game s))
    by (by apply event_outcome_refl).
  destruct e as [|[mx my]|pos button|key| |]; cbn [handle_event].
  - apply safe_ret. exact Hsame.
  - destruct (Game.state (game s)) eqn:Hs; apply safe_ret; exact Hsame.
  - destruct (button =? 1); [|apply safe_ret; exact Hsame].
    eapply safe_bind; [by apply handle_click_outcome|].
    cbn beta. intros g' w' (_ & Ho). apply safe_ret. exact Ho.
  - destruct (key =? K_ESCAPE); [|apply safe_ret; exact Hsame].
    destruct (Game.state (game s)) eqn:Hs; apply safe_ret; try exact Hsame.
    unfold event_outcome, coherent. destruct s as [g r]; destruct g; cbn in *.
    repeat split; try assumption; try lia; try done; by left.
  - eapply safe_bind with (P := fun _ w1 => tape w1 = tape w /\ pos w1 = pos w).
    { unfold safe, set_timer. cbn. done. }
    cbn beta. intros _ w1 _.
    eapply safe_bind; [by apply make_new_question_outcome|].
    cbn beta. intros g' w' (_ & Ho & _). apply safe_ret. exact Ho.
  - apply safe_ret. exact Hsame.
Qed.

End handlers.

(** ** Reachable states of the main loop *)

Section loop.
Context `{MathLib}.
Variable fuel : nat.

Lemma reach_frame s w ms events s' w' :
  reachable fuel s w -> 0 <= ms -> frame fuel ms events s w = Ok (s', w') ->
  reachable fuel s' w'.
Proof.
  intros Hr Hms Hf. unfold frame in Hf. inv_bind Hf.
  apply (reach_tick fuel a w0 ms); [|exact Hms|exact Hf].
  clear Hf. revert s w Hr Hf_m.
  induction events as [|e events IH]; intros s w Hr Hev; cbn [for_each] in Hev.
  - inv_ret Hev. exact Hr.
  - inv_bind Hev. apply (IH a0 w1); [|exact Hev].
    by apply (reach_event fuel s w e).
Qed.

Lemma start_eq :
  start fuel
  = bind (Game.init fuel) (fun g => ret {| game := g; running := true |}).
Proof.
  exact (eq_refl (bind (Game.init fuel)
                    (fun g => ret {| game := g; running := true |}))).
Qed.

Lemma init_eq :
  Game.init fuel
  = bind (Game.reset_play fuel Game.blank)
      (fun g => ret (Game.set_explosions [] (Game.set_particles [] g))).
Proof.
  exact (eq_refl (bind (Game.reset_play fuel Game.blank)
                    (fun g => ret (Game.set_explosions []
                                     (Game.set_particles [] g))))).
Qed.

Lemma start_invariant w0 s w :
  start fuel w0 = Ok (s, w) ->
  coherent (game s) /\ buttons_drawn (game s) /\ Game.state (game s) = Game.menu.
Proof.
  intros Hst. rewrite start_eq in Hst. inv_bind Hst. inv_ret Hst.
  rewrite init_eq in Hst_m. inv_bind Hst_m. inv_ret Hst_m.
  destruct (safe_Ok _ _ _ _ _
              (reset_play_safe fuel 0 Game.blank w0 eq_refl) Hst_m_m)
    as (_ & q & ms & labels & -> & (Hplaced & _) & _).
  clear Hst_m_m. cbn [game]. split; [|split].
  - unfold coherent. cbn.
    split; [lia|]. split; [reflexivity|]. split; [by eexists|].
    split; [by eapply placed_labelled|]. split; [lia|]. discriminate.
  - intros Hs. discriminate Hs.
  - reflexivity.
Qed.

Lemma tick_invariant ms s w s' w' :
  coherent (game s) ->
  tick fuel ms s w = Ok (s', w') ->
  coherent (game s') /\ buttons_drawn (game s') /\
  counters_step (game s) (game s') /\
  (Game.state (game s) = Game.playing ->
   TARGET_CORRECT <= Game.correct_count (game s') ->
   Game.state (game s') = Game.level_clear).
Proof.
  intros Hco Ht. unfold tick in Ht. inv_bind Ht. inv_ret Ht. cbn [game].
  destruct (safe_Ok _ _ _ _ _ (update_coherent fuel _ (game s) w Hco) Ht_m)
    as (Hco' & Hstep & _ & _ & Hclear).
  assert (Hdraw : forall g, coherent g -> coherent (Game.draw g) /\
                            buttons_drawn (Game.draw g) /\
                            Game.correct_count (Game.draw g) = Game.correct_count g /\
                            Game.total_attempts (Game.draw g) = Game.total_attempts g /\
                            Game.state (Game.draw g) = Game.state g).
  { intros g Hg. unfold Game.draw, Game.draw_buttons, buttons_drawn.
    destruct g; cbn in *. destruct state; cbn; done. }
  destruct (Hdraw a Hco') as (Hco'' & Hb & Ec & Et & Es).
  split; [exact Hco''|]. split; [exact Hb|]. split.
  - unfold counters_step. rewrite Ec, Et. exact Hstep.
  - rewrite Ec, Es. exact Hclear.
Qed.

Lemma event_invariant e s w s' w' :
  coherent (game s) -> buttons_drawn (game s) ->
  handle_event fuel e s w = Ok (s', w') ->
  coherent (game s') /\ buttons_drawn (game s').
Proof.
  intros Hco Hb He.
  destruct (safe_Ok _ _ _ _ _ (handle_event_outcome fuel e s w Hco) He)
    as (Hco' & Eb & Hlc & _).
  split; [exact Hco'|]. intros Hs. rewrite Eb. apply Hb, Hlc, Hs.
Qed.

Lemma reachable_invariant s w :
  reachable fuel s w -> coherent (game s) /\ buttons_drawn (game s).
Proof.
  induction 1 as [w0 s w Hst|s w e s' w' _ [Hco Hb] He|s w ms s' w' _ [Hco Hb] _ Ht].
  - destruct (start_invariant _ _ _ Hst) as (? & ? & _). by split.
  - by apply (event_invariant e s w s' w').
  - destruct (tick_invariant ms s w s' w' Hco Ht) as (? & ? & _). by split.
Qed.

(** C5. In every reachable state that is [playing], [correct_count] is at
    most the target 20; a frame update started there ends with
    [correct_count] at most 20 as well, and when it ends with
    [correct_count] at 20 the state has moved from [playing] to
    [level_clear].  That switch does happen: when [correct_count] is 19 and
    the beam hits the meteor that carries the quotient in this frame, the
    frame returns with [correct_count] at 20 and the state
    [level_clear]. *)
Theorem correct_count_capped (s : Loop) (w : World) :
  reachable fuel s w ->
  Game.state (game s) = Game.playing ->
  Game.correct_count (game s) <= TARGET_CORRECT /\
  (forall ms s' w',
     tick fuel ms s w = Ok (s', w') ->
     Game.correct_count (game s') <= TARGET_CORRECT /\
     (TARGET_CORRECT <= Game.correct_count (game s') ->
      Game.state (game s') = Game.level_clear)) /\
  (forall ms m q,
     Game.correct_count (game s) = TARGET_CORRECT - 1 ->
     frame_hit (inject_Z ms / 1000) (game s) = Some m ->
     Game.current_question (game s) = Some q ->
     label m = Some q.2 ->
     returns (tick fuel ms s) w
       (fun s' _ =>
          Game.correct_count (game s') = TARGET_CORRECT /\
          Game.state (game s') = Game.level_clear)).
Proof.
  intros Hr Hs. destruct (reachable_invariant s w Hr) as [Hco _].
  pose proof Hco as (_ & _ & _ & _ & _ & Hp). specialize (Hp Hs).
  split; [lia|]. split.
  - intros ms s' w' Ht.
    destruct (tick_invariant ms s w s' w' Hco Ht) as (_ & _ & Hstep & Hclear).
    split; [|by apply Hclear]. unfold counters_step in Hstep. lia.
  - intros ms m q Hc Hhit Hq Hm.
    destruct (update_hit fuel _ (game s) w m q q.2 Hs Hhit Hq Hm)
      as (g' & w' & Hup & _ & ps & _ & Eg).
    rewrite Z.eqb_refl in Eg.
    assert (Hcount : Game.correct_count g' = TARGET_CORRECT).
    { rewrite Eg.
      destruct (level_check_fields
                  (Game.set_beam None
                     (after_hit true ps (moved (inject_Z ms / 1000) (game s)))))
        as (-> & _).
      destruct (moved_fields (inject_Z ms / 1000) (game s)) as (_ & Mc & _).
      cbn -[moved TARGET_CORRECT]. rewrite Mc, Hc. lia. }
    assert (Hstate : Game.state g' = Game.level_clear).
    { rewrite Eg in Hcount |- *.
      destruct (level_check_fields
                  (Game.set_beam None
                     (after_hit true ps (moved (inject_Z ms / 1000) (game s)))))
        as (Ec & _ & _ & _ & _ & _ & _ & ->).
      rewrite <- Ec, Hcount. reflexivity. }
    exists {| game := Game.draw g'; running := running s |}, w'. split.
    + unfold tick. rewrite (bind_step _ _ _ _ _ Hup). reflexivity.
    + cbn [game]. unfold Game.draw, Game.draw_buttons. rewrite Hstate.
      by split.
Qed.

(** C10. In every reachable state [correct_count] is at most
    [total_attempts].  An event handler either leaves both counters as they
    are or is a play reset that sets both to 0; the frame update never
    decreases a counter, and whenever it increments [correct_count] it
    increments [total_attempts] too. *)
Theorem counters_ordered_monotone (s : Loop) (w : World) :
  reachable fuel s w ->
  0 <= Game.correct_count (game s) <= Game.total_attempts (game s) /\
  (forall e s' w',
     handle_event fuel e s w = Ok (s', w') ->
     Game.correct_count (game s') = Game.correct_count (game s) /\
     Game.total_attempts (game s') = Game.total_attempts (game s) \/
     Game.correct_count (game s') = 0 /\ Game.total_attempts (game s') = 0 /\
     Game.state (game s') = Game.playing) /\
  (forall ms s' w',
     tick fuel ms s w = Ok (s', w') ->
     Game.correct_count (game s) <= Game.correct_count (game s') /\
     Game.total_attempts (game s) <= Game.total_attempts (game s') /\
     Game.correct_count (game s') - Game.correct_count (game s)
       <= Game.total_attempts (game s') - Game.total_attempts (game s)).
Proof.
  intros Hr. destruct (reachable_invariant s w Hr) as [Hco _].
  pose proof Hco as (_ & _ & _ & _ & Hc & _).
  split; [exact Hc|]. split.
  - intros e s' w' He.
    by destruct (safe_Ok _ _ _ _ _ (handle_event_outcome fuel e s w Hco) He)
      as (_ & _ & _ & Hcnt).
  - intros ms s' w' Ht.
    destruct (tick_invariant ms s w s' w' Hco Ht) as (_ & _ & Hstep & _).
    unfold counters_step in Hstep. lia.
Qed.

End loop.

(** ** The off-screen sweep inside [update] *)

Section sweep_claim.
Context `{MathLib}.
Variable fuel : nat.

(** C6. After a frame update in [playing] no meteor of the game is below the
    bottom boundary.  In a frame without a hit: when every meteor of a
    non-empty set has fallen off, [total_attempts] grows by exactly 1 and the
    same update holds a new question with its new batch of meteors, the
    timer being left alone; otherwise exactly the fallen meteors are
    removed and [total_attempts] and the question are unchanged.  The
    update of a frame without a hit returns: always when some meteor stays
    or none was there, and, when all have fallen, whenever the draws after
    the new question pick three different positive offsets. *)
Theorem sweep_removes_and_respawns (dt : Q) (g : Game.t) (w : World) :
  coherent g ->
  Game.state g = Game.playing ->
  safe (Game.update fuel dt g) w
    (fun g' w' =>
       Forall (fun m => Game.off_screen m = false) (Game.meteors g') /\
       (frame_hit dt g = None ->
        let fallen := map (Meteor.update dt) (Game.meteors g) in
        timer w' = timer w /\
        Game.correct_count g' = Game.correct_count g /\
        if all_fell fallen
        then Game.total_attempts g' = Game.total_attempts g + 1 /\
             exists q labels,
               Game.current_question g' = Some q /\
               batch_for q (Game.meteors g') labels
        else Game.total_attempts g' = Game.total_attempts g /\
             Game.meteors g' = List.filter on_screen fallen /\
             Game.current_question g' = Game.current_question g)) /\
  (frame_hit dt g = None ->
   let fallen := map (Meteor.update dt) (Game.meteors g) in
   (all_fell fallen = false ->
    exists g', Game.update fuel dt g w = Ok (g', w)) /\
   (all_fell fallen = true ->
    (3 <= fuel)%nat ->
    settles (Game.qgen g) w ->
    exists g' w', Game.update fuel dt g w = Ok (g', w'))).
Proof.
  intros Hco Hs. pose proof Hco as (Hd & Hq & Hcq & Hms & Hc & Hp).
  destruct (moved_fields dt g) as (Ms & Mc & Mt & Mq & Mg & Md & Mb & Mm).
  split.
  2:{ intros Hhit fallen. subst fallen.
      rewrite (update_no_hit fuel dt g w Hs Hhit). cbn zeta.
      destruct (drop_spent_beam_fields (moved dt g))
        as (_ & _ & _ & _ & Dg & _ & _ & Dm).
      rewrite Dm, Mm. split.
      - intros ->. by eexists.
      - intros -> Hfuel (q & w1 & Hnq & H0 & H1 & H2).
        set (g1' := Game.set_total_attempts _ _).
        assert (Hq1 : Game.qgen g1' = Game.qgen g)
          by (unfold g1'; cbn; by rewrite Dg, Mg).
        rewrite <- Hq1 in Hnq. rewrite Hq in Hq1.
        destruct (make_new_question_returns fuel _ g1' w q w1 Hq1 Hnq Hfuel
                    H0 H1 H2) as (g2 & w2 & E).
        rewrite (bind_step _ _ _ _ _ E). by eexists _, _. }
  destruct (frame_hit dt g) as [m|] eqn:Hhit.
  - destruct (frame_hit_labelled dt g m Hms Hhit) as [a Ha].
    destruct Hcq as [q Hcq].
    apply returns_safe.
    eapply returns_weaken; [apply (update_hit fuel dt g w m q a Hs Hhit Hcq Ha)|].
    cbn beta. intros g' w' (_ & ps & _ & ->).
    destruct (level_check_fields
                (Game.set_beam None (after_hit (a =? q.2) ps (moved dt g))))
      as (_ & _ & _ & _ & _ & _ & Em & _).
    rewrite Em. split; [constructor|discriminate].
  - unfold safe. rewrite (update_no_hit fuel dt g w Hs Hhit). cbn zeta.
    set (g1 := drop_spent_beam (moved dt g)).
    destruct (drop_spent_beam_fields (moved dt g))
      as (Ds & Dc & Dt & Dq & Dg & Dd & Db & Dm).
    fold g1 in Ds, Dc, Dt, Dq, Dg, Dd, Db, Dm.
    rewrite Dm, Mm.
    destruct (all_fell (map (Meteor.update dt) (Game.meteors g))) eqn:Hfell.
    + set (g1' := Game.set_total_attempts (Game.total_attempts g1 + 1)
                    (Game.set_meteors [] g1)).
      assert (Hq1 : Game.qgen g1'
                    = QuestionGenerator.set_difficulty (Game.difficulty g))
        by (unfold g1'; cbn; by rewrite Dg, Mg).
      pose proof (make_new_question_safe fuel _ g1' w Hq1) as Hmk.
      unfold safe in Hmk. unfold bind.
      destruct (Game.make_new_question fuel g1' w) as [[g2 w2]|e]; [|exact Hmk].
      destruct Hmk as (Ht & q' & ms & labels & -> & _ & _ & _ & _ & Hb).
      unfold ret.
      destruct (level_check_fields (with_question q' ms g1'))
        as (Ec & Et & Eq & _ & _ & _ & Em & _).
      rewrite Ec, Et, Eq, Em. cbn [with_question Game.meteors Game.current_question
        Game.total_attempts Game.correct_count Game.set_question_in_progress
        Game.set_meteors Game.set_current_question].
      split.
      * destruct Hb as (Hplaced & _). clear -Hplaced.
        induction Hplaced as [|a m labels ms Hm _ IH]; constructor; [|exact IH].
        apply placed_on_screen in Hm. unfold on_screen in Hm.
        by destruct (Game.off_screen m).
      * intros _. split; [exact Ht|]. unfold g1'. cbn. rewrite Dc, Mc, Dt, Mt.
        split; [reflexivity|]. split; [reflexivity|]. by exists q', labels.
    + destruct (level_check_fields
                  (Game.set_meteors
                     (List.filter on_screen (map (Meteor.update dt) (Game.meteors g)))
                     g1))
        as (Ec & Et & Eq & _ & _ & _ & Em & _).
      rewrite Ec, Et, Eq, Em. cbn. rewrite Dc, Mc, Dt, Mt, Dq, Mq. split.
      * rewrite Forall_forall. intros m Hm.
        apply list_elem_of_In, filter_In in Hm as [_ Hm].
        unfold on_screen in Hm. by destruct (Game.off_screen m).
      * intros _. done.
Qed.

End sweep_claim.

(** ** Clicks *)

Lemma question_in_tier d (q : Question) :
  0 <= d <= 2 ->
  q.1.1 = q.1.2 * q.2 ->
  q.1.2 ∈ QuestionGenerator.divisors (QuestionGenerator.set_difficulty d) ->
  q.1.1 <= QuestionGenerator.max_dividend (QuestionGenerator.set_difficulty d) ->
  valid_question d q.
Proof.
  intros Hd Hm Hin Hb. destruct q as [[dividend divisor] quotient]. cbn in *.
  destruct (set_difficulty_table d Hd) as [Hmax Hdiv].
  apply Hdiv in Hin. rewrite Hmax in Hb. auto.
Qed.

Section clicks.
Variable fuel : nat.

Lemma reset_to_tier d g w :
  0 <= d <= 2 ->
  Game.difficulty g = d ->
  Game.qgen g = QuestionGenerator.set_difficulty d ->
  safe (g1 <- Game.reset_play fuel g ;; ret (Game.set_state Game.playing g1)) w
    (fun g' _ => play_reset_to d g').
Proof.
  intros Hd Ed Hq.
  eapply safe_bind; [apply (reset_play_safe fuel d g w Hq)|].
  cbn beta. intros g1 w1 (_ & q & ms & labels & -> & Hb & Hm & Hin & Hmax).
  apply safe_ret. unfold play_reset_to. destruct g; cbn in *. subst.
  repeat split; try reflexivity.
  exists q, labels. split; [reflexivity|]. split; [|exact Hb].
  by apply question_in_tier.
Qed.

Lemma start_play_returns d g w :
  Game.qgen g = QuestionGenerator.set_difficulty d ->
  (3 <= fuel)%nat ->
  settles (QuestionGenerator.set_difficulty d) w ->
  exists g' w',
    (g1 <- Game.reset_play fuel g ;; ret (Game.set_state Game.playing g1)) w
    = Ok (g', w').
Proof.
  intros Hq Hfuel (q & w1 & Hnq & H0 & H1 & H2).
  change (Game.reset_play fuel g) with (Game.make_new_question fuel (cleared g)).
  assert (Hq' : Game.qgen (cleared g) = QuestionGenerator.set_difficulty d)
    by (by destruct g).
  rewrite <- Hq' in Hnq.
  destruct (make_new_question_returns fuel d (cleared g) w q w1 Hq' Hnq Hfuel
              H0 H1 H2) as (g1 & w2 & E).
  rewrite (bind_step _ _ _ _ _ E). by eexists _, _.
Qed.

(** A play reset at tier [d] followed by the switch to [playing]: what it
    gives, and that it returns when the draws settle. *)
Lemma reset_to_tier_returns d g w :
  0 <= d <= 2 ->
  Game.difficulty g = d ->
  Game.qgen g = QuestionGenerator.set_difficulty d ->
  safe (g1 <- Game.reset_play fuel g ;; ret (Game.set_state Game.playing g1)) w
    (fun g' _ => play_reset_to d g') /\
  ((3 <= fuel)%nat ->
   settles (QuestionGenerator.set_difficulty d) w ->
   returns (g1 <- Game.reset_play fuel g ;; ret (Game.set_state Game.playing g1)) w
     (fun g' _ => play_reset_to d g')).
Proof.
  intros Hd Ed Hq.
  pose proof (reset_to_tier d g w Hd Ed Hq) as Hsafe.
  split; [exact Hsafe|]. intros Hfuel Hst.
  apply safe_returns; [exact Hsafe|]. by apply (start_play_returns d).
Qed.

(** C9. On the level-clear screen a click on "next" raises the difficulty by
    1, capped at 2, and a click on "retry" keeps it; both reset the play
    state (both counters 0, no beam, the old meteors replaced by the batch
    of a newly drawn question of the resulting tier) and switch to
    [playing].  The click returns with that state whenever the draws after
    the new question pick three different positive offsets; it raises no
    exception, and only the bound on the distractor loop can keep it from
    returning. *)
Theorem level_clear_next_retry (g : Game.t) (w : World) (pos : Z * Z) :
  coherent g ->
  Game.state g = Game.level_clear ->
  Game._buttons g = Some Game.level_clear_buttons ->
  (Rect.collidepoint next_button_rect pos = true ->
   let d := Z.min (Game.difficulty g + 1) 2 in
   safe (Game.handle_click fuel pos 1 g) w (fun g' _ => play_reset_to d g') /\
   ((3 <= fuel)%nat ->
    settles (QuestionGenerator.set_difficulty d) w ->
    returns (Game.handle_click fuel pos 1 g) w
      (fun g' _ => play_reset_to d g'))) /\
  (Rect.collidepoint retry_button_rect pos = true ->
   let d := Game.difficulty g in
   safe (Game.handle_click fuel pos 1 g) w (fun g' _ => play_reset_to d g') /\
   ((3 <= fuel)%nat ->
    settles (QuestionGenerator.set_difficulty d) w ->
    returns (Game.handle_click fuel pos 1 g) w
      (fun g' _ => play_reset_to d g'))).
Proof.
  intros (Hd & Hq & _) Hs Hb. unfold Game.handle_click. rewrite Hs, Hb.
  unfold Game.level_clear_buttons. cbn [Game.level_clear_click].
  fold next_button_rect retry_button_rect. split.
  - intros Hnext. cbn zeta. rewrite Hnext. cbn [fst].
    destruct (Z.ltb_spec (Game.difficulty g) 2) as [Hlt|Hge].
    + rewrite Z.min_l by lia.
      apply reset_to_tier_returns; [lia|reflexivity|reflexivity].
    + rewrite Z.min_r by lia.
      assert (Game.difficulty g = 2) as Ed by lia.
      apply reset_to_tier_returns; [lia|exact Ed|by rewrite Hq, Ed].
  - intros Hretry. cbn zeta.
    assert (Hnext : Rect.collidepoint next_button_rect pos = false).
    { destruct pos as [px py]. unfold Rect.collidepoint in *. cbn in *.
      apply andb_true_iff in Hretry as [Hretry _].
      apply andb_true_iff in Hretry as [Hretry _].
      apply andb_true_iff in Hretry as [Hretry _].
      apply Z.leb_le in Hretry. unfold WIDTH in *.
      destruct (Z.ltb_spec px (900 / 2 - 200 + 160)) as [Hlt|_];
        [change (900 / 2) with 450 in *; lia|].
      by rewrite andb_false_r. }
    rewrite Hnext, Hretry. cbn [fst].
    apply reset_to_tier_returns; [exact Hd|reflexivity|reflexivity].
Qed.

(** C4 (as amended). A primary click while [playing] always sets the beam to
    the ship's current position ([ship_x], [ship_y - 34]) and changes
    nothing else, whether or not a beam is in flight: an in-flight beam is
    replaced.  The game still holds at most one beam. *)
Theorem click_always_fires (g : Game.t) (pos : Z * Z) (button : Z) (w : World) :
  Game.state g = Game.playing ->
  Game.handle_click fuel pos button g w
  = Ok (Game.set_beam (Some (Game.ship_x g, inject_Z (Game.ship_y g - 34))) g, w).
Proof. intros Hs. unfold Game.handle_click. rewrite Hs. reflexivity. Qed.

(** C7 (as amended). Going to the menu, by escape during [playing] or by the
    menu button of the level-clear screen, only sets the state to [menu]:
    the timer and every entity stay as they are.  When the pending timer
    event is then handled in [menu], it disables the timer and runs the
    new-question flow, which replaces the question and the meteors by a new
    batch; the state stays [menu] and the counters stay as they are. *)
Theorem menu_keeps_timer (s : Loop) (w : World) :
  coherent (game s) ->
  (Game.state (game s) = Game.playing ->
   handle_event fuel (KEYDOWN K_ESCAPE) s w = Ok (to_menu s, w)) /\
  (forall pos,
     Game.state (game s) = Game.level_clear ->
     Game._buttons (game s) = Some Game.level_clear_buttons ->
     Rect.collidepoint menu_button_rect pos = true ->
     handle_event fuel (MOUSEBUTTONDOWN pos 1) s w = Ok (to_menu s, w)) /\
  safe (handle_event fuel USEREVENT_1 (to_menu s)) w
    (fun s' w' =>
       timer w' = 0 /\
       Game.state (game s') = Game.menu /\
       exists q ms labels,
         game s' = with_question q ms (game (to_menu s)) /\
         batch_for q ms labels).
Proof.
  intros Hco. pose proof Hco as (Hd & Hq & _). split; [|split].
  - intros Hs. cbn [handle_event]. change (K_ESCAPE =? K_ESCAPE) with true.
    cbn iota. rewrite Hs. reflexivity.
  - intros pos Hs Hb Hmenu. cbn [handle_event]. change (1 =? 1) with true.
    cbn iota. unfold bind, Game.handle_click. rewrite Hs, Hb.
    unfold Game.level_clear_buttons. cbn [Game.level_clear_click].
    fold next_button_rect retry_button_rect menu_button_rect.
    assert (Hothers : Rect.collidepoint next_button_rect pos = false /\
                      Rect.collidepoint retry_button_rect pos = false).
    { destruct pos as [px py]. unfold Rect.collidepoint in *. cbn in *.
      apply andb_true_iff in Hmenu as [Hmenu _].
      apply andb_true_iff in Hmenu as [Hmenu _].
      apply andb_true_iff in Hmenu as [Hmenu _].
      apply Z.leb_le in Hmenu. unfold WIDTH in *.
      destruct (Z.ltb_spec px (900 / 2 - 200 + 160)) as [Hlt|_];
        [change (900 / 2) with 450 in *; lia|].
      destruct (Z.ltb_spec px (900 / 2 - 20 + 160)) as [Hlt|_];
        [change (900 / 2) with 450 in *; lia|].
      by rewrite !andb_false_r. }
    destruct Hothers as [-> ->]. rewrite Hmenu. reflexivity.
  - cbn [handle_event].
    eapply safe_bind with (P := fun _ w1 => timer w1 = 0).
    { unfold safe, set_timer. reflexivity. }
    cbn beta. intros _ w1 Ht1.
    eapply safe_bind.
    { apply (make_new_question_safe fuel (Game.difficulty (game s))).
      cbn. exact Hq. }
    cbn beta. intros g' w' (Ht & q & ms & labels & -> & _ & _ & _ & _ & Hb).
    apply safe_ret. cbn [game]. split; [congruence|]. split; [reflexivity|].
    by exists q, ms, labels.
Qed.

End clicks.

(** ** Runs of the main loop *)

Section traces.
Context `{MathLib}.
Variable fuel : nat.

Lemma run_frames_reachable frames s w s' w' :
  reachable fuel s w ->
  Forall (fun f : Frame => 0 <= f.1) frames ->
  run_frames fuel frames s w = Ok (s', w') ->
  reachable fuel s' w'.
Proof.
  intros Hr Hms. revert s w Hr.
  induction Hms as [|f frames Hf _ IH]; intros s w Hr Hrun;
    unfold run_frames in Hrun; cbn [for_each] in Hrun.
  - inv_ret Hrun. exact Hr.
  - inv_bind Hrun. apply (IH a w0); [|exact Hrun].
    by apply (reach_frame fuel s w f.1 f.2).
Qed.

Lemma run_eq frames :
  run fuel frames = bind (start fuel) (fun s => run_frames fuel frames s).
Proof. exact (eq_refl (bind (start fuel) (fun s => run_frames fuel frames s))). Qed.

Lemma run_reachable frames w0 s w :
  Forall (fun f : Frame => 0 <= f.1) frames ->
  run fuel frames w0 = Ok (s, w) ->
  reachable fuel s w.
Proof.
  intros Hms Hrun. rewrite run_eq in Hrun. inv_bind Hrun.
  apply (run_frames_reachable frames a w1); [|exact Hms|exact Hrun].
  by apply (reach_start fuel w0).
Qed.

End traces.

(** * Instances on concrete runs *)

Ltac frames_nonneg := repeat constructor; cbn; lia.

Lemma s_playing_reachable : @reachable rational_math 10 s_playing (world_at 43 0).
Proof.
  apply (@run_reachable rational_math 10 frames_playing (world_at 0 0));
    [frames_nonneg|]. vm_compute. reflexivity.
Defined.

Lemma s_beam_reachable : @reachable rational_math 10 s_beam (world_at 43 0).
Proof.
  apply (@run_reachable rational_math 10 frames_beam (world_at 0 0));
    [frames_nonneg|]. vm_compute. reflexivity.
Defined.

Lemma s_hit_reachable : @reachable rational_math 10 s_hit (world_at 163 450).
Proof.
  apply (@run_reachable rational_math 10 frames_hit (world_at 0 0));
    [frames_nonneg|]. vm_compute. reflexivity.
Defined.

Lemma s_escape_reachable : @reachable rational_math 10 s_escape (world_at 163 450).
Proof.
  apply (@run_reachable rational_math 10 frames_escape (world_at 0 0));
    [frames_nonneg|]. vm_compute. reflexivity.
Defined.

Lemma s_clear_reachable : @reachable rational_math 10 s_clear (world_at 2866 450).
Proof.
  apply (@run_reachable rational_math 10 frames_clear (world_at 0 0));
    [frames_nonneg|]. vm_compute. reflexivity.
Defined.

Lemma s_aim_reachable : @reachable rational_math 10 s_aim (world_at 2746 0).
Proof.
  apply (@run_reachable rational_math 10 frames_aim (world_at 0 0));
    [frames_nonneg|]. vm_compute. reflexivity.
Defined.

Lemma s_shot_reachable : @reachable rational_math 10 s_shot (world_at 2746 0).
Proof.
  apply (@reach_event rational_math 10 s_aimed (world_at 2746 0)
           (MOUSEBUTTONDOWN (0, 0) 1)); [|reflexivity].
  apply (@reach_event rational_math 10 s_aim (world_at 2746 0)
           (MOUSEMOTION (335, 0))); [|reflexivity].
  exact s_aim_reachable.
Defined.


(** ** The theorems at the concrete runs *)

Lemma next_question_valid_witness :
  0 <= 1 <= 2 /\
  returns (QuestionGenerator.next_question (QuestionGenerator.init 1))
    (world_at 0 0) (fun q _ => valid_question 1 q).
Proof.
  assert (Hd : 0 <= 1 <= 2) by lia.
  split; [exact Hd|]. exact (proj1 (next_question_valid 1 (world_at 0 0) Hd)).
Defined.

Lemma on_meteor_hit_scores_witness :
  Game.current_question (game s_beam) = Some (16, 4, 4) /\
  label m_first = Some 4 /\
  returns (@Game.on_meteor_hit rational_math m_first (game s_beam)) (world_at 43 0)
    (fun g' _ =>
       Game.total_attempts g' = 1 /\ Game.correct_count g' = 1 /\
       Game.meteors g' = [] /\ length (Game.particles g') = 30%nat).
Proof.
  assert (Hq : Game.current_question (game s_beam) = Some (16, 4, 4))
    by reflexivity.
  assert (Ha : label m_first = Some 4) by reflexivity.
  split; [exact Hq|]. split; [exact Ha|].
  eapply returns_weaken;
    [exact (@on_meteor_hit_scores rational_math m_first (game s_beam)
              (world_at 43 0) 16 4 4 4 Hq Ha)|].
  cbn beta. intros g' w' (Ht & Hm & Hc & _).
  destruct (Hc eq_refl) as [Hc1 Hp]. auto.
Defined.

Lemma make_new_question_four_distinct_witness :
  Game.qgen Game.blank = QuestionGenerator.set_difficulty 0 /\
  safe (Game.make_new_question 10 Game.blank) (world_at 0 0)
    (fun g' _ => length (Game.meteors g') = 4%nat) /\
  exists g' w',
    Game.make_new_question 10 Game.blank (world_at 0 0) = Ok (g', w') /\
    map label (Game.meteors g') = [Some 1; Some 4; Some 2; Some 3] /\
    Game.current_question g' = Some (8, 4, 2).
Proof.
  assert (Hq : Game.qgen Game.blank = QuestionGenerator.set_difficulty 0)
    by reflexivity.
  split; [exact Hq|]. split.
  - eapply safe_weaken;
      [exact (proj1 (make_new_question_four_distinct 10 0 Game.blank
                       (world_at 0 0) Hq))|].
    cbn beta. intros g' w' (dividend & divisor & quotient & labels & _ & Hlen & _).
    exact Hlen.
  - eexists _, _. split; [vm_compute; reflexivity|]. split; reflexivity.
Defined.

Lemma click_always_fires_witness :
  Game.state (game s_beam) = Game.playing /\
  Game.handle_click 10 (0, 0) 1 (game s_beam) (world_at 43 0)
  = Ok (Game.set_beam (Some (145, inject_Z 536)) (game s_beam), world_at 43 0).
Proof.
  assert (Hs : Game.state (game s_beam) = Game.playing) by reflexivity.
  split; [exact Hs|].
  exact (click_always_fires 10 (game s_beam) (0, 0) 1 (world_at 43 0) Hs).
Defined.

Lemma correct_count_capped_witness :
  @reachable rational_math 10 s_shot (world_at 2746 0) /\
  Game.state (game s_shot) = Game.playing /\
  Game.correct_count (game s_shot) = 19 /\
  Game.current_question (game s_shot) = Some (8, 4, 2) /\
  (exists m, frame_hit (inject_Z 550 / 1000) (game s_shot) = Some m /\
             label m = Some 2) /\
  exists s' w',
    @tick rational_math 10 550 s_shot (world_at 2746 0) = Ok (s', w') /\
    Game.correct_count (game s') = 20 /\
    Game.state (game s') = Game.level_clear.
Proof.
  assert (Hs : Game.state (game s_shot) = Game.playing) by reflexivity.
  assert (Hc : Game.correct_count (game s_shot) = TARGET_CORRECT - 1)
    by reflexivity.
  assert (Hq : Game.current_question (game s_shot) = Some (8, 4, 2))
    by reflexivity.
  assert (Hhit : exists m, frame_hit (inject_Z 550 / 1000) (game s_shot) = Some m /\
                           label m = Some 2).
  { eexists. split; reflexivity. }
  split; [exact s_shot_reachable|]. split; [exact Hs|]. split; [exact Hc|].
  split; [exact Hq|]. split; [exact Hhit|].
  destruct Hhit as (m & Hm & Hl).
  destruct (@correct_count_capped rational_math 10 s_shot (world_at 2746 0)
              s_shot_reachable Hs) as (_ & _ & Hswitch).
  exact (Hswitch 550 m (8, 4, 2) Hc Hm Hq Hl).
Defined.

Lemma sweep_removes_and_respawns_witness :
  coherent (game s_playing) /\
  Game.state (game s_playing) = Game.playing /\
  frame_hit 20 (game s_playing) = None /\
  all_fell (map (Meteor.update 20) (Game.meteors (game s_playing))) = true /\
  exists g' w',
    @Game.update rational_math 10 20 (game s_playing) (world_at 43 0)
    = Ok (g', w') /\
    Game.total_attempts g' = Game.total_attempts (game s_playing) + 1 /\
    timer w' = 0 /\
    Forall (fun m => Game.off_screen m = false) (Game.meteors g') /\
    exists q labels,
      Game.current_question g' = Some q /\
      batch_for q (Game.meteors g') labels.
Proof.
  assert (Hco : coherent (game s_playing))
    by exact (proj1 (@reachable_invariant rational_math 10 s_playing
                       (world_at 43 0) s_playing_reachable)).
  assert (Hs : Game.state (game s_playing) = Game.playing) by reflexivity.
  assert (Hhit : frame_hit 20 (game s_playing) = None) by reflexivity.
  assert (Hfell : all_fell (map (Meteor.update 20) (Game.meteors (game s_playing)))
                  = true) by reflexivity.
  split; [exact Hco|]. split; [exact Hs|]. split; [exact Hhit|].
  split; [exact Hfell|].
  destruct (@Game.update rational_math 10 20 (game s_playing) (world_at 43 0))
    as [[g' w']|e] eqn:Hup; [|vm_compute in Hup; discriminate Hup].
  exists g', w'. split; [reflexivity|].
  destruct (safe_Ok _ _ _ _ _
              (proj1 (@sweep_removes_and_respawns rational_math 10 20
                        (game s_playing) (world_at 43 0) Hco Hs)) Hup)
    as [Hon Hsweep].
  specialize (Hsweep Hhit). cbn zeta in Hsweep.
  rewrite Hfell in Hsweep. destruct Hsweep as (Ht & _ & Ha & Hq).
  split; [exact Ha|]. split; [exact Ht|]. split; [exact Hon|exact Hq].
Defined.

Lemma menu_keeps_timer_witness :
  coherent (game s_hit) /\
  Game.state (game s_hit) = Game.playing /\
  handle_event 10 (KEYDOWN K_ESCAPE) s_hit (world_at 163 450)
  = Ok (to_menu s_hit, world_at 163 450).
Proof.
  assert (Hco : coherent (game s_hit))
    by exact (proj1 (@reachable_invariant rational_math 10 s_hit (world_at 163 450)
                       s_hit_reachable)).
  assert (Hs : Game.state (game s_hit) = Game.playing) by reflexivity.
  split; [exact Hco|]. split; [exact Hs|].
  exact (proj1 (menu_keeps_timer 10 s_hit (world_at 163 450) Hco) Hs).
Defined.

Lemma fallback_iff_all_rejected_witness :
  let w := {| tape := fun _ => 11; pos := 0; timer := 0 |} in
  0 <= 1 <= 2 /\
  random.choice (QuestionGenerator.divisors (QuestionGenerator.init 1)) w
    = Ok (9, advance 1 w) /\
  accepts 9 (QuestionGenerator.max_dividend (QuestionGenerator.init 1)) 1 = true.
Proof.
  intros w.
  assert (Hd : 0 <= 1 <= 2) by lia.
  assert (Hch : random.choice
                  (QuestionGenerator.divisors (QuestionGenerator.init 1)) w
                = Ok (9, advance 1 w)) by reflexivity.
  split; [exact Hd|]. split; [exact Hch|].
  exact (proj1 (fallback_iff_all_rejected 1 w (advance 1 w) 9 Hd Hch)).
Defined.

Lemma level_clear_next_retry_witness :
  @reachable rational_math 10 s_clear (world_at 2866 450) /\
  Game.state (game s_clear) = Game.level_clear /\
  Game.correct_count (game s_clear) = 20 /\
  Game.difficulty (game s_clear) = 0 /\
  Rect.collidepoint next_button_rect (300, 360) = true /\
  (exists g' w',
     Game.handle_click 10 (300, 360) 1 (game s_clear) (world_at 2866 450)
     = Ok (g', w') /\
     play_reset_to 1 g') /\
  settles (QuestionGenerator.set_difficulty 1) lucky_world /\
  returns (Game.handle_click 10 (300, 360) 1 (game s_clear)) lucky_world
    (fun g' _ => play_reset_to 1 g').
Proof.
  destruct (@reachable_invariant rational_math 10 s_clear (world_at 2866 450)
              s_clear_reachable) as [Hco Hbuttons].
  assert (Hs : Game.state (game s_clear) = Game.level_clear) by reflexivity.
  assert (Hp : Rect.collidepoint next_button_rect (300, 360) = true)
    by reflexivity.
  assert (Hst : settles (QuestionGenerator.set_difficulty 1) lucky_world).
  { eexists _, _. split; [vm_compute; reflexivity|].
    split; [reflexivity|]. split; reflexivity. }
  split; [exact s_clear_reachable|]. split; [exact Hs|].
  split; [reflexivity|]. split; [reflexivity|]. split; [exact Hp|].
  split; [|split; [exact Hst|]].
  - destruct (Game.handle_click 10 (300, 360) 1 (game s_clear)
                (world_at 2866 450))
      as [[g' w']|e] eqn:Hclick; [|vm_compute in Hclick; discriminate Hclick].
    exists g', w'. split; [reflexivity|].
    exact (safe_Ok _ _ _ _ _
             (proj1 (proj1 (level_clear_next_retry 10 (game s_clear)
                              (world_at 2866 450) (300, 360) Hco Hs
                              (Hbuttons Hs)) Hp)) Hclick).
  - assert (Hfuel : (3 <= 10)%nat) by lia.
    exact (proj2 (proj1 (level_clear_next_retry 10 (game s_clear) lucky_world
                           (300, 360) Hco Hs (Hbuttons Hs)) Hp) Hfuel Hst).
Defined.

Lemma counters_ordered_monotone_witness :
  @reachable rational_math 10 s_hit (world_at 163 450) /\
  0 <= Game.correct_count (game s_hit) <= Game.total_attempts (game s_hit).
Proof.
  split; [exact s_hit_reachable|].
  exact (proj1 (@counters_ordered_monotone rational_math 10 s_hit
                  (world_at 163 450) s_hit_reachable)).
Defined.

(** ** Where the specification and the program part *)

(** C4 as stated fails.  In the reachable state [s_beam] the game is
    [playing] and a beam is in flight at (145, 176); a primary click replaces
    it by a new beam at the ship, (145, 536). *)
Lemma click_replaces_beam_in_flight :
  @reachable rational_math 10 s_beam (world_at 43 0) /\
  Game.state (game s_beam) = Game.playing /\
  (exists b, Game.beam (game s_beam) = Some b /\ b.1 = 145 /\ (b.2 == 176)%Q) /\
  (exists s',
     handle_event 10 (MOUSEBUTTONDOWN (0, 0) 1) s_beam (world_at 43 0)
       = Ok (s', world_at 43 0) /\
     Game.beam (game s') = Some (145, inject_Z 536) /\
     Game.beam (game s') <> Game.beam (game s_beam)) /\
  ~ (forall g pos w g' w',
       Game.state g = Game.playing ->
       is_Some (Game.beam g) ->
       Game.handle_click 10 pos 1 g w = Ok (g', w') ->
       Game.beam g' = Game.beam g).
Proof.
  split; [exact s_beam_reachable|]. split; [reflexivity|]. split.
  { eexists. split; [reflexivity|]. split; reflexivity. }
  split.
  { eexists. split; [reflexivity|]. split; [reflexivity|]. discriminate. }
  intros Hclaim.
  specialize (Hclaim (game s_beam) (0, 0) (world_at 43 0) _ _ eq_refl
                (ltac:(by eexists)) eq_refl).
  discriminate Hclaim.
Qed.

(** C7 as stated fails.  [s_escape] is reached by a hit followed by escape:
    the state is [menu], no meteor is left and the timer set by the hit is
    still pending (450).  Handling its event in [menu] disables the timer
    and gives the game a new question and four new meteors. *)
Lemma timer_fires_in_menu :
  @reachable rational_math 10 s_escape (world_at 163 450) /\
  Game.state (game s_escape) = Game.menu /\
  Game.meteors (game s_escape) = [] /\
  Game.current_question (game s_escape) = Some (16, 4, 4) /\
  exists s',
    handle_event 10 USEREVENT_1 s_escape (world_at 163 450)
      = Ok (s', world_at 190 0) /\
    Game.state (game s') = Game.menu /\
    length (Game.meteors (game s')) = 4%nat /\
    Game.current_question (game s') = Some (4, 4, 1) /\
    game s' <> game s_escape.
Proof.
  split; [exact s_escape_reachable|]. split; [reflexivity|].
  split; [reflexivity|]. split; [reflexivity|].
  eexists. split; [vm_compute; reflexivity|]. split; [reflexivity|].
  split; [reflexivity|]. split; [reflexivity|]. discriminate.
Qed.

(** * Further properties *)

Lemma safe_and {A} (m : M A) w (P Q : A -> World -> Prop) :
  safe m w P -> safe m w Q -> safe m w (fun a w' => P a w' /\ Q a w').
Proof. unfold safe. destruct (m w) as [[a w']|e]; auto. Qed.

Lemma returns_and {A} (m : M A) w (P Q : A -> World -> Prop) :
  returns m w P -> returns m w Q -> returns m w (fun a w' => P a w' /\ Q a w').
Proof.
  intros (a & w1 & E & HP) (a' & w1' & E' & HQ).
  rewrite E in E'. injection E' as <- <-. by exists a, w1.
Qed.

Lemma random_unit w :
  returns random.random w
    (fun u w' => (0 <= u)%Q /\ (u < 1)%Q /\ timer w' = timer w).
Proof.
  unfold random.random.
  eapply returns_bind; [apply randbelow_returns; reflexivity|].
  cbn beta. intros k w1 (Hk & Ht & _). apply returns_ret.
  split; [|split; [|exact Ht]].
  - unfold Qle. cbn. lia.
  - unfold Qlt. cbn. lia.
Qed.

Lemma uniform_between a b w :
  (a <= b)%Q ->
  returns (random.uniform a b) w
    (fun u w' => (a <= u)%Q /\ (u <= b)%Q /\ timer w' = timer w).
Proof.
  intros Hab. unfold random.uniform.
  eapply returns_bind; [apply random_unit|].
  cbn beta. intros u w1 (Hu0 & Hu1 & Ht). apply returns_ret.
  split; [|split; [|exact Ht]]; nra.
Qed.

(** ** Distractors stay next to the quotient *)

Lemma gen_answers_near fuel quotient answers w :
  1 <= quotient ->
  Forall (near quotient) answers ->
  safe (Game.gen_answers fuel quotient answers) w
    (fun r _ => Forall (near quotient) r).
Proof.
  intros Hq. revert answers w.
  induction fuel as [|fuel IH]; intros answers w Hnear;
    cbn [Game.gen_answers]; destruct (length answers <? 4)%nat;
    try reflexivity; try (by apply safe_ret).
  eapply safe_bind.
  { apply returns_safe, choice_returns. discriminate. }
  cbn beta. intros off w1 (Hoff & _).
  assert (Hrange : -3 <= off <= 4).
  { unfold Game.offsets in Hoff. rewrite !elem_of_cons, elem_of_nil in Hoff. lia. }
  eapply safe_bind with (P := fun c _ => near quotient c).
  { destruct (Z.ltb_spec (quotient + off) 1) as [Hc|Hc].
    - apply returns_safe. eapply returns_weaken; [apply randint_returns; lia|].
      cbn beta. intros k w2 (Hk & _). unfold near. lia.
    - apply safe_ret. unfold near. lia. }
  cbn beta. intros c w2 Hc.
  destruct (bool_decide (c ∈ answers)); apply IH; [exact Hnear|].
  apply Forall_app. split; [exact Hnear|]. by apply Forall_singleton.
Qed.

(** ** Meteors are placed in four separate lanes *)

Lemma lane_w_value : (Game.lane_w == 190)%Q.
Proof. reflexivity. Qed.

Lemma int_of_float_between (q : Q) (lo hi : Z) :
  0 <= lo -> (inject_Z lo <= q)%Q -> (q <= inject_Z hi)%Q ->
  lo <= int_of_float q <= hi.
Proof.
  intros Hlo Hl Hh. unfold int_of_float.
  assert (H0 : (0 <= q)%Q).
  { apply Qle_trans with (inject_Z lo); [|exact Hl].
    change 0%Q with (inject_Z 0). by rewrite <- Zle_Qle. }
  apply Qle_bool_iff in H0. rewrite H0.
  split.
  - rewrite <- (Qfloor_Z lo). by apply Qfloor_resp_le.
  - rewrite <- (Qfloor_Z hi). by apply Qfloor_resp_le.
Qed.

Lemma place_meteor_lane quotient i a ms w :
  0 <= i ->
  returns (Game.place_meteor (i, a) ms) w
    (fun r _ => exists m, r = ms ++ [m] /\ lane_fresh quotient (i, a) m).
Proof.
  intros Hi. unfold Game.place_meteor.
  eapply returns_bind; [apply (uniform_between (-20) 20); lra|].
  cbn beta. intros u w1 (Hu1 & Hu2 & _).
  eapply returns_bind; [apply randint_returns; lia|].
  cbn beta. intros y w2 (Hy & _).
  eapply returns_bind.
  { apply (uniform_between (inject_Z FALL_SPEED_MIN) (inject_Z FALL_SPEED_MAX)).
    rewrite <- Zle_Qle. unfold FALL_SPEED_MIN, FALL_SPEED_MAX. lia. }
  cbn beta. intros sp w3 (Hs1 & Hs2 & _).
  apply returns_ret. eexists. split; [reflexivity|].
  unfold lane_fresh, in_lane, rect_synced. cbn.
  split; [|split; [reflexivity|]; split; [by exists y|]; split; [reflexivity|];
           split; [exact Hs1|]; split; [exact Hs2|reflexivity]].
  apply int_of_float_between; [lia| |].
  - rewrite lane_w_value. unfold Game.margin.
    rewrite inject_Z_plus, inject_Z_mult. clear Hs1 Hs2. generalize (inject_Z i). intros qi.
    setoid_replace (190 / 2)%Q with 95%Q using relation Qeq by reflexivity.
    change (inject_Z 145) with 145%Q. change (inject_Z 190) with 190%Q.
    change (inject_Z 70) with 70%Q. lra.
  - rewrite lane_w_value. unfold Game.margin.
    rewrite inject_Z_plus, inject_Z_mult. clear Hs1 Hs2. generalize (inject_Z i). intros qi.
    setoid_replace (190 / 2)%Q with 95%Q using relation Qeq by reflexivity.
    change (inject_Z 185) with 185%Q. change (inject_Z 190) with 190%Q.
    change (inject_Z 70) with 70%Q. lra.
Qed.

Lemma place_meteors_lanes quotient l ms w :
  Forall (fun ia : Z * Z => 0 <= ia.1) l ->
  returns (for_each l Game.place_meteor ms) w
    (fun r w' => timer w' = timer w /\
                 exists new, r = ms ++ new /\ Forall2 (lane_fresh quotient) l new).
Proof.
  intros Hl. revert ms w.
  induction Hl as [|[i a] l Hi _ IH]; intros ms w; cbn [for_each].
  - apply returns_ret. split; [reflexivity|]. exists [].
    split; [by rewrite app_nil_r|constructor].
  - eapply returns_bind.
    { apply returns_and; [apply (place_meteor_lane quotient i a ms w Hi)|
                          apply place_meteor_returns]. }
    cbn beta. intros r1 w1 ((m & -> & Hm) & Ht1 & _).
    eapply returns_weaken; [apply IH|].
    cbn beta. intros r w2 (Ht2 & new & -> & Hnew). split; [congruence|].
    exists (m :: new). split; [by rewrite <- app_assoc|]. by constructor.
Qed.

Lemma enumerate_indices {A} (l : list A) :
  Forall (fun ia : Z * A => 0 <= ia.1 < Z.of_nat (length l)) (enumerate l) /\
  StronglySorted (fun a b : Z * A => a.1 < b.1) (enumerate l).
Proof.
  unfold enumerate.
  assert (Hgen : forall k (l : list A),
            Forall (fun ia : Z * A => Z.of_nat k <= ia.1 < Z.of_nat (k + length l))
              (combine (map Z.of_nat (seq k (length l))) l) /\
            StronglySorted (fun a b : Z * A => a.1 < b.1)
              (combine (map Z.of_nat (seq k (length l))) l)).
  { clear l. intros k l. revert k.
    induction l as [|a l IH]; intros k; cbn; [split; constructor|].
    destruct (IH (S k)) as [Hb Hs]. split.
    - constructor; [cbn; lia|].
      eapply Forall_impl; [exact Hb|]. cbn. intros ia. lia.
    - constructor; [exact Hs|].
      eapply Forall_impl; [exact Hb|]. cbn. intros ia. lia. }
  destruct (Hgen 0%nat l) as [Hb Hs]. split; [|exact Hs].
  eapply Forall_impl; [exact Hb|]. cbn. intros ia. lia.
Qed.

Lemma lanes_apart quotient (l : list (Z * Z)) ms :
  Forall2 (lane_fresh quotient) l ms ->
  StronglySorted (fun a b : Z * Z => a.1 < b.1) l ->
  StronglySorted apart ms.
Proof.
  induction 1 as [|ia m l ms Hm Hrest IH]; intros Hs; [constructor|].
  apply StronglySorted_inv in Hs as [Hs Hlt].
  constructor; [by apply IH|].
  clear IH Hs. induction Hrest as [|ib m' l ms Hm' _ IH]; constructor.
  - destruct Hm as [Hl _], Hm' as [Hl' _]. unfold in_lane, apart in *.
    apply Forall_inv in Hlt. lia.
  - apply IH. by apply Forall_inv_tail in Hlt.
Qed.

Lemma lanes_sound quotient (l : list (Z * Z)) ms :
  Forall2 (lane_fresh quotient) l ms ->
  Forall (fun ia : Z * Z => 0 <= ia.1 < 4) l ->
  Forall (near quotient) (map snd l) ->
  Forall (sound_meteor quotient) ms.
Proof.
  induction 1 as [|ia m l ms Hm _ IH]; intros Hi Hn; [constructor|].
  apply Forall_cons_1 in Hi as [Hi Hi']. cbn in Hn.
  apply Forall_cons_1 in Hn as [Hn Hn'].
  constructor; [|by apply IH].
  destruct Hm as (Hl & Ht & _ & Hr & Hs1 & Hs2 & Hh).
  unfold sound_meteor, in_lane in *.
  repeat split; try assumption; try lia. by exists ia.2.
Qed.

Section rich.
Variable fuel : nat.

Lemma make_new_question_board d g w :
  Game.qgen g = QuestionGenerator.set_difficulty d ->
  safe (Game.make_new_question fuel g) w
    (fun g' w' =>
       timer w' = timer w /\
       exists q ms answers,
         g' = with_question q ms g /\
         question_sound d (Some q) ms /\
         length answers = 4%nat /\
         Forall2 (lane_fresh q.2) (enumerate answers) ms).
Proof.
  intros Hq. unfold Game.make_new_question. rewrite Hq.
  eapply safe_bind; [apply returns_safe, next_question_returns|].
  cbn beta. intros [[dividend divisor] quotient] w1 (Ht1 & Hmul & Hdiv & Hbound & Hquot).
  eapply safe_bind.
  { apply safe_and.
    - apply (gen_answers_safe fuel quotient [quotient]).
      + cbn. lia.
      + apply NoDup_singleton.
      + intros a Ha. apply list_elem_of_singleton in Ha. lia.
    - apply (gen_answers_near fuel quotient [quotient]); [lia|].
      apply Forall_singleton. unfold near. lia. }
  cbn beta. intros answers w2 ((Ht2 & Hlen & _) & Hnear).
  eapply safe_bind; [apply returns_safe, shuffle_returns|].
  cbn beta. intros shuffled w3 (Hperm & Ht3).
  destruct (enumerate_indices shuffled) as [Hidx Hsorted].
  eapply safe_bind.
  { apply returns_safe, (place_meteors_lanes quotient).
    eapply Forall_impl; [exact Hidx|]. cbn. intros ia. lia. }
  cbn beta. intros ms w4 (Ht4 & new & -> & Hlanes).
  apply safe_ret. split; [congruence|].
  exists (dividend, divisor, quotient), new, shuffled. cbn [app].
  assert (Hlen' : length shuffled = 4%nat) by (by rewrite Hperm).
  split; [reflexivity|]. split; [|split; [exact Hlen'|exact Hlanes]].
  exists (dividend, divisor, quotient). cbn [fst snd].
  repeat split; try assumption; try lia.
  apply (lanes_sound quotient (enumerate shuffled)); [exact Hlanes| |].
  - eapply Forall_impl; [exact Hidx|]. cbn. intros ia. lia.
  - rewrite enumerate_snd, Hperm. exact Hnear.
Qed.

Lemma make_new_question_rich d g w :
  Game.qgen g = QuestionGenerator.set_difficulty d ->
  safe (Game.make_new_question fuel g) w
    (fun g' w' =>
       timer w' = timer w /\
       exists q ms,
         g' = with_question q ms g /\
         question_sound d (Some q) ms /\
         length ms = 4%nat /\
         StronglySorted apart ms).
Proof.
  intros Hq. eapply safe_weaken; [by apply (make_new_question_board d)|].
  cbn beta. intros g' w' (Ht & q & ms & answers & -> & Hqs & Hlen & Hlanes).
  split; [exact Ht|]. exists q, ms. split; [reflexivity|]. split; [exact Hqs|].
  split.
  - apply Forall2_length in Hlanes. rewrite <- Hlanes.
    rewrite <- (length_map snd), enumerate_snd. exact Hlen.
  - apply (lanes_apart q.2 (enumerate answers)); [exact Hlanes|].
    apply enumerate_indices.
Qed.

End rich.

(** ** Particles *)

Lemma newborn_lively p : newborn p -> lively p.
Proof.
  intros (Ha & Hl1 & Hl2 & Hs1 & Hs2). unfold lively. rewrite Ha.
  repeat split; try assumption; lra.
Qed.

Lemma Qlt_bool_lt a b : Qlt_bool a b = true -> (a < b)%Q.
Proof.
  unfold Qlt_bool. intros Hb. apply negb_true_iff in Hb.
  apply Qnot_le_lt. intros Hle. apply Qle_bool_iff in Hle. congruence.
Qed.

Lemma Qlt_bool_ge a b : Qlt_bool a b = false -> (b <= a)%Q.
Proof.
  unfold Qlt_bool. intros Hb. apply negb_false_iff in Hb.
  by apply Qle_bool_iff.
Qed.

Lemma particles_moved_lively dt ps :
  (0 <= dt)%Q ->
  Forall lively ps ->
  Forall lively (List.filter Game.alive (map (ExplosionParticle.update dt) ps)).
Proof.
  intros Hdt Hps. rewrite Forall_forall in *. intros p Hp.
  apply list_elem_of_In, filter_In in Hp as [Hp Halive].
  apply in_map_iff in Hp as (p0 & <- & Hp0).
  apply list_elem_of_In, Hps in Hp0 as (Ha & _ & Hl & Hs1 & Hs2).
  unfold Game.alive in Halive. apply Qlt_bool_lt in Halive.
  unfold lively. cbn in *. repeat split; try assumption. lra.
Qed.

Section particles.
Context `{MathLib}.

Lemma particle_init_newborn p w :
  returns (ExplosionParticle.init p) w (fun pt _ => newborn pt).
Proof.
  destruct p as [px py]. unfold ExplosionParticle.init.
  eapply returns_bind; [apply random_returns|]. cbn beta. intros r w1 _.
  eapply returns_bind; [apply uniform_returns|]. cbn beta. intros sp w2 _.
  eapply returns_bind; [apply (uniform_between (1 # 2) 1); lra|].
  cbn beta. intros lf w3 (Hl1 & Hl2 & _).
  eapply returns_bind; [apply (uniform_between 2 6); lra|].
  cbn beta. intros sz w4 (Hs1 & Hs2 & _).
  apply returns_ret. unfold newborn. cbn. auto.
Qed.

Lemma spawn_particles_newborn n meteor g w :
  returns (repeat_m n (Game.spawn_particle meteor) g) w
    (fun g' _ => exists ps, g' = Game.set_particles (Game.particles g ++ ps) g /\
                            Forall newborn ps).
Proof.
  revert g w. induction n as [|n IH]; intros g w; cbn [repeat_m].
  - apply returns_ret. exists []. split; [|constructor].
    rewrite app_nil_r. by destruct g.
  - unfold Game.spawn_particle at 1.
    eapply returns_bind with
      (P := fun g1 _ => exists p, g1 = Game.set_particles (Game.particles g ++ [p]) g
                                  /\ newborn p).
    { eapply returns_bind; [apply particle_init_newborn|].
      cbn beta. intros p w1 Hp. apply returns_ret. by exists p. }
    cbn beta. intros g1 w1 (p & -> & Hp).
    eapply returns_weaken; [apply IH|].
    cbn beta. intros g' w2 (ps & -> & Hps).
    exists (p :: ps). split; [|by constructor].
    cbn. by rewrite <- app_assoc.
Qed.

Lemma on_meteor_hit_newborn meteor g w q a :
  Game.current_question g = Some q ->
  label meteor = Some a ->
  returns (Game.on_meteor_hit meteor g) w
    (fun g' w' =>
       timer w' = 450 /\
       exists ps, g' = after_hit (a =? q.2) ps g /\ Forall newborn ps).
Proof.
  intros Hq Ha. destruct q as [[dividend divisor] quotient].
  unfold Game.on_meteor_hit. rewrite Hq.
  unfold int_of_str. unfold label in Ha. rewrite Ha.
  unfold bind at 1. unfold ret at 1. cbn [snd].
  destruct (a =? quotient).
  - eapply returns_bind; [apply spawn_particles_newborn|].
    cbn beta. intros g1 w1 (ps & -> & Hps).
    eexists _, _. split; [reflexivity|]. split; [reflexivity|].
    exists ps. split; [by destruct g|exact Hps].
  - eapply returns_bind; [apply spawn_particles_newborn|].
    cbn beta. intros g1 w1 (ps & -> & Hps).
    eexists _, _. split; [reflexivity|]. split; [reflexivity|].
    exists ps. split; [by destruct g|exact Hps].
Qed.

End particles.

(** ** Meteors keep their shape while they fall *)

Lemma sound_meteor_update quotient dt m :
  sound_meteor quotient m -> sound_meteor quotient (Meteor.update dt m).
Proof.
  intros (Hr & Hs1 & Hs2 & Hh & Hx & Ht). unfold sound_meteor, rect_synced in *.
  cbn. repeat split; try assumption; try lia.
  unfold Rect.set_center. by rewrite Hr.
Qed.

Lemma apart_map_update dt ms :
  StronglySorted apart ms -> StronglySorted apart (map (Meteor.update dt) ms).
Proof.
  induction 1 as [|m ms _ IH Hm]; cbn; constructor; [exact IH|].
  rewrite Forall_forall in *. intros m' Hm'.
  apply list_elem_of_In, in_map_iff in Hm' as (m0 & <- & Hm0).
  apply list_elem_of_In, Hm in Hm0. exact Hm0.
Qed.

Lemma apart_filter (f : Meteor.t -> bool) ms :
  StronglySorted apart ms -> StronglySorted apart (List.filter f ms).
Proof.
  induction 1 as [|m ms _ IH Hm]; cbn; [constructor|].
  destruct (f m); [|exact IH]. constructor; [exact IH|].
  rewrite Forall_forall in *. intros m' Hm'.
  apply list_elem_of_In, filter_In in Hm' as [Hm' _].
  by apply Hm, list_elem_of_In.
Qed.

Lemma filter_length_le {A} (f : A -> bool) (l : list A) :
  (length (List.filter f l) <= length l)%nat.
Proof. induction l as [|a l IH]; cbn; [lia|]. destruct (f a); cbn; lia. Qed.

(** ** The board stays tidy *)

Lemma question_sound_moved d question dt ms :
  question_sound d question ms ->
  question_sound d question (map (Meteor.update dt) ms).
Proof.
  intros (q & Hq & Hm & Hd & Hb & Hquot & Hms).
  exists q. repeat split; try assumption; try lia.
  rewrite Forall_forall in *. intros m Hin.
  apply list_elem_of_In, in_map_iff in Hin as (m0 & <- & Hm0).
  apply sound_meteor_update, Hms. by apply list_elem_of_In.
Qed.

Lemma question_sound_filter d question (f : Meteor.t -> bool) ms :
  question_sound d question ms ->
  question_sound d question (List.filter f ms).
Proof.
  intros (q & Hq & Hm & Hd & Hb & Hquot & Hms).
  exists q. repeat split; try assumption; try lia.
  rewrite Forall_forall in *. intros m Hin.
  apply list_elem_of_In, filter_In in Hin as [Hin _].
  by apply Hms, list_elem_of_In.
Qed.

Lemma question_sound_nil d question ms :
  question_sound d question ms -> question_sound d question [].
Proof.
  intros (q & Hq & Hm & Hd & Hb & Hquot & Hms).
  exists q. repeat split; try assumption; try lia. constructor.
Qed.

Lemma beam_after_move dt (beam : option (Z * Q)) :
  (0 <= dt)%Q ->
  (forall bx by_, beam = Some (bx, by_) ->
     40 <= bx <= WIDTH - 40 /\ (-40 <= by_)%Q /\ (by_ <= 536)%Q) ->
  forall bx by_,
    match beam with
    | Some (bx0, by0) =>
        if Qlt_bool (by0 - inject_Z 900 * dt) (-40) then None
        else Some (bx0, (by0 - inject_Z 900 * dt)%Q)
    | None => None
    end = Some (bx, by_) ->
    40 <= bx <= WIDTH - 40 /\ (-40 <= by_)%Q /\ (by_ <= 536)%Q.
Proof.
  intros Hdt Hb bx by_. destruct beam as [[bx0 by0]|]; [|discriminate].
  destruct (Hb bx0 by0 eq_refl) as (Hx & Hy1 & Hy2).
  destruct (Qlt_bool (by0 - inject_Z 900 * dt) (-40)) eqn:Hlt; [discriminate|].
  intros [= <- <-]. apply Qlt_bool_ge in Hlt.
  change (inject_Z 900) with 900%Q in *.
  split; [exact Hx|]. split; [exact Hlt|lra].
Qed.

Section tidy_update.
Context `{MathLib}.
Variable fuel : nat.

Lemma update_tidy dt g w :
  (0 <= dt)%Q ->
  coherent g ->
  tidy g w ->
  safe (Game.update fuel dt g) w (fun g' w' => tidy g' w').
Proof.
  intros Hdt Hco Ht. pose proof Hco as (Hd & Hq & _ & Hlab & _ & _).
  destruct Ht as (Hsx & Hsy & Hbs & Hbeam & Hboard & Hsorted & Hqs & Hps).
  pose proof (particles_moved_lively dt _ Hdt Hps) as Hps'.
  pose proof (question_sound_moved _ _ dt _ Hqs) as Hqs'.
  pose proof (apart_map_update dt _ Hsorted) as Hsorted'.
  pose proof (beam_after_move dt _ Hdt Hbeam) as Hbeam'.
  destruct (decide (Game.state g = Game.playing)) as [Hs|Hs].
  2:{ unfold safe. rewrite (update_not_playing fuel dt g w Hs).
      unfold tidy, tidy_of. destruct g; cbn in *. auto 10. }
  destruct (frame_hit dt g) as [m|] eqn:Hhit.
  - destruct (frame_hit_labelled dt g m Hlab Hhit) as [a Ha].
    destruct Hqs as (q & Hcq & Hqfacts).
    assert (Hcq' : Game.current_question (moved dt g) = Some q).
    { destruct (moved_fields dt g) as (_ & _ & _ & -> & _). exact Hcq. }
    destruct (on_meteor_hit_newborn m (moved dt g) w q a Hcq' Ha)
      as (g1 & w1 & Hon & Htm & ps & -> & Hnew).
    unfold safe.
    rewrite (update_hit_eq fuel dt g w m _ w1 Hs Hhit Hon eq_refl).
    assert (Hnew' : Forall lively ps).
    { eapply Forall_impl; [exact Hnew|]. apply newborn_lively. }
    assert (Hall : Forall lively
                     (List.filter Game.alive
                        (map (ExplosionParticle.update dt) (Game.particles g)) ++ ps))
      by (apply Forall_app; by split).
    apply question_sound_nil in Hqs'.
    unfold tidy, tidy_of, level_check, after_hit, moved.
    destruct g; cbn in *. subst.
    destruct beam as [[bx by_]|], (a =? q.2);
      cbn; destruct (TARGET_CORRECT <=? _); cbn;
      (split; [exact Hsx|]; split; [reflexivity|]; split; [reflexivity|];
       split; [discriminate|]; split; [by left|]; split; [constructor|];
       split; [exact Hqs'|exact Hall]).
  - unfold safe. rewrite (update_no_hit fuel dt g w Hs Hhit). cbn zeta.
    set (g1 := drop_spent_beam (moved dt g)).
    assert (F1 : Game.ship_x g1 = Game.ship_x g /\
                 Game.ship_y g1 = Game.ship_y g /\
                 Game.beam_speed g1 = Game.beam_speed g /\
                 Game.difficulty g1 = Game.difficulty g /\
                 Game.qgen g1 = Game.qgen g /\
                 Game.current_question g1 = Game.current_question g /\
                 Game.correct_count g1 = Game.correct_count g /\
                 Game.meteors g1 = map (Meteor.update dt) (Game.meteors g) /\
                 Game.particles g1
                 = List.filter Game.alive
                     (map (ExplosionParticle.update dt) (Game.particles g)) /\
                 Game.beam g1
                 = match Game.beam g with
                   | Some (bx0, by0) =>
                       if Qlt_bool (by0 - inject_Z 900 * dt) (-40) then None
                       else Some (bx0, (by0 - inject_Z 900 * dt)%Q)
                   | None => None
                   end).
    { unfold g1, drop_spent_beam, moved. destruct g; cbn in *. subst.
      destruct beam as [[bx by_]|]; cbn; [|done].
      destruct (Qlt_bool _ _); cbn; done. }
    destruct F1 as (Fx & Fy & Fs & Fd & Fg & Fq & Fc & Fm & Fp & Fb).
    rewrite Fm.
    destruct (all_fell (map (Meteor.update dt) (Game.meteors g))) eqn:Hfell.
    + set (g1' := Game.set_total_attempts (Game.total_attempts g1 + 1)
                    (Game.set_meteors [] g1)).
      assert (Hq1 : Game.qgen g1'
                    = QuestionGenerator.set_difficulty (Game.difficulty g))
        by (unfold g1'; cbn; by rewrite Fg).
      pose proof (make_new_question_rich fuel _ g1' w Hq1) as Hmk.
      unfold safe in Hmk. unfold bind.
      destruct (Game.make_new_question fuel g1' w) as [[g2 w2]|e]; [|exact Hmk].
      destruct Hmk as (Htm & q' & ms & -> & Hqs2 & Hlen & Hsorted2).
      unfold ret, tidy, tidy_of, level_check, with_question, g1'.
      destruct (TARGET_CORRECT <=? _); cbn;
        rewrite ?Fx, ?Fy, ?Fs, ?Fd, ?Fp, ?Fb;
        (split; [exact Hsx|]; split; [exact Hsy|]; split; [exact Hbs|];
         split; [exact Hbeam'|]; split; [right; lia|]; split; [exact Hsorted2|];
         split; [exact Hqs2|exact Hps']).
    + unfold tidy, tidy_of, level_check.
      assert (Hboard' :
                List.filter on_screen (map (Meteor.update dt) (Game.meteors g)) = []
                /\ timer w = 450 \/
                (1 <= length (List.filter on_screen
                                (map (Meteor.update dt) (Game.meteors g))) <= 4)%nat).
      { pose proof (filter_length_le on_screen
                      (map (Meteor.update dt) (Game.meteors g))) as Hle.
        rewrite length_map in Hle.
        destruct Hboard as [[Hnil Htm]|Hlen].
        - left. rewrite Hnil. by split.
        - unfold all_fell in Hfell.
          destruct (List.filter on_screen (map (Meteor.update dt) (Game.meteors g)))
            as [|m0 rest] eqn:Hf.
          + destruct (Game.meteors g); [cbn in Hlen; lia|discriminate].
          + right. cbn in *. lia. }
      destruct (TARGET_CORRECT <=? _); cbn;
        rewrite ?Fx, ?Fy, ?Fs, ?Fd, ?Fp, ?Fb, ?Fq;
        (split; [exact Hsx|]; split; [exact Hsy|]; split; [exact Hbs|];
         split; [exact Hbeam'|]; split; [exact Hboard'|];
         split; [by apply apart_filter|];
         split; [by apply question_sound_filter|exact Hps']).
Qed.

End tidy_update.

Section tidy_events.
Variable fuel : nat.

Lemma reset_tidy g w :
  Game.qgen g = QuestionGenerator.set_difficulty (Game.difficulty g) ->
  Forall lively (Game.particles g) ->
  safe (Game.reset_play fuel g) w
    (fun g' w' => tidy g' w' /\ tidy (Game.set_state Game.playing g') w').
Proof.
  intros Hq Hps.
  change (Game.reset_play fuel g) with (Game.make_new_question fuel (cleared g)).
  eapply safe_weaken.
  - apply (make_new_question_rich fuel (Game.difficulty g)). by destruct g.
  - cbn beta. intros g' w' (_ & q & ms & -> & Hqs & Hlen & Hsorted).
    assert (Hship : 40 <= WIDTH / 2 <= WIDTH - 40) by (by vm_compute).
    unfold tidy, tidy_of. destruct g; cbn in *.
    split;
      (split; [exact Hship|]; split; [reflexivity|]; split; [reflexivity|];
       split; [discriminate|]; split; [right; lia|]; split; [exact Hsorted|];
       split; [exact Hqs|exact Hps]).
Qed.

Lemma start_play_tidy g w :
  Game.qgen g = QuestionGenerator.set_difficulty (Game.difficulty g) ->
  Forall lively (Game.particles g) ->
  safe (g1 <- Game.reset_play fuel g ;; ret (Game.set_state Game.playing g1)) w
    (fun g' w' => tidy g' w').
Proof.
  intros Hq Hps.
  eapply safe_bind; [apply (reset_tidy g w Hq Hps)|].
  cbn beta. intros g1 w1 [_ Ht]. apply safe_ret. exact Ht.
Qed.

Lemma handle_click_tidy pos button g w :
  coherent g ->
  tidy g w ->
  safe (Game.handle_click fuel pos button g) w (fun g' w' => tidy g' w').
Proof.
  intros Hco Ht. pose proof Hco as (Hd & Hq & _).
  pose proof Ht as (Hsx & Hsy & Hbs & Hbeam & Hboard & Hsorted & Hqs & Hps).
  unfold Game.handle_click. destruct (Game.state g) eqn:Hs.
  - generalize [0; 1; 2]. intros is_.
    induction is_ as [|i is_ IH]; cbn [Game.menu_click]; [by apply safe_ret|].
    destruct (Rect.collidepoint _ pos); [|exact IH].
    apply start_play_tidy; [reflexivity|by destruct g].
  - apply safe_ret. unfold tidy, tidy_of, Game.fire_beam.
    destruct g; cbn in *. subst.
    split; [exact Hsx|]. split; [reflexivity|]. split; [reflexivity|].
    split; [|by repeat split].
    intros bx by_ [= <- <-]. split; [exact Hsx|].
    change (inject_Z (HEIGHT - 80 - 34)) with 536%Q. split; lra.
  - destruct (Game._buttons g) as [btns|]; [|by apply safe_ret].
    induction btns as [|[[[[x y] bw] bh] [action arg]] btns IH];
      cbn [Game.level_clear_click]; [by apply safe_ret|].
    destruct (Rect.collidepoint _ pos); [|exact IH].
    cbn [fst]. destruct action.
    + by apply safe_ret.
    + destruct (Game.difficulty g <? 2).
      * apply start_play_tidy; [reflexivity|by destruct g].
      * by apply start_play_tidy.
    + apply start_play_tidy; [reflexivity|by destruct g].
    + apply safe_ret. unfold tidy, tidy_of in *. by destruct g.
Qed.

Lemma handle_event_tidy e s w :
  coherent (game s) ->
  tidy (game s) w ->
  safe (handle_event fuel e s) w (fun s' w' => tidy (game s') w').
Proof.
  intros Hco Ht. pose proof Hco as (Hd & Hq & _).
  pose proof Ht as (Hsx & Hsy & Hbs & Hbeam & Hboard & Hsorted & Hqs & Hps).
  destruct e as [|[mx my]|pos button|key| |]; cbn [handle_event].
  - by apply safe_ret.
  - destruct (Game.state (game s)) eqn:Hs; apply safe_ret; try exact Ht.
    unfold tidy, tidy_of. destruct s as [g r]; destruct g; cbn in *.
    split; [unfold clamp, WIDTH; lia|]. by repeat (split; [assumption|]).
  - destruct (button =? 1); [|by apply safe_ret].
    eapply safe_bind; [by apply handle_click_tidy|].
    cbn beta. intros g' w' Hg. by apply safe_ret.
  - destruct (key =? K_ESCAPE); [|by apply safe_ret].
    destruct (Game.state (game s)) eqn:Hs; apply safe_ret; exact Ht.
  - eapply safe_bind with (P := fun _ _ => True).
    { unfold safe, set_timer. done. }
    cbn beta. intros _ w1 _.
    eapply safe_bind; [apply (make_new_question_rich fuel _ (game s) w1 Hq)|].
    cbn beta. intros g' w' (_ & q & ms & -> & Hqs' & Hlen & Hsorted').
    apply safe_ret. unfold tidy, tidy_of. destruct s as [g r]; destruct g; cbn in *.
    do 4 (split; [assumption|]). split; [right; lia|]. by repeat split.
  - by apply safe_ret.
Qed.

End tidy_events.

Section tidy_loop.
Context `{MathLib}.
Variable fuel : nat.

Lemma tick_tidy ms s w s' w' :
  0 <= ms ->
  coherent (game s) ->
  tidy (game s) w ->
  tick fuel ms s w = Ok (s', w') ->
  tidy (game s') w'.
Proof.
  intros Hms Hco Ht Htick. unfold tick in Htick. inv_bind Htick. inv_ret Htick.
  cbn [game].
  assert (Hdt : (0 <= inject_Z ms / 1000)%Q).
  { apply Qle_shift_div_l; [reflexivity|]. rewrite Qmult_0_l.
    change 0%Q with (inject_Z 0). by rewrite <- Zle_Qle. }
  pose proof (safe_Ok _ _ _ _ _ (update_tidy fuel _ (game s) w Hdt Hco Ht) Htick_m)
    as Ha.
  unfold tidy, tidy_of, Game.draw, Game.draw_buttons in *.
  destruct a; cbn in *. by destruct state.
Qed.

Lemma start_tidy w0 s w :
  start fuel w0 = Ok (s, w) -> tidy (game s) w.
Proof.
  intros Hst. rewrite start_eq in Hst. inv_bind Hst. inv_ret Hst.
  rewrite init_eq in Hst_m. inv_bind Hst_m. inv_ret Hst_m.
  assert (Hq : Game.qgen Game.blank
               = QuestionGenerator.set_difficulty (Game.difficulty Game.blank))
    by reflexivity.
  assert (Hps : Forall lively (Game.particles Game.blank)) by constructor.
  destruct (safe_Ok _ _ _ _ _ (reset_tidy fuel Game.blank w0 Hq Hps) Hst_m_m)
    as [Ht _].
  clear Hst_m_m. cbn [game]. unfold tidy, tidy_of in *.
  destruct a0; cbn in *.
  destruct Ht as (? & ? & ? & ? & ? & ? & ? & ?).
  do 7 (split; [assumption|]). constructor.
Qed.

Lemma reachable_tidy s w : reachable fuel s w -> tidy (game s) w.
Proof.
  intros Hr. induction Hr as [w0 s w Hst|s w e s' w' Hr IH He|s w ms s' w' Hr IH Hms Ht].
  - by apply (start_tidy w0).
  - destruct (reachable_invariant fuel s w Hr) as [Hco _].
    exact (safe_Ok _ _ _ _ _ (handle_event_tidy fuel e s w Hco IH) He).
  - destruct (reachable_invariant fuel s w Hr) as [Hco _].
    by apply (tick_tidy ms s w s' w').
Qed.

End tidy_loop.

(** ** Small functions *)

(** X1. [clamp(v, a, b)] with [a <= b] lies in [[a, b]]; it is [v] when
    [v] is already inside, [a] when [v] is below and [b] when [v] is
    above. *)
Theorem clamp_within (v a b : Z) :
  a <= b ->
  a <= clamp v a b <= b /\
  (a <= v <= b -> clamp v a b = v) /\
  (v <= a -> clamp v a b = a) /\
  (b <= v -> clamp v a b = b).
Proof. unfold clamp. lia. Qed.

(** X2. The mouse-motion branch of the main loop does to the game exactly
    what the method [Game.handle_mouse] does: in [playing] the ship takes
    the pointer's x clamped to [[40, WIDTH - 40]], in the other states
    nothing changes; the pointer's y and the random stream are not used. *)
Theorem motion_is_handle_mouse (fuel : nat) (pos : Z * Z) (s : Loop) (w : World) :
  handle_event fuel (MOUSEMOTION pos) s w
  = Ok ({| game := Game.handle_mouse pos (game s); running := running s |}, w).
Proof.
  destruct pos as [mx my], s as [g r]. cbn [handle_event Game.handle_mouse game running].
  by destruct (Game.state g).
Qed.

(** X4. Whatever integer the difficulty is, [next_question] returns: the
    triple has dividend = divisor * quotient with the quotient in 1..12 and
    the dividend at least 1, it fits tier 0 for difficulty 0, tier 1 for
    difficulty 1 and tier 2 for every other integer, and the timer is left
    alone. *)
Theorem next_question_any_difficulty (d : Z) (w : World) :
  returns (QuestionGenerator.next_question (QuestionGenerator.set_difficulty d)) w
    (fun q w' =>
       timer w' = timer w /\
       1 <= q.1.1 /\ 1 <= q.2 <= 12 /\
       valid_question (if d =? 0 then 0 else if d =? 1 then 1 else 2) q).
Proof.
  eapply returns_weaken; [apply next_question_returns|].
  cbn beta. intros [[dividend divisor] quotient] w' (Ht & Hm & Hin & Hb & Hq).
  cbn [fst snd]. split; [exact Ht|]. split; [lia|]. split; [exact Hq|].
  unfold valid_question. split; [exact Hm|].
  revert Hin Hb. unfold QuestionGenerator.set_difficulty.
  destruct (d =? 0); [|destruct (d =? 1)];
    cbn -[QuestionGenerator.range]; rewrite elem_of_range;
    unfold spec_divisor_lo, spec_divisor_hi, spec_max_dividend; cbn; lia.
Qed.

(** ** The meteor image *)




(** X6. For a radius from 0 to 11 the first crater cannot be drawn:
    [random.randint(6, radius//2)] has an empty range and
    [make_meteor_surface] raises [ValueError]. *)
Theorem make_meteor_surface_small_radius (radius : Z) (w : World) :
  0 <= radius < 12 ->
  make_meteor_surface radius w = Raise ValueError.
Proof.
  intros Hr. unfold make_meteor_surface. cbn [repeat_m].
  unfold add_crater at 1, bind at 1, random.randint at 1.
  assert (H2 : radius / 2 < 6) by (apply Z.div_lt_upper_bound; lia).
  apply Z.ltb_lt in H2. rewrite H2. reflexivity.
Qed.

(** ** Drawing a particle *)

Lemma clamp_float_cases (v a b : Q) :
  (a <= b)%Q ->
  (v <= a /\ clamp_float v a b == a)%Q \/
  (a <= v /\ v <= b /\ clamp_float v a b == v)%Q \/
  (b <= v /\ clamp_float v a b == b)%Q.
Proof.
  intros Hab. unfold clamp_float.
  destruct (Q.min_spec b v) as [[Hlt Hmin]|[Hle Hmin]];
    destruct (Q.max_spec a (Qmin b v)) as [[Hlt' Hmax]|[Hle' Hmax]];
    rewrite Hmax, ?Hmin; rewrite Hmin in *.
  - right. right. split; lra.
  - right. right. split; lra.
  - right. left. repeat split; lra.
  - left. split; lra.
Qed.

Lemma fade_of_lively (age life : Q) :
  (0 <= age)%Q -> (age < life)%Q ->
  (0 < clamp_float (1 - age / life) 0 1)%Q /\
  (clamp_float (1 - age / life) 0 1 <= 1)%Q.
Proof.
  intros Ha Hl.
  assert (Hlife : (0 < life)%Q) by lra.
  assert (Hq0 : (0 <= age / life)%Q).
  { apply Qle_shift_div_l; [exact Hlife|]. lra. }
  assert (Hq1 : (age / life < 1)%Q).
  { apply Qlt_shift_div_r; [exact Hlife|]. lra. }
  revert Hq0 Hq1. generalize (age / life)%Q. intros r Hq0 Hq1.
  destruct (clamp_float_cases (1 - r) 0 1) as [[H1 H2]|[(H1 & H2 & H3)|[H1 H2]]];
    [lra| | |]; rewrite ?H2, ?H3; split; lra.
Qed.

(** X7. A particle with 0 <= age < life <= 1 and size in [[2, 6]] is
    always drawn: [draw] does not divide by zero and does not return
    early, the opacity is in 0..255 and the radius of the disc in 2..12. *)
Theorem particle_draw_bounds (p : ExplosionParticle.t) :
  lively p ->
  exists alpha r,
    ExplosionParticle.draw p = Some (Some (alpha, r)) /\
    0 <= alpha <= 255 /\ 2 <= r <= 12.
Proof.
  intros (Ha & Hl & _ & Hs1 & Hs2). unfold ExplosionParticle.draw.
  destruct (fade_of_lively _ _ Ha Hl) as [Ht0 Ht1].
  set (t := clamp_float (1 - ExplosionParticle.age p / ExplosionParticle.life p) 0 1)
    in *.
  destruct (Qeq_bool (ExplosionParticle.life p) 0) eqn:Hz.
  { apply Qeq_bool_iff in Hz. lra. }
  destruct (Qle_bool t 0) eqn:Hle.
  { apply Qle_bool_iff in Hle. lra. }
  eexists _, _. split; [reflexivity|]. split.
  - apply int_of_float_between; [lia| |].
    + change (inject_Z 0) with 0%Q. lra.
    + change (inject_Z 255) with 255%Q. lra.
  - apply int_of_float_between; [lia| |].
    + change (inject_Z 2) with 2%Q. nra.
    + change (inject_Z 12) with 12%Q. nra.
Qed.

(** X8. A particle whose age has reached its positive life is not drawn:
    the clamped fade is 0 and [draw] returns before it blits, without an
    error. *)
Theorem particle_draw_spent (p : ExplosionParticle.t) :
  (0 < ExplosionParticle.life p)%Q ->
  (ExplosionParticle.life p <= ExplosionParticle.age p)%Q ->
  ExplosionParticle.draw p = Some None.
Proof.
  intros Hlife Hage. unfold ExplosionParticle.draw.
  destruct (Qeq_bool (ExplosionParticle.life p) 0) eqn:Hz.
  { apply Qeq_bool_iff in Hz. lra. }
  assert (Hq : (1 <= ExplosionParticle.age p / ExplosionParticle.life p)%Q).
  { apply Qle_shift_div_l; [exact Hlife|]. lra. }
  assert (Ht : (clamp_float
                  (1 - ExplosionParticle.age p / ExplosionParticle.life p) 0 1
                <= 0)%Q).
  { revert Hq.
    generalize (ExplosionParticle.age p / ExplosionParticle.life p)%Q.
    intros r Hq.
    destruct (clamp_float_cases (1 - r) 0 1) as [[H1 H2]|[(H1 & H2 & H3)|[H1 H2]]];
      [lra| | |]; rewrite ?H2, ?H3; lra. }
  apply Qle_bool_iff in Ht. by rewrite Ht.
Qed.

(** ** What every state of the main loop satisfies *)

Lemma sorted_cases {A} (R : A -> A -> Prop) (l : list A) a b :
  StronglySorted R l -> a ∈ l -> b ∈ l -> a = b \/ R a b \/ R b a.
Proof.
  induction 1 as [|c l _ IH Hc]; intros Ha Hb.
  - by apply elem_of_nil in Ha.
  - rewrite Forall_forall in Hc.
    apply elem_of_cons in Ha as [->|Ha]; apply elem_of_cons in Hb as [->|Hb].
    + by left.
    + right. left. by apply Hc.
    + right. right. by apply Hc.
    + by apply IH.
Qed.

Lemma beam_overlap_near (m : Meteor.t) (b : Z * Q) :
  rect_synced m ->
  Rect.colliderect (Meteor.rect m) (beam_rect b) = true ->
  b.1 - 41 < Meteor.x m < b.1 + 41.
Proof.
  intros Hr. rewrite Hr. unfold Rect.colliderect, beam_rect, Rect.centered.
  cbn [Rect.left Rect.top Rect.width Rect.height].
  change METEOR_SIZE with 76. change (76 / 2) with 38.
  cbn [Z.eqb orb]. intros Hc.
  apply andb_true_iff in Hc as [Hc _].
  apply andb_true_iff in Hc as [Hc H3].
  apply andb_true_iff in Hc as [H1 _].
  apply Z.ltb_lt in H1. apply Z.ltb_lt in H3. lia.
Qed.

Section board.
Context `{MathLib}.
Variable fuel : nat.

(** X9. In every state of the main loop the ship is on the screen: its x
    lies in [[40, WIDTH - 40]], whatever pointer positions were reported,
    and its y is [HEIGHT - 80]. *)
Theorem ship_stays_on_screen (s : Loop) (w : World) :
  reachable fuel s w ->
  40 <= Game.ship_x (game s) <= WIDTH - 40 /\
  Game.ship_y (game s) = HEIGHT - 80.
Proof.
  intros Hr. destruct (reachable_tidy fuel s w Hr) as (Hx & Hy & _).
  by split.
Qed.

(** X10. In every state of the main loop a beam in flight is above the
    ship and on the screen: its x lies in [[40, WIDTH - 40]] and its y in
    [[-40, 536]]; the beam speed is 900. *)
Theorem beam_stays_in_bounds (s : Loop) (w : World) (bx : Z) (by_ : Q) :
  reachable fuel s w ->
  Game.beam (game s) = Some (bx, by_) ->
  40 <= bx <= WIDTH - 40 /\ (-40 <= by_)%Q /\ (by_ <= 536)%Q /\
  Game.beam_speed (game s) = 900.
Proof.
  intros Hr Hb. destruct (reachable_tidy fuel s w Hr) as (_ & _ & Hs & Hbeam & _).
  destruct (Hbeam bx by_ Hb) as (Hx & Hy1 & Hy2). auto.
Qed.

(** X11. The board is never left empty for good: in every state of the
    main loop there are between one and four meteors, or there is none and
    the timer that brings the next question is running with its period of
    450 ms. *)
Theorem board_never_stuck (s : Loop) (w : World) :
  reachable fuel s w ->
  (1 <= length (Game.meteors (game s)) <= 4)%nat \/
  Game.meteors (game s) = [] /\ timer w = 450.
Proof.
  intros Hr. destruct (reachable_tidy fuel s w Hr) as (_ & _ & _ & _ & Hb & _).
  destruct Hb as [Hb|Hb]; [by right|by left].
Qed.

(** X12. In every state of the main loop the meteors stand left to right
    in separate lanes: the centres of any two consecutive or later ones
    are at least 150 apart, and every centre has its x in [[145, 755]], so
    that the 76 wide boxes do not touch each other nor the border. *)
Theorem meteors_keep_lanes (s : Loop) (w : World) :
  reachable fuel s w ->
  StronglySorted apart (Game.meteors (game s)) /\
  Forall (fun m => 145 <= Meteor.x m <= 755 /\
                   0 < Rect.left (Meteor.rect m) /\
                   Rect.left (Meteor.rect m) + Rect.width (Meteor.rect m) < WIDTH)
    (Game.meteors (game s)).
Proof.
  intros Hr.
  destruct (reachable_tidy fuel s w Hr) as (_ & _ & _ & _ & _ & Hs & Hq & _).
  split; [exact Hs|].
  destruct Hq as (q & _ & _ & _ & _ & _ & Hms).
  eapply Forall_impl; [exact Hms|]. cbn beta.
  intros m (Hrect & _ & _ & _ & Hx & _). split; [exact Hx|].
  rewrite Hrect. cbn. change (METEOR_SIZE / 2) with 38.
  change METEOR_SIZE with 76. unfold WIDTH. lia.
Qed.

(** X13. The beam can overlap at most one meteor.  For every state of the
    main loop, every frame time and every position of the beam, two
    meteors of the moved board that both overlap the beam's hit box are the
    same meteor; so the order in which [update] scans the meteors does not
    change which one is hit. *)
Theorem beam_hits_at_most_one (s : Loop) (w : World) (dt : Q) (b : Z * Q)
    (m1 m2 : Meteor.t) :
  reachable fuel s w ->
  m1 ∈ map (Meteor.update dt) (Game.meteors (game s)) ->
  m2 ∈ map (Meteor.update dt) (Game.meteors (game s)) ->
  Rect.colliderect (Meteor.rect m1) (beam_rect b) = true ->
  Rect.colliderect (Meteor.rect m2) (beam_rect b) = true ->
  m1 = m2.
Proof.
  intros Hr H1 H2 Hc1 Hc2.
  destruct (reachable_tidy fuel s w Hr) as (_ & _ & _ & _ & _ & Hs & Hq & _).
  apply (apart_map_update dt) in Hs.
  apply (question_sound_moved _ _ dt) in Hq.
  destruct Hq as (q & _ & _ & _ & _ & _ & Hms).
  rewrite Forall_forall in Hms.
  destruct (Hms m1 H1) as [Hr1 _]. destruct (Hms m2 H2) as [Hr2 _].
  pose proof (beam_overlap_near m1 b Hr1 Hc1) as Hn1.
  pose proof (beam_overlap_near m2 b Hr2 Hc2) as Hn2.
  destruct (sorted_cases apart _ m1 m2 Hs H1 H2) as [E|[Ha|Ha]];
    [exact E| |]; unfold apart in Ha; lia.
Qed.

(** X14. In every state of the main loop there is an active question and
    it belongs to the current difficulty: dividend = divisor * quotient,
    the divisor is one of the tier's divisors, the dividend lies between 1
    and the tier's bound and the quotient in 1..12. *)
Theorem question_matches_tier (s : Loop) (w : World) :
  reachable fuel s w ->
  0 <= Game.difficulty (game s) <= 2 /\
  exists q,
    Game.current_question (game s) = Some q /\
    valid_question (Game.difficulty (game s)) q /\
    1 <= q.1.1 /\ 1 <= q.2 <= 12.
Proof.
  intros Hr.
  destruct (reachable_invariant fuel s w Hr) as [(Hd & _) _].
  destruct (reachable_tidy fuel s w Hr) as (_ & _ & _ & _ & _ & _ & Hq & _).
  destruct Hq as (q & Hcq & Hm & Hin & Hb & Hquot & _).
  split; [exact Hd|]. exists q. split; [exact Hcq|].
  split; [apply question_in_tier; try assumption; lia|]. split; [lia|exact Hquot].
Qed.

(** X15. In every state of the main loop every meteor on the board carries
    an answer next to the quotient of the active question: its label reads
    as an integer [a] with [1 <= a] and
    [quotient - 3 <= a <= quotient + 4]. *)
Theorem labels_near_quotient (s : Loop) (w : World) :
  reachable fuel s w ->
  exists q,
    Game.current_question (game s) = Some q /\
    Forall (fun m => exists a, label m = Some a /\
                               1 <= a /\ q.2 - 3 <= a <= q.2 + 4)
      (Game.meteors (game s)).
Proof.
  intros Hr.
  destruct (reachable_tidy fuel s w Hr) as (_ & _ & _ & _ & _ & _ & Hq & _).
  destruct Hq as (q & Hcq & _ & _ & _ & _ & Hms).
  exists q. split; [exact Hcq|].
  eapply Forall_impl; [exact Hms|]. cbn beta.
  intros m (_ & _ & _ & _ & _ & a & Ht & Hn1 & Hn2).
  exists a. split; [|by split].
  unfold label. rewrite Ht. apply parse_int_str.
Qed.

(** X16. In every state of the main loop every meteor falls at a speed in
    [[FALL_SPEED_MIN, FALL_SPEED_MAX]], its rectangle is the 76 x 76 box
    centred on its position, and its [hit] flag is still [False]: nothing
    ever sets it. *)
Theorem meteors_well_formed (s : Loop) (w : World) :
  reachable fuel s w ->
  Forall (fun m =>
            (inject_Z FALL_SPEED_MIN <= Meteor.speed m)%Q /\
            (Meteor.speed m <= inject_Z FALL_SPEED_MAX)%Q /\
            Meteor.rect m
            = Rect.centered METEOR_SIZE METEOR_SIZE (Meteor.x m) (Meteor.y m) /\
            Meteor.hit m = false)
    (Game.meteors (game s)).
Proof.
  intros Hr.
  destruct (reachable_tidy fuel s w Hr) as (_ & _ & _ & _ & _ & _ & Hq & _).
  destruct Hq as (q & _ & _ & _ & _ & _ & Hms).
  eapply Forall_impl; [exact Hms|]. cbn beta.
  intros m (Hrect & Hs1 & Hs2 & Hh & _). auto.
Qed.

(** X17. In every state of the main loop every particle kept by the game
    is still alive: 0 <= age < life <= 1, and its size is in [[2, 6]]. *)
Theorem particles_stay_lively (s : Loop) (w : World) :
  reachable fuel s w ->
  Forall lively (Game.particles (game s)).
Proof.
  intros Hr.
  by destruct (reachable_tidy fuel s w Hr) as (_ & _ & _ & _ & _ & _ & _ & Hp).
Qed.

(** X18. Whenever the main loop shows the number of remaining questions,
    that is in every state that is [playing], the number is between 1 and
    [TARGET_CORRECT]. *)
Theorem remaining_count_positive (s : Loop) (w : World) :
  reachable fuel s w ->
  Game.state (game s) = Game.playing ->
  exists n, rem s = Some n /\ 1 <= n <= TARGET_CORRECT.
Proof.
  intros Hr Hs.
  destruct (reachable_invariant fuel s w Hr) as [(_ & _ & _ & _ & Hc & Hp) _].
  unfold rem. rewrite Hs. eexists. split; [reflexivity|].
  specialize (Hp Hs). lia.
Qed.

(** X19. Whenever the level-clear screen is showing in a state of the main
    loop, the buttons stored for click handling are the three that
    [draw_buttons] draws for that screen; the click handler finds the
    attribute and tests the rectangles that are on the screen. *)
Theorem level_clear_buttons_stored (s : Loop) (w : World) :
  reachable fuel s w ->
  Game.state (game s) = Game.level_clear ->
  Game._buttons (game s) = Some Game.level_clear_buttons /\
  Game._buttons (game s) = Game._buttons (Game.draw_buttons (game s)).
Proof.
  intros Hr Hs.
  destruct (reachable_invariant fuel s w Hr) as [_ Hb].
  rewrite (Hb Hs). split; [reflexivity|].
  unfold Game.draw_buttons. rewrite Hs. reflexivity.
Qed.

End board.

(** ** A new batch *)

Lemma int_of_float_inject (z : Z) : int_of_float (inject_Z z) = z.
Proof.
  unfold int_of_float.
  destruct (Qle_bool 0 (inject_Z z)); [apply Qfloor_Z|apply Qceiling_Z].
Qed.

Section batch.
Variable fuel : nat.

(** X20. The meteors of a new question are placed in lane order: the i-th
    one (i = 0..3) has its centre's x in [[145 + 190 i, 185 + 190 i]], and
    each of them starts wholly above the screen, at an integer y in
    [[-200, -60]] with the bottom of its box above y = 0. *)
Theorem new_batch_in_lanes (d : Z) (g : Game.t) (w : World) :
  Game.qgen g = QuestionGenerator.set_difficulty d ->
  safe (Game.make_new_question fuel g) w
    (fun g' _ =>
       Forall2 (fun i m =>
                  in_lane i m /\
                  (exists y, -200 <= y <= -60 /\ Meteor.y m = inject_Z y) /\
                  Rect.top (Meteor.rect m) + Rect.height (Meteor.rect m) < 0)
         [0; 1; 2; 3] (Game.meteors g')).
Proof.
  intros Hq. eapply safe_weaken; [by apply (make_new_question_board fuel d)|].
  cbn beta. intros g' w' (_ & q & ms & answers & -> & _ & Hlen & Hlanes).
  cbn [with_question Game.meteors Game.set_question_in_progress Game.set_meteors].
  destruct answers as [|a0 [|a1 [|a2 [|a3 [|]]]]]; try discriminate Hlen.
  change (enumerate [a0; a1; a2; a3])
    with [(0, a0); (1, a1); (2, a2); (3, a3)] in Hlanes.
  assert (Hone : forall i a m,
             lane_fresh q.2 (i, a) m ->
             in_lane i m /\
             (exists y, -200 <= y <= -60 /\ Meteor.y m = inject_Z y) /\
             Rect.top (Meteor.rect m) + Rect.height (Meteor.rect m) < 0).
  { intros i a m (Hl & _ & (y & Hy & Ey) & Hr & _).
    split; [exact Hl|]. split; [by exists y|].
    rewrite Hr, Ey. cbn [Rect.centered Rect.top Rect.height].
    rewrite int_of_float_inject. change METEOR_SIZE with 76.
    change (76 / 2) with 38. lia. }
  repeat match goal with
         | Hl : Forall2 _ (_ :: _) _ |- _ =>
             apply Forall2_cons_inv_l in Hl as (? & ? & ? & Hl & ->)
         | Hl : Forall2 _ [] _ |- _ => apply Forall2_nil_inv_l in Hl as ->
         end.
  repeat constructor; eapply Hone; eassumption.
Qed.

End batch.

(** ** Clicks on the menu and outside the buttons *)

Lemma collidepoint_true (r : Rect.t) (px py : Z) :
  Rect.collidepoint r (px, py) = true <->
  Rect.left r <= px < Rect.left r + Rect.width r /\
  Rect.top r <= py < Rect.top r + Rect.height r.
Proof.
  unfold Rect.collidepoint.
  rewrite !andb_true_iff, !Z.leb_le, !Z.ltb_lt. lia.
Qed.

Section more_clicks.
Variable fuel : nat.

Lemma level_clear_click_miss btns pos g w :
  Forall (fun b => Rect.collidepoint (button_rect b) pos = false) btns ->
  Game.level_clear_click fuel btns pos g w = Ok (g, w).
Proof.
  induction 1 as [|[[[[x y] bw] bh] tag] btns Hmiss _ IH];
    cbn [Game.level_clear_click]; [reflexivity|].
  cbn [button_rect] in Hmiss. by rewrite Hmiss.
Qed.

(** X21. A click on the menu inside one of the three buttons that
    [draw_buttons] draws starts the tier that the button's tag names: the
    difficulty and the generator are set to it, the play state is reset
    with a new question of that tier, and the state becomes [playing].
    The rectangles that the handler recomputes are those of the drawn
    buttons.  The click returns with that state whenever the draws after
    the new question pick three different positive offsets; it raises no
    exception, and only the bound on the distractor loop can keep it from
    returning. *)
Theorem menu_click_dispatch (g : Game.t) (w : World) (pos : Z * Z) (button : Z)
    (b : Game.Button) (d : Z) :
  Game.state g = Game.menu ->
  b ∈ Game.menu_buttons ->
  b.2 = (Tag.start, Some d) ->
  Rect.collidepoint (button_rect b) pos = true ->
  safe (Game.handle_click fuel pos button g) w (fun g' _ => play_reset_to d g') /\
  ((3 <= fuel)%nat ->
   settles (QuestionGenerator.set_difficulty d) w ->
   returns (Game.handle_click fuel pos button g) w
     (fun g' _ => play_reset_to d g')).
Proof.
  intros Hs Hb Htag Hhit. unfold Game.handle_click. rewrite Hs.
  destruct pos as [px py].
  unfold Game.menu_buttons in Hb. cbn [map] in Hb.
  rewrite !elem_of_cons, elem_of_nil in Hb.
  destruct Hb as [->|[->|[->|[]]]]; cbn [snd] in Htag;
    injection Htag as <-; cbn [button_rect] in Hhit;
    pose proof Hhit as Hin; apply collidepoint_true in Hin;
    cbn [Rect.left Rect.top Rect.width Rect.height] in Hin;
    unfold WIDTH in Hin; change (900 / 2) with 450 in Hin;
    cbn [Game.menu_click].
  - rewrite Hhit. apply reset_to_tier_returns; [lia|reflexivity|reflexivity].
  - destruct (Rect.collidepoint (Rect.mk (WIDTH / 2 - 220 + 0 * 220) 320 200 48) (px, py))
      eqn:E0.
    { apply collidepoint_true in E0.
      cbn [Rect.left Rect.top Rect.width Rect.height] in E0.
      unfold WIDTH in E0. change (900 / 2) with 450 in E0. lia. }
    rewrite Hhit. apply reset_to_tier_returns; [lia|reflexivity|reflexivity].
  - destruct (Rect.collidepoint (Rect.mk (WIDTH / 2 - 220 + 0 * 220) 320 200 48) (px, py))
      eqn:E0.
    { apply collidepoint_true in E0.
      cbn [Rect.left Rect.top Rect.width Rect.height] in E0.
      unfold WIDTH in E0. change (900 / 2) with 450 in E0. lia. }
    destruct (Rect.collidepoint (Rect.mk (WIDTH / 2 - 220 + 1 * 220) 320 200 48) (px, py))
      eqn:E1.
    { apply collidepoint_true in E1.
      cbn [Rect.left Rect.top Rect.width Rect.height] in E1.
      unfold WIDTH in E1. change (900 / 2) with 450 in E1. lia. }
    rewrite Hhit. apply reset_to_tier_returns; [lia|reflexivity|reflexivity].
Qed.

(** X22. A click on the menu or on the level-clear screen that is outside
    every button drawn for that screen changes nothing: the game and the
    random stream stay as they are and no exception is raised. *)
Theorem click_outside_buttons (g : Game.t) (w : World) (pos : Z * Z) (button : Z)
    (btns : list Game.Button) :
  Game.state g <> Game.playing ->
  Game._buttons (Game.draw_buttons g) = Some btns ->
  (Game.state g = Game.level_clear -> Game._buttons g = Some btns) ->
  Forall (fun b => Rect.collidepoint (button_rect b) pos = false) btns ->
  Game.handle_click fuel pos button g w = Ok (g, w).
Proof.
  intros Hs Hdraw Hstored Hmiss. unfold Game.handle_click.
  unfold Game.draw_buttons in Hdraw.
  destruct (Game.state g) eqn:Es; [|done|].
  - cbn in Hdraw. injection Hdraw as <-.
    unfold Game.menu_buttons in Hmiss. cbn [map] in Hmiss.
    apply Forall_cons_1 in Hmiss as [H0 Hmiss].
    apply Forall_cons_1 in Hmiss as [H1 Hmiss].
    apply Forall_cons_1 in Hmiss as [H2 _].
    cbn [button_rect] in H0, H1, H2. cbn [Game.menu_click].
    by rewrite H0, H1, H2.
  - rewrite (Hstored eq_refl). by apply level_clear_click_miss.
Qed.

End more_clicks.

(** ** The main loop as a whole *)

Lemma bind_agree {A B} (m : M A) (k1 k2 : A -> M B) w (P : A -> World -> Prop) :
  safe m w P ->
  (forall a w', P a w' -> k1 a w' = k2 a w') ->
  bind m k1 w = bind m k2 w.
Proof.
  unfold safe, bind. intros Hs Hk. destruct (m w) as [[a w']|e]; [|reflexivity].
  by apply Hk.
Qed.

Lemma safe_same {A} (m m' : M A) w (Q : A -> World -> Prop) :
  m' w = m w -> safe m w Q -> safe m' w Q.
Proof. unfold safe. by intros ->. Qed.

Lemma safe_then {A} (m : M A) w (P Q : A -> World -> Prop) :
  safe m w P -> (forall a w', m w = Ok (a, w') -> Q a w') -> safe m w Q.
Proof.
  unfold safe. intros Hs HQ. destruct (m w) as [[a w']|e]; [|exact Hs].
  by apply HQ.
Qed.

Section whole_loop.
Context `{MathLib}.
Variable fuel : nat.

Lemma start_safe w0 : safe (start fuel) w0 (fun s w => reachable fuel s w).
Proof.
  apply safe_then with (P := fun _ _ => True);
    [|intros s w Hst; by apply (reach_start fuel w0)].
  rewrite start_eq, init_eq.
  eapply safe_bind with (P := fun _ _ => True); [|intros; by apply safe_ret].
  eapply safe_bind with (P := fun _ _ => True); [|intros; by apply safe_ret].
  eapply safe_weaken; [apply (reset_play_safe fuel 0 Game.blank w0 eq_refl)|].
  done.
Qed.

Lemma handle_event_reach e s w :
  reachable fuel s w ->
  safe (handle_event fuel e s) w (fun s' w' => reachable fuel s' w').
Proof.
  intros Hr. destruct (reachable_invariant fuel s w Hr) as [Hco _].
  eapply safe_then; [apply (handle_event_outcome fuel e s w Hco)|].
  intros s' w' He. by apply (reach_event fuel s w e).
Qed.

Lemma tick_reach ms s w :
  reachable fuel s w -> 0 <= ms ->
  safe (tick fuel ms s) w (fun s' w' => reachable fuel s' w').
Proof.
  intros Hr Hms. destruct (reachable_invariant fuel s w Hr) as [Hco _].
  apply safe_then with (P := fun _ _ => True);
    [|intros s' w' Ht; by apply (reach_tick fuel s w ms)].
  unfold tick.
  eapply safe_bind; [apply (update_coherent fuel _ (game s) w Hco)|].
  intros; by apply safe_ret.
Qed.

Lemma events_reach events s w :
  reachable fuel s w ->
  safe (for_each events (handle_event fuel) s) w
    (fun s' w' => reachable fuel s' w').
Proof.
  revert s w. induction events as [|e events IH]; intros s w Hr; cbn [for_each].
  - by apply safe_ret.
  - eapply safe_bind; [by apply handle_event_reach|].
    cbn beta. intros s1 w1 Hr1. by apply IH.
Qed.

Lemma frames_reach frames s w :
  Forall (fun f : Frame => 0 <= f.1) frames ->
  reachable fuel s w ->
  safe (run_frames fuel frames s) w (fun s' w' => reachable fuel s' w').
Proof.
  intros Hms. revert s w.
  induction Hms as [|f frames Hf _ IH]; intros s w Hr;
    unfold run_frames; cbn [for_each].
  - by apply safe_ret.
  - eapply safe_bind with (P := fun s' w' => reachable fuel s' w').
    + unfold frame. eapply safe_bind; [by apply events_reach|].
      cbn beta. intros s1 w1 Hr1. by apply tick_reach.
    + cbn beta. intros s1 w1 Hr1. by apply IH.
Qed.

Lemma particle_draw_checked_ok p w :
  lively p -> ExplosionParticle.draw_checked p w = Ok (tt, w).
Proof.
  intros (Ha & Hl & _ & Hs1 & Hs2).
  unfold ExplosionParticle.draw_checked, ExplosionParticle.draw.
  destruct (fade_of_lively _ _ Ha Hl) as [Ht0 Ht1].
  set (t := clamp_float (1 - ExplosionParticle.age p / ExplosionParticle.life p) 0 1)
    in *.
  destruct (Qeq_bool (ExplosionParticle.life p) 0) eqn:Hz.
  { apply Qeq_bool_iff in Hz. lra. }
  destruct (Qle_bool t 0) eqn:Hle.
  { apply Qle_bool_iff in Hle. lra. }
  assert (Halpha : 0 <= int_of_float (255 * t) <= 255).
  { apply int_of_float_between; [lia| |].
    - change (inject_Z 0) with 0%Q. lra.
    - change (inject_Z 255) with 255%Q. lra. }
  assert (Hr : 2 <= int_of_float (ExplosionParticle.size p * (1 + t)) <= 12).
  { apply int_of_float_between; [lia| |].
    - change (inject_Z 2) with 2%Q. nra.
    - change (inject_Z 12) with 12%Q. nra. }
  destruct (Z.ltb_spec (int_of_float (ExplosionParticle.size p * (1 + t))) 0);
    [lia|].
  destruct (Z.leb_spec 0 (int_of_float (255 * t))); [|lia].
  destruct (Z.leb_spec (int_of_float (255 * t)) 255); [|lia].
  reflexivity.
Qed.

Lemma particles_draw_checked_ok ps w :
  Forall lively ps ->
  for_each ps (fun p _ => ExplosionParticle.draw_checked p) tt w = Ok (tt, w).
Proof.
  induction 1 as [|p ps Hp _ IH]; cbn [for_each]; [reflexivity|].
  by rewrite (bind_step _ _ _ _ _ (particle_draw_checked_ok p w Hp)).
Qed.

Lemma draw_ui_ok g w :
  0 <= Game.difficulty g <= 2 -> Game.draw_ui g w = Ok (tt, w).
Proof.
  intros Hd. unfold Game.draw_ui, py_index, Game.diffs.
  assert (Game.difficulty g = 0 \/ Game.difficulty g = 1 \/ Game.difficulty g = 2)
    as [-> | [-> | ->]] by lia; reflexivity.
Qed.

Lemma draw_checked_ok g w :
  0 <= Game.difficulty g <= 2 ->
  Forall lively (Game.particles g) ->
  Game.draw_checked g w = Ok (Game.draw g, w).
Proof.
  intros Hd Hps. unfold Game.draw_checked.
  destruct (Game.state g); try reflexivity.
  rewrite (bind_step _ _ _ _ _ (particles_draw_checked_ok _ w Hps)).
  by rewrite (bind_step _ _ _ _ _ (draw_ui_ok g w Hd)).
Qed.

Lemma tick_checked_eq ms s w :
  reachable fuel s w -> 0 <= ms -> tick_checked fuel ms s w = tick fuel ms s w.
Proof.
  intros Hr Hms.
  destruct (reachable_invariant fuel s w Hr) as [Hco _].
  pose proof (reachable_tidy fuel s w Hr) as Ht.
  assert (Hdt : (0 <= inject_Z ms / 1000)%Q).
  { apply Qle_shift_div_l; [reflexivity|]. rewrite Qmult_0_l.
    change 0%Q with (inject_Z 0). by rewrite <- Zle_Qle. }
  unfold tick_checked, tick, bind.
  destruct (Game.update fuel (inject_Z ms / 1000) (game s) w)
    as [[g w1]|e] eqn:Hup; [|reflexivity].
  destruct (safe_Ok _ _ _ _ _ (update_coherent fuel _ (game s) w Hco) Hup)
    as ((Hd & _) & _).
  pose proof (safe_Ok _ _ _ _ _ (update_tidy fuel _ (game s) w Hdt Hco Ht) Hup)
    as (_ & _ & _ & _ & _ & _ & _ & Hps).
  by rewrite (draw_checked_ok g w1 Hd Hps).
Qed.

Lemma frame_checked_eq ms events s w :
  reachable fuel s w -> 0 <= ms ->
  frame_checked fuel ms events s w = frame fuel ms events s w.
Proof.
  intros Hr Hms. unfold frame_checked, frame, bind.
  pose proof (events_reach events s w Hr) as Hev. unfold safe in Hev.
  destruct (for_each events (handle_event fuel) s w) as [[s1 w1]|e];
    [|reflexivity].
  by apply tick_checked_eq.
Qed.

Lemma run_frames_checked_eq frames s w :
  Forall (fun f : Frame => 0 <= f.1) frames ->
  reachable fuel s w ->
  run_frames_checked fuel frames s w = run_frames fuel frames s w.
Proof.
  intros Hms. revert s w.
  induction Hms as [|f frames Hf _ IH]; intros s w Hr;
    unfold run_frames_checked, run_frames; cbn [for_each]; [reflexivity|].
  unfold bind. rewrite (frame_checked_eq f.1 f.2 s w Hr Hf).
  destruct (frame fuel f.1 f.2 s w) as [[s1 w1]|e] eqn:Hf1; [|reflexivity].
  apply IH. by apply (reach_frame fuel s w f.1 f.2).
Qed.

Lemma run_checked_unfold frames :
  run_checked fuel frames
  = bind (start fuel) (fun s => run_frames_checked fuel frames s).
Proof.
  exact (eq_refl (bind (start fuel) (fun s => run_frames_checked fuel frames s))).
Qed.

Lemma run_checked_eq frames w0 :
  Forall (fun f : Frame => 0 <= f.1) frames ->
  run_checked fuel frames w0 = run fuel frames w0.
Proof.
  intros Hms. rewrite run_checked_unfold, run_eq.
  apply (bind_agree _ _ _ _ (fun s w => reachable fuel s w));
    [apply start_safe|].
  intros s w Hr. by apply run_frames_checked_eq.
Qed.

(** X23. The main loop never raises.  Whatever events arrive and whatever
    frame times (>= 0) the clock reports, running the loop from the start
    over any number of iterations ends in a state of the main loop: no
    [TypeError] from a missing question, no [ValueError] from a label, a
    removal or an empty random range, no [IndexError] from a choice; and
    the steps of [draw] that depend on the game's values do not fail
    either: no division by a zero [life], no surface of negative size, no
    opacity outside 0..255, no index outside [diffs].  The loop with these
    steps behaves as the loop without them.  The one failure of the model
    is the bound put on the unbounded [while] loop of
    [make_new_question]. *)
Theorem main_loop_never_raises (frames : list Frame) (w0 : World) :
  Forall (fun f : Frame => 0 <= f.1) frames ->
  safe (run_checked fuel frames) w0 (fun s w => reachable fuel s w) /\
  run_checked fuel frames w0 = run fuel frames w0.
Proof.
  intros Hms. split; [|by apply run_checked_eq].
  apply (safe_same (run fuel frames)); [by apply run_checked_eq|].
  rewrite run_eq.
  eapply safe_bind; [apply start_safe|].
  cbn beta. intros s w Hr. by apply frames_reach.
Qed.

Lemma handle_event_running e s w s' w' :
  handle_event fuel e s w = Ok (s', w') ->
  (running s = false -> running s' = false) /\
  (e = QUIT -> running s' = false).
Proof.
  intros He.
  destruct e as [|[mx my]|pos button|key| |]; cbn [handle_event] in He.
  - inv_ret He. split; [done|done].
  - destruct (Game.state (game s)); inv_ret He; split; done.
  - destruct (button =? 1).
    + inv_bind He. inv_ret He. split; done.
    + inv_ret He. split; done.
  - destruct (key =? K_ESCAPE).
    + destruct (Game.state (game s)); inv_ret He; split; done.
    + inv_ret He. split; done.
  - inv_bind He. inv_bind He. inv_ret He. split; done.
  - inv_ret He. split; done.
Qed.

(** X24. Once [running] is [False] it stays [False], and a QUIT event
    anywhere among the events of an iteration makes it [False]: at the end
    of that iteration, after the remaining events, [update] and [draw],
    the loop condition fails. *)
Theorem quit_ends_loop (ms : Z) (events : list Event) (s : Loop) (w : World)
    (s' : Loop) (w' : World) :
  frame fuel ms events s w = Ok (s', w') ->
  QUIT ∈ events \/ running s = false ->
  running s' = false.
Proof.
  intros Hf Hq. unfold frame in Hf. inv_bind Hf.
  assert (Ha : running a = false).
  { clear Hf. revert s w Hq Hf_m.
    induction events as [|e events IH]; intros s w Hq Hev; cbn [for_each] in Hev.
    - inv_ret Hev. destruct Hq as [Hq|Hq]; [by apply elem_of_nil in Hq|exact Hq].
    - inv_bind Hev.
      destruct (handle_event_running e s w a0 w1 Hev_m) as [Hkeep Hquit].
      apply (IH a0 w1); [|exact Hev].
      destruct Hq as [Hq|Hq]; [|right; by apply Hkeep].
      apply elem_of_cons in Hq as [<-|Hq]; [right; by apply Hquit|by left]. }
  unfold tick in Hf. inv_bind Hf. inv_ret Hf. exact Ha.
Qed.

End whole_loop.

(** ** The further properties at the concrete runs *)

Ltac q_order := repeat split; vm_compute; (reflexivity || discriminate).

Lemma clamp_within_witness :
  40 <= WIDTH - 40 /\
  clamp (-500) 40 (WIDTH - 40) = 40 /\
  clamp 10000 40 (WIDTH - 40) = WIDTH - 40.
Proof.
  assert (Hab : 40 <= WIDTH - 40) by (unfold WIDTH; lia).
  split; [exact Hab|]. split.
  - destruct (clamp_within (-500) 40 (WIDTH - 40) Hab) as (_ & _ & Hlo & _).
    apply Hlo. lia.
  - destruct (clamp_within 10000 40 (WIDTH - 40) Hab) as (_ & _ & _ & Hhi).
    apply Hhi. unfold WIDTH. lia.
Defined.


Lemma make_meteor_surface_small_radius_witness :
  0 <= 10 < 12 /\ make_meteor_surface 10 (world_at 0 0) = Raise ValueError.
Proof.
  assert (Hr : 0 <= 10 < 12) by lia.
  split; [exact Hr|].
  exact (make_meteor_surface_small_radius 10 (world_at 0 0) Hr).
Defined.

Lemma particle_draw_bounds_witness :
  lively p_first /\
  exists alpha r,
    ExplosionParticle.draw p_first = Some (Some (alpha, r)) /\
    0 <= alpha <= 255 /\ 2 <= r <= 12.
Proof.
  assert (Hp : lively p_first) by q_order.
  split; [exact Hp|]. exact (particle_draw_bounds p_first Hp).
Defined.

Lemma particle_draw_spent_witness :
  (0 < ExplosionParticle.life (ExplosionParticle.update 1 p_first))%Q /\
  (ExplosionParticle.life (ExplosionParticle.update 1 p_first)
   <= ExplosionParticle.age (ExplosionParticle.update 1 p_first))%Q /\
  ExplosionParticle.draw (ExplosionParticle.update 1 p_first) = Some None.
Proof.
  assert (Hl : (0 < ExplosionParticle.life (ExplosionParticle.update 1 p_first))%Q)
    by q_order.
  assert (Ha : (ExplosionParticle.life (ExplosionParticle.update 1 p_first)
                <= ExplosionParticle.age (ExplosionParticle.update 1 p_first))%Q)
    by q_order.
  split; [exact Hl|]. split; [exact Ha|].
  exact (particle_draw_spent (ExplosionParticle.update 1 p_first) Hl Ha).
Defined.

Lemma ship_stays_on_screen_witness :
  @reachable rational_math 10 s_beam (world_at 43 0) /\
  40 <= Game.ship_x (game s_beam) <= WIDTH - 40 /\
  Game.ship_y (game s_beam) = HEIGHT - 80.
Proof.
  split; [exact s_beam_reachable|].
  exact (@ship_stays_on_screen rational_math 10 s_beam (world_at 43 0)
           s_beam_reachable).
Defined.

Lemma beam_stays_in_bounds_witness :
  @reachable rational_math 10 s_beam (world_at 43 0) /\
  exists bx by_,
    Game.beam (game s_beam) = Some (bx, by_) /\
    40 <= bx <= WIDTH - 40 /\ (-40 <= by_)%Q /\ (by_ <= 536)%Q /\
    Game.beam_speed (game s_beam) = 900.
Proof.
  split; [exact s_beam_reachable|].
  eexists _, _. split; [reflexivity|].
  exact (@beam_stays_in_bounds rational_math 10 s_beam (world_at 43 0) _ _
           s_beam_reachable eq_refl).
Defined.

Lemma board_never_stuck_witness :
  @reachable rational_math 10 s_hit (world_at 163 450) /\
  ((1 <= length (Game.meteors (game s_hit)) <= 4)%nat \/
   Game.meteors (game s_hit) = [] /\ timer (world_at 163 450) = 450).
Proof.
  split; [exact s_hit_reachable|].
  exact (@board_never_stuck rational_math 10 s_hit (world_at 163 450)
           s_hit_reachable).
Defined.

Lemma meteors_keep_lanes_witness :
  @reachable rational_math 10 s_beam (world_at 43 0) /\
  StronglySorted apart (Game.meteors (game s_beam)) /\
  length (Game.meteors (game s_beam)) = 4%nat.
Proof.
  split; [exact s_beam_reachable|]. split; [|reflexivity].
  exact (proj1 (@meteors_keep_lanes rational_math 10 s_beam (world_at 43 0)
                  s_beam_reachable)).
Defined.

Lemma beam_hits_at_most_one_witness :
  let m := Meteor.update (1 # 10) m_first in
  @reachable rational_math 10 s_beam (world_at 43 0) /\
  m ∈ map (Meteor.update (1 # 10)) (Game.meteors (game s_beam)) /\
  Rect.colliderect (Meteor.rect m) (beam_rect (145, 86%Q)) = true /\
  m = m.
Proof.
  intros m.
  assert (Hin : m ∈ map (Meteor.update (1 # 10)) (Game.meteors (game s_beam)))
    by (by left).
  assert (Hc : Rect.colliderect (Meteor.rect m) (beam_rect (145, 86%Q)) = true)
    by reflexivity.
  split; [exact s_beam_reachable|]. split; [exact Hin|]. split; [exact Hc|].
  exact (@beam_hits_at_most_one rational_math 10 s_beam (world_at 43 0) (1 # 10)
           (145, 86%Q) m m s_beam_reachable Hin Hin Hc Hc).
Defined.

Lemma question_matches_tier_witness :
  @reachable rational_math 10 s_clear (world_at 2866 450) /\
  exists q,
    Game.current_question (game s_clear) = Some q /\
    valid_question (Game.difficulty (game s_clear)) q.
Proof.
  split; [exact s_clear_reachable|].
  destruct (@question_matches_tier rational_math 10 s_clear (world_at 2866 450)
              s_clear_reachable) as (_ & q & Hq & Hv & _).
  by exists q.
Defined.

Lemma labels_near_quotient_witness :
  @reachable rational_math 10 s_beam (world_at 43 0) /\
  map label (Game.meteors (game s_beam)) = [Some 4; Some 1; Some 3; Some 7] /\
  exists q,
    Game.current_question (game s_beam) = Some q /\
    Forall (fun m => exists a, label m = Some a /\
                               1 <= a /\ q.2 - 3 <= a <= q.2 + 4)
      (Game.meteors (game s_beam)).
Proof.
  split; [exact s_beam_reachable|]. split; [reflexivity|].
  exact (@labels_near_quotient rational_math 10 s_beam (world_at 43 0)
           s_beam_reachable).
Defined.

Lemma meteors_well_formed_witness :
  @reachable rational_math 10 s_beam (world_at 43 0) /\
  Forall (fun m => Meteor.hit m = false) (Game.meteors (game s_beam)).
Proof.
  split; [exact s_beam_reachable|].
  eapply Forall_impl;
    [exact (@meteors_well_formed rational_math 10 s_beam (world_at 43 0)
              s_beam_reachable)|].
  cbn beta. intros m (_ & _ & _ & Hh). exact Hh.
Defined.

Lemma particles_stay_lively_witness :
  @reachable rational_math 10 s_hit (world_at 163 450) /\
  length (Game.particles (game s_hit)) = 30%nat /\
  Forall lively (Game.particles (game s_hit)).
Proof.
  split; [exact s_hit_reachable|]. split; [reflexivity|].
  exact (@particles_stay_lively rational_math 10 s_hit (world_at 163 450)
           s_hit_reachable).
Defined.

Lemma remaining_count_positive_witness :
  @reachable rational_math 10 s_hit (world_at 163 450) /\
  Game.state (game s_hit) = Game.playing /\
  exists n, rem s_hit = Some n /\ 1 <= n <= TARGET_CORRECT.
Proof.
  assert (Hs : Game.state (game s_hit) = Game.playing) by reflexivity.
  split; [exact s_hit_reachable|]. split; [exact Hs|].
  exact (@remaining_count_positive rational_math 10 s_hit (world_at 163 450)
           s_hit_reachable Hs).
Defined.

Lemma level_clear_buttons_stored_witness :
  @reachable rational_math 10 s_clear (world_at 2866 450) /\
  Game.state (game s_clear) = Game.level_clear /\
  Game._buttons (game s_clear) = Some Game.level_clear_buttons.
Proof.
  assert (Hs : Game.state (game s_clear) = Game.level_clear) by reflexivity.
  split; [exact s_clear_reachable|]. split; [exact Hs|].
  exact (proj1 (@level_clear_buttons_stored rational_math 10 s_clear
                  (world_at 2866 450) s_clear_reachable Hs)).
Defined.

Lemma new_batch_in_lanes_witness :
  Game.qgen Game.blank = QuestionGenerator.set_difficulty 0 /\
  safe (Game.make_new_question 10 Game.blank) (world_at 0 0)
    (fun g' _ => Forall2 (fun i m => in_lane i m) [0; 1; 2; 3] (Game.meteors g')).
Proof.
  assert (Hq : Game.qgen Game.blank = QuestionGenerator.set_difficulty 0)
    by reflexivity.
  split; [exact Hq|].
  eapply safe_weaken;
    [exact (new_batch_in_lanes 10 0 Game.blank (world_at 0 0) Hq)|].
  cbn beta. intros g' w' Hall.
  eapply Forall2_impl; [exact Hall|]. cbn beta. intros i m [Hl _]. exact Hl.
Defined.

Lemma menu_click_dispatch_witness :
  let b : Game.Button :=
    ((WIDTH / 2 - 220 + 0 * 220, 320, 200, 48), (Tag.start, Some 0)) in
  Game.state (game s_escape) = Game.menu /\
  b ∈ Game.menu_buttons /\
  Rect.collidepoint (button_rect b) (300, 340) = true /\
  (exists g' w',
     Game.handle_click 10 (300, 340) 1 (game s_escape) (world_at 163 450)
     = Ok (g', w') /\
     play_reset_to 0 g') /\
  settles (QuestionGenerator.set_difficulty 0) lucky_world /\
  returns (Game.handle_click 10 (300, 340) 1 (game s_escape)) lucky_world
    (fun g' _ => play_reset_to 0 g').
Proof.
  intros b.
  assert (Hs : Game.state (game s_escape) = Game.menu) by reflexivity.
  assert (Hb : b ∈ Game.menu_buttons) by (by left).
  assert (Hhit : Rect.collidepoint (button_rect b) (300, 340) = true)
    by reflexivity.
  assert (Hst : settles (QuestionGenerator.set_difficulty 0) lucky_world).
  { eexists _, _. split; [vm_compute; reflexivity|].
    split; [reflexivity|]. split; reflexivity. }
  split; [exact Hs|]. split; [exact Hb|]. split; [exact Hhit|].
  split; [|split; [exact Hst|]].
  - destruct (Game.handle_click 10 (300, 340) 1 (game s_escape)
                (world_at 163 450))
      as [[g' w']|e] eqn:Hclick; [|vm_compute in Hclick; discriminate Hclick].
    exists g', w'. split; [reflexivity|].
    exact (safe_Ok _ _ _ _ _
             (proj1 (menu_click_dispatch 10 (game s_escape) (world_at 163 450)
                       (300, 340) 1 b 0 Hs Hb eq_refl Hhit)) Hclick).
  - assert (Hfuel : (3 <= 10)%nat) by lia.
    exact (proj2 (menu_click_dispatch 10 (game s_escape) lucky_world
                    (300, 340) 1 b 0 Hs Hb eq_refl Hhit) Hfuel Hst).
Defined.

Lemma click_outside_buttons_witness :
  Game.state (game s_clear) <> Game.playing /\
  Game._buttons (game s_clear) = Some Game.level_clear_buttons /\
  Forall (fun b => Rect.collidepoint (button_rect b) (0, 0) = false)
    Game.level_clear_buttons /\
  Game.handle_click 10 (0, 0) 1 (game s_clear) (world_at 2866 450)
  = Ok (game s_clear, world_at 2866 450).
Proof.
  assert (Hs : Game.state (game s_clear) <> Game.playing) by discriminate.
  assert (Hb : Game._buttons (game s_clear) = Some Game.level_clear_buttons)
    by reflexivity.
  assert (Hmiss : Forall (fun b => Rect.collidepoint (button_rect b) (0, 0) = false)
                    Game.level_clear_buttons)
    by (repeat constructor).
  split; [exact Hs|]. split; [exact Hb|]. split; [exact Hmiss|].
  exact (click_outside_buttons 10 (game s_clear) (world_at 2866 450) (0, 0) 1
           Game.level_clear_buttons Hs eq_refl (fun _ => Hb) Hmiss).
Defined.

Lemma main_loop_never_raises_witness :
  Forall (fun f : Frame => 0 <= f.1) frames_hit /\
  exists s w,
    @run_checked rational_math 10 frames_hit (world_at 0 0) = Ok (s, w) /\
    @reachable rational_math 10 s w /\
    length (Game.particles (game s)) = 30%nat.
Proof.
  assert (Hms : Forall (fun f : Frame => 0 <= f.1) frames_hit) by frames_nonneg.
  split; [exact Hms|].
  destruct (@run_checked rational_math 10 frames_hit (world_at 0 0))
    as [[s w]|e] eqn:Hrun; [|vm_compute in Hrun; discriminate Hrun].
  exists s, w. split; [reflexivity|]. split.
  - exact (safe_Ok _ _ _ _ _
             (proj1 (@main_loop_never_raises rational_math 10 frames_hit
                       (world_at 0 0) Hms)) Hrun).
  - vm_compute in Hrun. injection Hrun as <- _. reflexivity.
Defined.

Lemma quit_ends_loop_witness :
  exists s' w',
    @frame rational_math 10 16 [MOUSEMOTION (300, 0); QUIT; MOUSEMOTION (500, 0)]
      s_playing (world_at 43 0) = Ok (s', w') /\
    Game.ship_x (game s') = 500 /\
    running s' = false.
Proof.
  eexists _, _. split; [vm_compute; reflexivity|]. split; [reflexivity|].
  apply (@quit_ends_loop rational_math 10 16
           [MOUSEMOTION (300, 0); QUIT; MOUSEMOTION (500, 0)]
           s_playing (world_at 43 0) _ (world_at 43 0)).
  - vm_compute. reflexivity.
  - left. right. left.
Defined.
